(** * reloader: debounced file watching with session retry

    A shallow embedding of [main.go] of the [reloader] package
    ([Watch], [SelfMonitor] and [WatchMultiple]) and of the earlier [Watch]
    that signals its own process, and the properties of their session
    loops.

    ** Modelling conventions

    - [time.Duration] is a 64-bit count of nanoseconds; it is a [Z] here and
      instants are [Z] offsets from the moment the function is entered.
    - A callback field of a configuration is modelled by whether it is
      non-nil ([bool]); an invocation is recorded, with its instant, in the
      trace of [action]s, together with the calls made on the fsnotify
      watcher ([NewWatcher], [Add], [Close]).
    - Everything the goroutine can observe from outside is an [input]: the
      return of a blocking library call and the case a [select] takes.
      A run is the list of inputs with their instants; timers are not
      inputs: a timer that was armed expires when its instant is reached.
      When a timer and an input fall on the same instant, the input is taken
      first, unless a [Tick] of that instant precedes it: the choice a
      [select] makes between cases that are ready together is left to the
      environment this way.
    - The goroutine does not consume time itself: between two inputs it is
      blocked in a library call or in a [select].
    - Timers are those of Go's [time] package: a timer expires once, when
      its duration has passed (at once for a duration that is not
      positive); after [Stop] or [Reset] an earlier expiry is not delivered
      any more.
    - A timer callback of [WatchMultiple] (send on the channel, then
      lock/delete/unlock on the map) runs to completion at the expiry
      instant of its timer.  This leaves out one interleaving of the code:
      a relevant event of a target handled while the callback of that
      target's timer is in flight.  [Stop] then returns false and its
      result is not read (lines 255-257), and the callback, which sends
      before it locks and deletes by key (lines 259-264), deletes the entry
      of the timer armed after it; that timer stays armed and can no longer
      be stopped.  With a goroutine that takes no time this needs a
      relevant event of the target on the very instant at which its timer
      expires: what is stated about the timers of one target either
      excludes such an instant or does not depend on it. *)

From stdpp Require Import gmap strings list fin_maps sorting pretty.
From Stdlib Require Import ZArith Lia Ascii.

Open Scope Z_scope.

(** ** Time *)

Definition Second : Z := 1000000000.

(** [DefaultDebounce = 3 * time.Second], [DefaultRetryDelay = 2 * time.Second]. *)
Definition DefaultDebounce : Z := 3 * Second.
Definition DefaultRetryDelay : Z := 2 * Second.

(** The instant at which a timer created at [now] with duration [d] expires;
    as in Go's runtime, a duration that is zero or negative expires at once. *)
Definition timer_when (now d : Z) : Z := now + Z.max 0 d.

(** Has a timer expiring at [when] expired once the clock reads [t]?  Before
    an input of instant [t] only what expired strictly earlier has been
    delivered; a [Tick] lets the instant [t] itself pass. *)
Definition due (inclusive : bool) (t when : Z) : bool :=
  if inclusive then when <=? t else when <? t.

(** ** fsnotify events *)

Module fsnotify.

(** The operation bits exported by fsnotify ([Create Op = 1 << iota], ...). *)
Definition Create : Z := 1.
Definition Write : Z := 2.
Definition Remove : Z := 4.
Definition Rename : Z := 8.
Definition Chmod : Z := 16.

Record Event := { Name : string; Op : Z }.

End fsnotify.
Import fsnotify.

(** ** Errors *)

(** What [ctx.Err()] can be once the context is done. *)
Inductive ctx_err := Canceled | DeadlineExceeded.

Inductive error :=
| errors_New (msg : string)                   (* errors.New(msg) *)
| ctx_Err (c : ctx_err)                       (* ctx.Err() *)
| watcher_error (code : nat)                  (* an error value made by fsnotify *)
| fmt_Errorf_w (fmt dir : string) (e : error). (* fmt.Errorf("... %s: %w", dir, e) *)

(** ** What the environment supplies *)

(** Library functions that [main.go] calls and whose bodies are outside the
    package, and the order in which [range] walks a Go map, which differs
    from one loop to the next (the number is the index of the session). *)
Class Externals := {
  filepath_Dir : string → string;
  Event_String : Event → string;
  map_range : nat → list string → list string;
  map_range_perm : ∀ n l, map_range n l ≡ₚ l
}.

(** ** Observations and actions *)

Inductive input :=
| RetNewWatcher (r : option error)   (* fsnotify.NewWatcher() returns; None: no error *)
| RetAdd (r : option error)          (* w.Add(dir) returns *)
| CtxDone (c : ctx_err)              (* a select takes <-ctx.Done() *)
| RecvEvent (ev : Event)             (* the select takes <-w.Events *)
| RecvError (e : option error)       (* the select takes <-w.Errors; None: a nil error *)
| Tick.                              (* the instant passes, nothing else is observed *)

Inductive action :=
| CallNewWatcher
| CallAdd (dir : string)
| CallClose
| CallOnChange
| CallOnChangeFile (file : string)
| CallOnEvent (msg : string)
| CallOnError (e : error).

Definition timed (A : Type) : Type := (Z * A)%type.

(** [if cb != nil { cb(arg) }] *)
Definition call_if (cb : bool) (t : Z) (a : action) : list (timed action) :=
  if cb then [(t, a)] else [].

Definition is_tick (i : input) : bool :=
  match i with Tick => true | _ => false end.

(** The test of lines 87-88 and 247-248 on the operation of an event. *)
Definition op_relevant (op : Z) : bool :=
  negb (Z.land op Write =? 0) || negb (Z.land op Create =? 0) ||
  negb (Z.land op Rename =? 0) || negb (Z.land op Remove =? 0).

#[global] Instance ctx_err_eq_dec : EqDecision ctx_err.
Proof. solve_decision. Defined.
#[global] Instance error_eq_dec : EqDecision error.
Proof. solve_decision. Defined.
#[global] Instance action_eq_dec : EqDecision action.
Proof. solve_decision. Defined.

(** * Watch: one target *)

Module Single.

Record Config := {
  OnChange : bool;
  OnEvent : bool;
  OnError : bool;
  TargetFile : string;
  Debounce : Z;
  RetryDelay : Z
}.

(** Lines 34-39. *)
Definition with_defaults (cfg : Config) : Config :=
  let cfg := if Debounce cfg =? 0
             then {| OnChange := OnChange cfg; OnEvent := OnEvent cfg;
                     OnError := OnError cfg; TargetFile := TargetFile cfg;
                     Debounce := DefaultDebounce; RetryDelay := RetryDelay cfg |}
             else cfg in
  if RetryDelay cfg =? 0
  then {| OnChange := OnChange cfg; OnEvent := OnEvent cfg;
          OnError := OnError cfg; TargetFile := TargetFile cfg;
          Debounce := Debounce cfg; RetryDelay := DefaultRetryDelay |}
  else cfg.

(** Where the goroutine is blocked. *)
Inductive pc :=
| AtNewWatcher                    (* line 45, in fsnotify.NewWatcher() *)
| AtAdd                           (* line 59, in w.Add(dir) *)
| AtRetry (when : Z)              (* lines 50 and 64: time.After(RetryDelay) or ctx.Done() *)
| AtSelect (debounce : option Z)  (* line 80; the timer is idle (None) or armed *)
| Returned (e : error).

(** [stale] holds the expiry instants of the debounce timers that were
    left armed when their loop was left: nothing reads their channel any
    more. *)
Record state := { now : Z; at_pc : pc; stale : list Z }.

Section with_externals.
Context `{Externals}.

(** Lines 86-88. *)
Definition relevant (cfg : Config) (ev : Event) : bool :=
  String.eqb (Name ev) (TargetFile cfg) && op_relevant (Op ev).

(** Lines 89-92: the bookkeeping for a relevant event. *)
Definition on_relevant (cfg : Config) (t : Z) (ev : Event)
  : pc * list (timed action) :=
  (AtSelect (Some (timer_when t (Debounce cfg))),
   call_if (OnEvent cfg) t (CallOnEvent ("change detected: " +:+ Event_String ev))).

(** Timers that expire while the goroutine is blocked. *)
Definition elapse (cfg : Config) (incl : bool) (t : Z) (p : pc)
  : pc * list (timed action) :=
  match p with
  | AtRetry w =>
      if due incl t w
      then (AtNewWatcher, [(w, CallNewWatcher)])          (* continue: line 45 *)
      else (p, [])
  | AtSelect (Some w) =>
      if due incl t w                                      (* case <-debounce.C *)
      then (AtSelect None,
            call_if (OnEvent cfg) w (CallOnEvent "sending signal")
              ++ [(w, CallOnChange)])
      else (p, [])
  | _ => (p, [])
  end.

(** The loop is left without stopping the debounce timer: if it is armed
    it stays so. *)
Definition leave_armed (debounce : option Z) (st : list Z) : list Z :=
  match debounce with Some w => w :: st | None => st end.

(** What the goroutine does with an observation made at instant [t].  An
    input that cannot be observed where the goroutine is blocked is lost. *)
Definition react (cfg : Config) (t : Z) (p : pc) (st : list Z) (i : input)
  : pc * list Z * list (timed action) :=
  match p, i with
  | AtNewWatcher, RetNewWatcher (Some e) =>
      (AtRetry (timer_when t (RetryDelay cfg)), st,
       call_if (OnError cfg) t (CallOnError e))
  | AtNewWatcher, RetNewWatcher None =>
      (AtAdd, st, [(t, CallAdd (filepath_Dir (TargetFile cfg)))])
  | AtAdd, RetAdd (Some e) =>
      (AtRetry (timer_when t (RetryDelay cfg)), st,
       call_if (OnError cfg) t (CallOnError e) ++ [(t, CallClose)])
  | AtAdd, RetAdd None =>
      (AtSelect None, st,
       call_if (OnEvent cfg) t
         (CallOnEvent ("watching " +:+ filepath_Dir (TargetFile cfg))))
  | AtRetry _, CtxDone c => (Returned (ctx_Err c), st, [])
  | AtSelect db, CtxDone c =>
      (Returned (ctx_Err c), leave_armed db st, [(t, CallClose)])
  | AtSelect db, RecvEvent ev =>
      if relevant cfg ev
      then let '(p', out) := on_relevant cfg t ev in (p', st, out)
      else (AtSelect db, st, [])
  | AtSelect db, RecvError oe =>
      (AtNewWatcher, leave_armed db st,
       match oe with
       | Some e => call_if (OnError cfg) t (CallOnError e)
       | None => []
       end ++ [(t, CallClose); (t, CallNewWatcher)])      (* break loop; line 110; line 45 *)
  | _, _ => (p, st, [])
  end.

(** The goroutine moves to the instant of the next input: the timers that
    have expired by then are served, then the input is. *)
Definition advance (cfg : Config) (s : state) (i : timed input)
  : state * list (timed action) :=
  let t := Z.max (now s) i.1 in
  let incl := is_tick i.2 in
  let '(p1, out1) := elapse cfg incl t (at_pc s) in
  let st1 := filter (λ w, negb (due incl t w)) (stale s) in
  let '(p2, st2, out2) := react cfg t p1 st1 i.2 in
  ({| now := t; at_pc := p2; stale := st2 |}, out1 ++ out2).

(** Once the function has returned nothing happens any more. *)
Definition step (cfg : Config) (s : state) (i : timed input)
  : state * list (timed action) :=
  match at_pc s with
  | Returned _ => (s, [])
  | _ => advance cfg s i
  end.

Fixpoint run (cfg : Config) (s : state) (ins : list (timed input))
  : state * list (timed action) :=
  match ins with
  | [] => (s, [])
  | i :: ins =>
      let '(s1, out1) := step cfg s i in
      let '(s2, out2) := run cfg s1 ins in
      (s2, out1 ++ out2)
  end.

(** The session loop of lines 44-111, entered at instant 0. *)
Definition session_loop (cfg : Config) (ins : list (timed input))
  : state * list (timed action) :=
  let '(s, out) := run cfg {| now := 0; at_pc := AtNewWatcher; stale := [] |} ins in
  (s, (0, CallNewWatcher) :: out).

Definition returned (e : error) : state :=
  {| now := 0; at_pc := Returned e; stale := [] |}.

(** [Watch], lines 33-112. *)
Definition Watch (cfg : Config) (ins : list (timed input))
  : state * list (timed action) :=
  let cfg := with_defaults cfg in
  if negb (OnChange cfg)
  then (returned (errors_New "OnChange callback must be set"), [])
  else session_loop cfg ins.

End with_externals.
End Single.

(** * WatchMultiple: several targets *)

Module Multi.

Record MultiConfig := {
  OnChange : bool;
  OnEvent : bool;
  OnError : bool;
  TargetFiles : list string;
  Debounce : Z;
  RetryDelay : Z
}.

(** Lines 166-171. *)
Definition with_defaults (cfg : MultiConfig) : MultiConfig :=
  let cfg := if Debounce cfg =? 0
             then {| OnChange := OnChange cfg; OnEvent := OnEvent cfg;
                     OnError := OnError cfg; TargetFiles := TargetFiles cfg;
                     Debounce := DefaultDebounce; RetryDelay := RetryDelay cfg |}
             else cfg in
  if RetryDelay cfg =? 0
  then {| OnChange := OnChange cfg; OnEvent := OnEvent cfg;
          OnError := OnError cfg; TargetFiles := TargetFiles cfg;
          Debounce := Debounce cfg; RetryDelay := DefaultRetryDelay |}
  else cfg.

(** Where the goroutine is blocked.  [activeTimers] maps a target to the
    expiry instant of its armed timer.  The channel [debouncedEvents] of the
    open session is empty whenever the goroutine is blocked in the select of
    line 232: what a callback sends is received at that instant. *)
Inductive pc :=
| AtNewWatcher                                   (* line 191 *)
| AtAdd (dir : string) (rest : list string)      (* line 206; rest: what the range has still to visit *)
| AtRetryNew (when : Z)                          (* line 196 *)
| AtRetryAdd (when : Z) (rest : list string)     (* line 211, inside the range loop *)
| AtSelect (activeTimers : gmap string Z)        (* line 232 *)
| Returned (e : error).

(** [stale]: the timer maps and channels of the sessions that broke out of
    their loop; their timers stay armed and their callbacks still run, on
    the map and the channel they captured.  [session] counts the range loops
    started so far. *)
Record state := {
  now : Z;
  at_pc : pc;
  stale : list (gmap string Z * list string);
  session : nat
}.

Section with_externals.
Context `{Externals}.

(** Lines 180-184. *)
Definition group_by_dir (files : list string) : gmap string (list string) :=
  foldl (λ (dirToFiles : gmap string (list string)) file,
           let dir := filepath_Dir file in
           <[dir := default [] (dirToFiles !! dir) ++ [file]]> dirToFiles)
        ∅ files.

Definition keys (dirToFiles : gmap string (list string)) : list string :=
  (map_to_list dirToFiles).*1.

(** The head of an iteration of [for dir := range dirToFiles] at instant
    [t]: either [w.Add] is called on the next directory or the range is
    over and lines 224-228 make the channel and the map of the session. *)
Definition range_next (t : Z) (dirs : list string) : pc * list (timed action) :=
  match dirs with
  | dir :: rest => (AtAdd dir rest, [(t, CallAdd dir)])
  | [] => (AtSelect ∅, [])
  end.

(** Lines 246-248. *)
Definition matches (ev : Event) (targetFile : string) : bool :=
  String.eqb (Name ev) targetFile && op_relevant (Op ev).

(** Lines 249-265: the bookkeeping for a relevant event of [targetFile].
    The timer of the entry, if any, is stopped and the entry is overwritten
    with the new timer. *)
Definition on_relevant (cfg : MultiConfig) (t : Z) (ev : Event) (targetFile : string)
    (activeTimers : gmap string Z) : gmap string Z * list (timed action) :=
  (<[targetFile := timer_when t (Debounce cfg)]> activeTimers,
   call_if (OnEvent cfg) t (CallOnEvent ("change detected: " +:+ Event_String ev))).

(** Lines 245-268: the loop over the targets, left at the first match. *)
Fixpoint on_event (cfg : MultiConfig) (t : Z) (ev : Event) (targets : list string)
    (activeTimers : gmap string Z) : gmap string Z * list (timed action) :=
  match targets with
  | [] => (activeTimers, [])
  | targetFile :: targets =>
      if matches ev targetFile
      then on_relevant cfg t ev targetFile activeTimers       (* break *)
      else on_event cfg t ev targets activeTimers
  end.

(** Lines 259-264, the function given to [time.AfterFunc]: send on the
    channel, whose capacity is [cap], then delete the entry.  When the
    buffer is full the send blocks: nothing changes, and the callback is
    tried again the next time the clock moves.  The callback is run at the
    expiry instant of its timer, as one step: the entry it deletes by key
    is then its own (see the conventions above for the instant of expiry). *)
Definition timer_callback (cap : nat) (targetFile : string)
    (activeTimers : gmap string Z) (debouncedEvents : list string)
  : gmap string Z * list string :=
  if (length debouncedEvents <? cap)%nat
  then (delete targetFile activeTimers, debouncedEvents ++ [targetFile])
  else (activeTimers, debouncedEvents).

(** Lines 270-274, for everything the channel holds at instant [t]. *)
Fixpoint deliver (cfg : MultiConfig) (t : Z) (debouncedEvents : list string)
  : list (timed action) :=
  match debouncedEvents with
  | [] => []
  | file :: debouncedEvents =>
      call_if (OnEvent cfg) t (CallOnEvent ("sending signal for: " +:+ file))
        ++ (t, CallOnChangeFile file) :: deliver cfg t debouncedEvents
  end.

Definition earlier (p q : string * Z) : Prop := p.2 ≤ q.2.
#[local] Instance earlier_dec : RelDecision earlier.
Proof. intros p q. unfold earlier. apply _. Defined.

(** The armed timers of a map that have expired, in the order of expiry. *)
Definition expired (incl : bool) (t : Z) (activeTimers : gmap string Z)
  : list (string * Z) :=
  merge_sort earlier (filter (λ p, due incl t p.2 = true) (map_to_list activeTimers)).

(** A timer of the open session expires: its callback runs, and the select
    of line 232 receives what it sent.  A timer is thus either armed and in
    the map, where [on_relevant] stops it by overwriting its entry, or
    expired and gone from it. *)
Definition expire_open (cfg : MultiConfig)
    (acc : gmap string Z * list (timed action)) (p : string * Z)
  : gmap string Z * list (timed action) :=
  let '(tm1, ch1) := timer_callback (length (TargetFiles cfg)) p.1 acc.1 [] in
  (tm1, acc.2 ++ deliver cfg p.2 ch1).

(** A timer of a session that is gone expires: its callback runs, and
    nothing receives. *)
Definition expire_stale (cfg : MultiConfig)
    (acc : gmap string Z * list string) (p : string * Z)
  : gmap string Z * list string :=
  timer_callback (length (TargetFiles cfg)) p.1 acc.1 acc.2.

Definition elapse_stale (cfg : MultiConfig) (incl : bool) (t : Z)
    (old : gmap string Z * list string) : gmap string Z * list string :=
  foldl (expire_stale cfg) old (expired incl t old.1).

(** Timers that expire while the goroutine is blocked. *)
Definition elapse (cfg : MultiConfig) (incl : bool) (t : Z) (p : pc)
  : pc * list (timed action) :=
  match p with
  | AtRetryNew w =>
      if due incl t w
      then (AtNewWatcher, [(w, CallNewWatcher)])     (* continue: line 191 *)
      else (p, [])
  | AtRetryAdd w rest =>
      if due incl t w
      then range_next w rest                         (* continue: line 205 *)
      else (p, [])
  | AtSelect tm =>
      let '(tm', out) := foldl (expire_open cfg) (tm, []) (expired incl t tm) in
      (AtSelect tm', out)
  | _ => (p, [])
  end.

(** What the goroutine does with an observation made at instant [t].  An
    input that cannot be observed where the goroutine is blocked is lost. *)
Definition react (cfg : MultiConfig) (dirToFiles : gmap string (list string))
    (t : Z) (p : pc) (st : list (gmap string Z * list string)) (n : nat) (i : input)
  : pc * list (gmap string Z * list string) * nat * list (timed action) :=
  match p, i with
  | AtNewWatcher, RetNewWatcher (Some e) =>
      (AtRetryNew (timer_when t (RetryDelay cfg)), st, n,
       call_if (OnError cfg) t (CallOnError e))
  | AtNewWatcher, RetNewWatcher None =>
      let '(p', out) := range_next t (map_range n (keys dirToFiles)) in
      (p', st, S n, out)
  | AtAdd dir rest, RetAdd (Some e) =>
      (AtRetryAdd (timer_when t (RetryDelay cfg)) rest, st, n,
       call_if (OnError cfg) t
         (CallOnError (fmt_Errorf_w "failed to watch directory %s: %w" dir e))
         ++ [(t, CallClose)])
  | AtAdd dir rest, RetAdd None =>
      let '(p', out) := range_next t rest in
      (p', st, n,
       call_if (OnEvent cfg) t (CallOnEvent ("watching directory: " +:+ dir)) ++ out)
  | AtRetryNew _, CtxDone c => (Returned (ctx_Err c), st, n, [])
  | AtRetryAdd _ _, CtxDone c => (Returned (ctx_Err c), st, n, [])
  | AtSelect _, CtxDone c =>
      (Returned (ctx_Err c), st, n, [(t, CallClose)])      (* every timer of the map is stopped *)
  | AtSelect tm, RecvEvent ev =>
      let '(tm', out) := on_event cfg t ev (TargetFiles cfg) tm in
      (AtSelect tm', st, n, out)
  | AtSelect tm, RecvError oe =>
      (AtNewWatcher, (tm, []) :: st, n,
       match oe with
       | Some e => call_if (OnError cfg) t (CallOnError e)
       | None => []
       end ++ [(t, CallClose); (t, CallNewWatcher)])       (* break loop; line 283; line 191 *)
  | _, _ => (p, st, n, [])
  end.

(** The goroutine moves to the instant of the next input: the timers that
    have expired by then are served, then the input is. *)
Definition advance (cfg : MultiConfig) (dirToFiles : gmap string (list string))
    (s : state) (i : timed input) : state * list (timed action) :=
  let t := Z.max (now s) i.1 in
  let incl := is_tick i.2 in
  let '(p1, out1) := elapse cfg incl t (at_pc s) in
  let st1 := elapse_stale cfg incl t <$> stale s in
  let '(p2, st2, n2, out2) := react cfg dirToFiles t p1 st1 (session s) i.2 in
  ({| now := t; at_pc := p2; stale := st2; session := n2 |}, out1 ++ out2).

(** Once the function has returned nothing happens any more. *)
Definition step (cfg : MultiConfig) (dirToFiles : gmap string (list string))
    (s : state) (i : timed input) : state * list (timed action) :=
  match at_pc s with
  | Returned _ => (s, [])
  | _ => advance cfg dirToFiles s i
  end.

Fixpoint run (cfg : MultiConfig) (dirToFiles : gmap string (list string))
    (s : state) (ins : list (timed input)) : state * list (timed action) :=
  match ins with
  | [] => (s, [])
  | i :: ins =>
      let '(s1, out1) := step cfg dirToFiles s i in
      let '(s2, out2) := run cfg dirToFiles s1 ins in
      (s2, out1 ++ out2)
  end.

Definition returned (e : error) : state :=
  {| now := 0; at_pc := Returned e; stale := []; session := 0 |}.

(** The session loop of lines 190-285, entered at instant 0. *)
Definition session_loop (cfg : MultiConfig) (dirToFiles : gmap string (list string))
    (ins : list (timed input)) : state * list (timed action) :=
  let '(s, out) :=
    run cfg dirToFiles
      {| now := 0; at_pc := AtNewWatcher; stale := []; session := 0 |} ins in
  (s, (0, CallNewWatcher) :: out).

(** [WatchMultiple], lines 165-285. *)
Definition WatchMultiple (cfg : MultiConfig) (ins : list (timed input))
  : state * list (timed action) :=
  let cfg := with_defaults cfg in
  if negb (OnChange cfg)
  then (returned (errors_New "OnChange callback must be set"), [])
  else if (length (TargetFiles cfg) =? 0)%nat
  then (returned (errors_New "at least one target file must be specified"), [])
  else
    let dirToFiles := group_by_dir (TargetFiles cfg) in
    let '(s, out) := session_loop cfg dirToFiles ins in
    (s,
     call_if (OnEvent cfg) 0
       (CallOnEvent ("watching " +:+ pretty (length (TargetFiles cfg))
                       +:+ " files across " +:+ pretty (size dirToFiles)
                       +:+ " directories"))
       ++ out).

End with_externals.
End Multi.

(** * A concrete environment, for running the model *)

Module Demo.

(** Everything up to the last slash, or "." when there is none: what
    [filepath.Dir] gives on a clean absolute path. *)
Fixpoint dir_aux (s acc : string) : option string :=
  match s with
  | EmptyString => None
  | String c s' =>
      match dir_aux s' (acc +:+ String c EmptyString) with
      | Some d => Some d
      | None => if Ascii.eqb c "/"%char then Some acc else None
      end
  end.

Definition dir (s : string) : string :=
  match dir_aux s EmptyString with
  | Some EmptyString => "/"
  | Some d => d
  | None => "."
  end.

#[global] Instance externals : Externals := {|
  filepath_Dir := dir;
  Event_String := λ ev, Name ev;
  map_range := λ _ l, l;
  map_range_perm := λ _ l, reflexivity l
|}.

(** A configuration of [Watch]: settle delay 50, retry delay 10. *)
Definition single_cfg : Single.Config :=
  {| Single.OnChange := true; Single.OnEvent := true; Single.OnError := true;
     Single.TargetFile := "/srv/app"; Single.Debounce := 50;
     Single.RetryDelay := 10 |}.

(** A configuration of [WatchMultiple]: two targets in [/etc], one in [/srv]. *)
Definition multi_cfg : Multi.MultiConfig :=
  {| Multi.OnChange := true; Multi.OnEvent := true; Multi.OnError := true;
     Multi.TargetFiles := ["/etc/a.conf"; "/etc/b.conf"; "/srv/app"];
     Multi.Debounce := 50; Multi.RetryDelay := 10 |}.

Definition write (path : string) : Event := {| Name := path; Op := Write |}.
Definition chmod (path : string) : Event := {| Name := path; Op := Chmod |}.

(** [Watch] in its event loop at instant 0, the timer idle. *)
Definition single_watching : Single.state :=
  {| Single.now := 0; Single.at_pc := Single.AtSelect None; Single.stale := [] |}.

(** [WatchMultiple] entering its session loop, and in its event loop at
    instant 0 with no timer armed. *)
Definition multi_start : Multi.state :=
  {| Multi.now := 0; Multi.at_pc := Multi.AtNewWatcher; Multi.stale := [];
     Multi.session := 0 |}.

Definition multi_watching : Multi.state :=
  {| Multi.now := 0; Multi.at_pc := Multi.AtSelect ∅; Multi.stale := [];
     Multi.session := 1 |}.

(** The scenario of the specification: three writes at 0, 10 and 20. *)
Definition three_writes (path : string) : list (timed input) :=
  [(0, RecvEvent (write path)); (10, RecvEvent (write path));
   (20, RecvEvent (write path))].

(** [Watch] entering its session loop. *)
Definition single_start : Single.state :=
  {| Single.now := 0; Single.at_pc := Single.AtNewWatcher; Single.stale := [] |}.

(** A successful start of [Watch], and of [WatchMultiple] on the two
    directories of [multi_cfg]. *)
Definition single_opens : list (timed input) :=
  [(0, RetNewWatcher None); (0, RetAdd None)].

Definition multi_opens : list (timed input) :=
  [(0, RetNewWatcher None); (0, RetAdd None); (0, RetAdd None)].

End Demo.

(** * What is read off a trace *)

(** The instants at which [Watch] invoked the change callback. *)
Definition changes (out : list (timed action)) : list Z :=
  (filter (λ x, x.2 = CallOnChange) out).*1.

(** The instants at which [WatchMultiple] invoked the change callback for
    [file]. *)
Definition changes_of (file : string) (out : list (timed action)) : list Z :=
  (filter (λ x, x.2 = CallOnChangeFile file) out).*1.

(** The directories given to [w.Add], in the order of the calls. *)
Definition added (out : list (timed action)) : list string :=
  omap (λ x, match x.2 with CallAdd dir => Some dir | _ => None end) out.

(** The instants at which a watcher was created. *)
Definition opened (out : list (timed action)) : list Z :=
  (filter (λ x, x.2 = CallNewWatcher) out).*1.

(** A relevant event, in the words of the specification: the path is one of
    the targets and the operation set meets write, create, rename, remove. *)
Definition relevant_event (targets : list string) (ev : Event) : Prop :=
  Name ev ∈ targets ∧
  ∃ op, op ∈ [Write; Create; Rename; Remove] ∧ Z.land (Op ev) op ≠ 0.

(** The channel of [WatchMultiple] has room for what a callback sends on
    it while it is empty: its capacity, the number of targets, is not 0. *)
Definition can_send (cfg : Multi.MultiConfig) : bool :=
  (0 <? length (Multi.TargetFiles cfg))%nat.

(** The timer armed for [file] in the open session, if any. *)
Definition armed (file : string) (p : Multi.pc) : option Z :=
  match p with Multi.AtSelect activeTimers => activeTimers !! file | _ => None end.

(** What the passing of time leaves of a timer, and the instants of the
    invocations of the change callback it gives; [ok]: the callback of the
    timer can run to its end. *)
Definition remaining (ok incl : bool) (t : Z) (timer : option Z) : option Z :=
  match timer with
  | Some w => if ok && due incl t w then None else Some w
  | None => None
  end.

Definition fired (ok incl : bool) (t : Z) (timer : option Z) : list Z :=
  match timer with
  | Some w => if ok && due incl t w then [w] else []
  | None => []
  end.

(** The input is a relevant event of the target [file]. *)
Definition touches (cfg : Multi.MultiConfig) (file : string) (i : input) : bool :=
  match i with
  | RecvEvent ev =>
      bool_decide (Name ev = file) && bool_decide (file ∈ Multi.TargetFiles cfg)
        && op_relevant (Op ev)
  | _ => false
  end.

(** The input ends the session when it is observed in the event loop. *)
Definition ends_session (i : input) : bool :=
  match i with CtxDone _ | RecvError _ => true | _ => false end.

Definition in_select (p : Multi.pc) : bool :=
  match p with Multi.AtSelect _ => true | _ => false end.

(** The input is a relevant event of the target of [Watch]. *)
Definition touches_target (cfg : Single.Config) (i : input) : bool :=
  match i with
  | RecvEvent ev => Single.relevant cfg ev
  | _ => false
  end.

(** A program point of [WatchMultiple] without its timers. *)
Definition shape (p : Multi.pc) : Multi.pc :=
  match p with Multi.AtSelect _ => Multi.AtSelect ∅ | _ => p end.

(** Two inputs of the same instant that are the same, or are both events
    of paths other than [file]. *)
Definition same_except (file : string) (i1 i2 : timed input) : Prop :=
  i1.1 = i2.1
  ∧ (i1.2 = i2.2
     ∨ ∃ ev1 ev2, i1.2 = RecvEvent ev1 ∧ i2.2 = RecvEvent ev2
                  ∧ Name ev1 ≠ file ∧ Name ev2 ≠ file).

(** The instants of the inputs that [pick] selects. *)
Definition times_of (pick : input → bool) (ins : list (timed input)) : list Z :=
  (filter (λ i, pick i.2 = true) ins).*1.

(** The instants, in a list of inputs, of the relevant events of the target
    of [Watch], and of the target [file] of [WatchMultiple]. *)
Definition target_event_times (cfg : Single.Config) (ins : list (timed input))
  : list Z :=
  times_of (touches_target cfg) ins.

Definition event_times (cfg : Multi.MultiConfig) (file : string)
    (ins : list (timed input)) : list Z :=
  times_of (touches cfg file) ins.

(** The instants do not go back, starting from [from]. *)
Fixpoint ascending (from : Z) (ts : list Z) : Prop :=
  match ts with
  | [] => True
  | t :: ts => from ≤ t ∧ ascending t ts
  end.

(** Each instant is less than [d] after the one before it. *)
Fixpoint within (d : Z) (ts : list Z) : Prop :=
  match ts with
  | t1 :: ts =>
      match ts with
      | t2 :: _ => t2 - t1 < d
      | [] => True
      end ∧ within d ts
  | [] => True
  end.

(** No input ends the session: neither a cancellation nor an error of the
    watcher is observed. *)
Definition stays_open (ins : list (timed input)) : Prop :=
  Forall (λ i, ends_session i.2 = false) ins.

(** Two states of [WatchMultiple] that are at the same point, at the same
    instant, and in which the target [file] has the same timer. *)
Definition alike (file : string) (s1 s2 : Multi.state) : Prop :=
  Multi.now s1 = Multi.now s2
  ∧ Multi.session s1 = Multi.session s2
  ∧ shape (Multi.at_pc s1) = shape (Multi.at_pc s2)
  ∧ armed file (Multi.at_pc s1) = armed file (Multi.at_pc s2).

(** The debounce timer of [Watch] when it is in its event loop. *)
Definition debounce_timer (p : Single.pc) : option Z :=
  match p with Single.AtSelect debounce => debounce | _ => None end.

(** A run as one target sees it: a step gives the next state and the
    instants at which the change callback was invoked for the target. *)
Fixpoint iterate {S : Type} (stepf : S → timed input → S * list Z)
    (s : S) (ins : list (timed input)) : S * list Z :=
  match ins with
  | [] => (s, [])
  | i :: ins =>
      let '(s1, out1) := stepf s i in
      let '(s2, out2) := iterate stepf s1 ins in
      (s2, out1 ++ out2)
  end.

(** [Watch] and [WatchMultiple] as their target, or one of their targets,
    sees them. *)
Definition watch_view `{Externals} (cfg : Single.Config)
    (s : Single.state) (i : timed input) : Single.state * list Z :=
  ((Single.step cfg s i).1, changes (Single.step cfg s i).2).

Definition target_view `{Externals} (cfg : Multi.MultiConfig)
    (dirToFiles : gmap string (list string)) (file : string)
    (s : Multi.state) (i : timed input) : Multi.state * list Z :=
  ((Multi.step cfg dirToFiles s i).1,
   changes_of file (Multi.step cfg dirToFiles s i).2).

(** The instant at which a target settles: the settle delay after the last
    of its events, or the expiry of the timer it had when there is none. *)
Definition settle (d : Z) (timer : option Z) (ts : list Z) : option Z :=
  match last ts with
  | Some tN => Some (tN + d)
  | None => timer
  end.

(** The function has not returned. *)
Definition single_running (p : Single.pc) : Prop :=
  match p with Single.Returned _ => False | _ => True end.

Definition multi_running (p : Multi.pc) : Prop :=
  match p with Multi.Returned _ => False | _ => True end.

(** * SelfMonitor *)

Module Self.

Record SelfMonitorConfig := {
  OnReload : bool;
  OnEvent : bool;
  OnError : bool;
  Debounce : Z;
  RetryDelay : Z
}.

(** What [SelfMonitor] gives back: the error of [os.Executable], an error
    value of the operating system that is opaque here, or what [Watch]
    did. *)
Inductive result :=
| ExecutableError (code : nat)
| Watched (r : Single.state * list (timed action)).

Section with_externals.
Context `{Externals}.

(** Lines 133-140. *)
Definition config (executable : string) (cfg : SelfMonitorConfig) : Single.Config :=
  {| Single.TargetFile := executable;
     Single.OnChange := OnReload cfg;
     Single.Debounce := Debounce cfg;
     Single.RetryDelay := RetryDelay cfg;
     Single.OnEvent := OnEvent cfg;
     Single.OnError := OnError cfg |}.

(** [SelfMonitor], lines 127-143; [os_Executable] is what [os.Executable()]
    returned: the error code, or the path. *)
Definition SelfMonitor (os_Executable : nat + string) (cfg : SelfMonitorConfig)
    (ins : list (timed input)) : result :=
  match os_Executable with
  | inl err => ExecutableError err
  | inr executable => Watched (Single.Watch (config executable cfg) ins)
  end.

End with_externals.
End Self.

(** * The earlier Watch, which signals its own process *)

(** The second file of package [reloader] among the sources (the second
    part of [unnamed/part_001], whose lines are cited): [Watch] sends
    [cfg.Signal] to its own process where the later one calls [OnChange],
    has no callback to validate, and sleeps after a failed registration.
    What the signal does to the process is outside the model: the function
    goes on as it does when the signal is handled.  A debounce timer that
    is armed when the loop is left is never read again and is dropped. *)
Module Legacy.

Record Config := {
  TargetFile : string;
  Signal : Z;
  Debounce : Z;
  RetryDelay : Z;
  OnEvent : bool;
  OnError : bool
}.

Inductive action :=
| CallNewWatcher
| CallAdd (dir : string)
| CallClose
| CallKill (sig : Z)          (* syscall.Kill(syscall.Getpid(), sig) *)
| CallOnEvent (msg : string)
| CallOnError (e : error).

Definition call_if (cb : bool) (t : Z) (a : action) : list (timed action) :=
  if cb then [(t, a)] else [].

(** Lines 143-148. *)
Definition with_defaults (cfg : Config) : Config :=
  let cfg := if Debounce cfg =? 0
             then {| TargetFile := TargetFile cfg; Signal := Signal cfg;
                     Debounce := 3 * Second; RetryDelay := RetryDelay cfg;
                     OnEvent := OnEvent cfg; OnError := OnError cfg |}
             else cfg in
  if RetryDelay cfg =? 0
  then {| TargetFile := TargetFile cfg; Signal := Signal cfg;
          Debounce := Debounce cfg; RetryDelay := 2 * Second;
          OnEvent := OnEvent cfg; OnError := OnError cfg |}
  else cfg.

(** Where the goroutine is blocked. *)
Inductive pc :=
| AtNewWatcher                    (* line 151 *)
| AtAdd                           (* line 165 *)
| AtRetry (when : Z)              (* line 156: time.After(RetryDelay) or ctx.Done() *)
| AtSleep (when : Z)              (* line 170: time.Sleep(RetryDelay) *)
| AtSelect (debounce : option Z)  (* line 182 *)
| Returned (e : error).

Record state := { now : Z; at_pc : pc }.

Section with_externals.
Context `{Externals}.

(** Lines 188-190. *)
Definition relevant (cfg : Config) (ev : Event) : bool :=
  String.eqb (Name ev) (TargetFile cfg) && op_relevant (Op ev).

(** Timers that expire, and the sleep that ends, while the goroutine is
    blocked. *)
Definition elapse (cfg : Config) (incl : bool) (t : Z) (p : pc)
  : pc * list (timed action) :=
  match p with
  | AtRetry w =>
      if due incl t w
      then (AtNewWatcher, [(w, CallNewWatcher)])          (* continue: line 151 *)
      else (p, [])
  | AtSleep w =>
      if due incl t w
      then (AtNewWatcher, [(w, CallNewWatcher)])          (* line 171, continue: line 151 *)
      else (p, [])
  | AtSelect (Some w) =>
      if due incl t w                                      (* case <-debounce.C *)
      then (AtSelect None,
            call_if (OnEvent cfg) w (CallOnEvent "sending signal")
              ++ [(w, CallKill (Signal cfg))])
      else (p, [])
  | _ => (p, [])
  end.

(** What the goroutine does with an observation made at instant [t].  An
    input that cannot be observed where the goroutine is blocked is lost;
    in [time.Sleep] nothing can be observed. *)
Definition react (cfg : Config) (t : Z) (p : pc) (i : input)
  : pc * list (timed action) :=
  match p, i with
  | AtNewWatcher, RetNewWatcher (Some e) =>
      (AtRetry (timer_when t (RetryDelay cfg)),
       call_if (OnError cfg) t (CallOnError e))
  | AtNewWatcher, RetNewWatcher None =>
      (AtAdd, [(t, CallAdd (filepath_Dir (TargetFile cfg)))])
  | AtAdd, RetAdd (Some e) =>
      (AtSleep (timer_when t (RetryDelay cfg)),
       call_if (OnError cfg) t (CallOnError e) ++ [(t, CallClose)])
  | AtAdd, RetAdd None =>
      (AtSelect None,
       call_if (OnEvent cfg) t
         (CallOnEvent ("watching " +:+ filepath_Dir (TargetFile cfg))))
  | AtRetry _, CtxDone c => (Returned (ctx_Err c), [])
  | AtSelect _, CtxDone c => (Returned (ctx_Err c), [(t, CallClose)])
  | AtSelect db, RecvEvent ev =>
      if relevant cfg ev
      then (AtSelect (Some (timer_when t (Debounce cfg))),
            call_if (OnEvent cfg) t
              (CallOnEvent ("change detected: " +:+ Event_String ev)))
      else (AtSelect db, [])
  | AtSelect _, RecvError oe =>
      (AtNewWatcher,
       match oe with
       | Some e => call_if (OnError cfg) t (CallOnError e)
       | None => []
       end ++ [(t, CallClose); (t, CallNewWatcher)])      (* break loop; line 212; line 151 *)
  | _, _ => (p, [])
  end.

Definition advance (cfg : Config) (s : state) (i : timed input)
  : state * list (timed action) :=
  let t := Z.max (now s) i.1 in
  let incl := is_tick i.2 in
  let '(p1, out1) := elapse cfg incl t (at_pc s) in
  let '(p2, out2) := react cfg t p1 i.2 in
  ({| now := t; at_pc := p2 |}, out1 ++ out2).

Definition step (cfg : Config) (s : state) (i : timed input)
  : state * list (timed action) :=
  match at_pc s with
  | Returned _ => (s, [])
  | _ => advance cfg s i
  end.

Fixpoint run (cfg : Config) (s : state) (ins : list (timed input))
  : state * list (timed action) :=
  match ins with
  | [] => (s, [])
  | i :: ins =>
      let '(s1, out1) := step cfg s i in
      let '(s2, out2) := run cfg s1 ins in
      (s2, out1 ++ out2)
  end.

(** [Watch], lines 142-214, entered at instant 0. *)
Definition Watch (cfg : Config) (ins : list (timed input))
  : state * list (timed action) :=
  let cfg := with_defaults cfg in
  let '(s, out) := run cfg {| now := 0; at_pc := AtNewWatcher |} ins in
  (s, (0, CallNewWatcher) :: out).

End with_externals.
End Legacy.

(** Configurations of [SelfMonitor] and of the earlier [Watch], for
    running the model: settle delay 50, retry delay 10; the signal is
    SIGHUP (1). *)
Module Demo2.

Definition self_cfg : Self.SelfMonitorConfig :=
  {| Self.OnReload := true; Self.OnEvent := true; Self.OnError := true;
     Self.Debounce := 50; Self.RetryDelay := 10 |}.

Definition legacy_cfg : Legacy.Config :=
  {| Legacy.TargetFile := "/srv/app"; Legacy.Signal := 1;
     Legacy.Debounce := 50; Legacy.RetryDelay := 10;
     Legacy.OnEvent := true; Legacy.OnError := true |}.

(** The earlier [Watch] in its event loop at instant 0, the timer idle,
    and in [w.Add]. *)
Definition legacy_watching : Legacy.state :=
  {| Legacy.now := 0; Legacy.at_pc := Legacy.AtSelect None |}.

Definition legacy_adding : Legacy.state :=
  {| Legacy.now := 0; Legacy.at_pc := Legacy.AtAdd |}.

End Demo2.

(** * More that is read off a trace *)

(** The use of watchers along a trace.  [open] says that [w.Add] was called
    on a watcher that has not been closed since; the reading fails (None)
    when a watcher is created while that is so. *)
Fixpoint watchers (open : bool) (out : list (timed action)) : option bool :=
  match out with
  | [] => Some open
  | (_, CallNewWatcher) :: out => if open then None else watchers false out
  | (_, CallAdd _) :: out => watchers true out
  | (_, CallClose) :: out => watchers false out
  | _ :: out => watchers open out
  end.

(** May [Watch], respectively [WatchMultiple], make this call?  A callback
    that is nil must not be invoked. *)
Definition single_callable (cfg : Single.Config) (a : action) : Prop :=
  match a with
  | CallOnChange => Single.OnChange cfg = true
  | CallOnChangeFile _ => False
  | CallOnEvent _ => Single.OnEvent cfg = true
  | CallOnError _ => Single.OnError cfg = true
  | _ => True
  end.

Definition multi_callable (cfg : Multi.MultiConfig) (a : action) : Prop :=
  match a with
  | CallOnChange => False
  | CallOnChangeFile _ => Multi.OnChange cfg = true
  | CallOnEvent _ => Multi.OnEvent cfg = true
  | CallOnError _ => Multi.OnError cfg = true
  | _ => True
  end.

(** What debouncing gives, for a timer as it stands, the instants [ts] of
    the relevant events to come and an observation that ends at [T]: an
    expiry is delivered when no relevant event comes before it. *)
Fixpoint debounced (d : Z) (timer : option Z) (ts : list Z) (T : Z) : list Z :=
  match ts with
  | [] =>
      match timer with
      | Some w => if w <=? T then [w] else []
      | None => []
      end
  | t :: ts =>
      match timer with
      | Some w => if w <? t then [w] else []
      | None => []
      end ++ debounced d (Some (timer_when t d)) ts T
  end.

(** No relevant event falls on the very instant at which the timer that is
    pending then expires. *)
Fixpoint no_tie (d : Z) (timer : option Z) (ts : list Z) : Prop :=
  match ts with
  | [] => True
  | t :: ts =>
      match timer with Some w => w ≠ t | None => True end
      ∧ no_tie d (Some (timer_when t d)) ts
  end.

(** Each instant is more than [d] after the one before it. *)
Fixpoint apart (d : Z) (ts : list Z) : Prop :=
  match ts with
  | t1 :: ts =>
      match ts with
      | t2 :: _ => d < t2 - t1
      | [] => True
      end ∧ apart d ts
  | [] => True
  end.

(** The instants at which the earlier [Watch] signalled its process. *)
Definition kills (out : list (timed Legacy.action)) : list Z :=
  omap (λ x, match x.2 with Legacy.CallKill _ => Some x.1 | _ => None end) out.

Definition legacy_timer (p : Legacy.pc) : option Z :=
  match p with Legacy.AtSelect debounce => debounce | _ => None end.

Definition legacy_touches (cfg : Legacy.Config) (i : input) : bool :=
  match i with
  | RecvEvent ev => Legacy.relevant cfg ev
  | _ => false
  end.

Definition legacy_view `{Externals} (cfg : Legacy.Config)
    (s : Legacy.state) (i : timed input) : Legacy.state * list Z :=
  ((Legacy.step cfg s i).1, kills (Legacy.step cfg s i).2).

(** The directories that the range loop of [WatchMultiple] has in hand:
    the one being registered and those still to visit. *)
Definition pending_dirs (p : Multi.pc) : list string :=
  match p with
  | Multi.AtAdd dir rest => dir :: rest
  | Multi.AtRetryAdd _ rest => rest
  | _ => []
  end.

(** The earlier [Watch] is in its event loop. *)
Definition legacy_select (p : Legacy.pc) : bool :=
  match p with Legacy.AtSelect _ => true | _ => false end.

(** A call of the earlier [Watch] other than the signal. *)
Definition not_kill (a : Legacy.action) : Prop :=
  match a with Legacy.CallKill _ => False | _ => True end.

(** A call that is not made on a watcher. *)
Definition neutral (a : action) : Prop :=
  match a with
  | CallNewWatcher | CallAdd _ | CallClose => False
  | _ => True
  end.

(** [Watch] holds a watcher that is not closed exactly when it is
    registering the directory or in its event loop. *)
Definition single_holds (p : Single.pc) : bool :=
  match p with
  | Single.AtAdd | Single.AtSelect _ => true
  | _ => false
  end.

(** Where [WatchMultiple] cannot hold a watcher that is not closed. *)
Definition multi_may_hold (p : Multi.pc) (open : bool) : Prop :=
  match p with
  | Multi.AtAdd _ _ | Multi.AtSelect _ => True
  | _ => open = false
  end.

(** * Properties *)

Section properties.
Context `{Externals}.

(** ** Debouncing, for any loop that handles one timer as the code does *)

Lemma ascending_elem_of ts : ∀ from x,
  ascending from ts → x ∈ ts → from ≤ x.
Proof.
  induction ts as [|t ts IH]; intros from x Hasc Hin.
  - apply elem_of_nil in Hin. destruct Hin.
  - destruct Hasc as [Hle Hasc].
    apply elem_of_cons in Hin as [->|Hin]; [exact Hle|].
    specialize (IH t x Hasc Hin). lia.
Qed.

Lemma times_of_subseteq pick ins x : x ∈ times_of pick ins → x ∈ ins.*1.
Proof.
  unfold times_of. intros (i & -> & Hin)%list_elem_of_fmap.
  apply list_elem_of_filter in Hin as [_ Hin].
  apply list_elem_of_fmap. eauto.
Qed.

Lemma times_of_cons pick t inp ins :
  times_of pick ((t, inp) :: ins)
  = if pick inp then t :: times_of pick ins else times_of pick ins.
Proof.
  unfold times_of. rewrite filter_cons. simpl.
  destruct (pick inp); simpl; reflexivity.
Qed.

Lemma settle_cons d timer t ts :
  settle d timer (t :: ts) = settle d (Some (t + d)) ts.
Proof.
  unfold settle. destruct ts as [|t2 ts]; [reflexivity|].
  rewrite last_cons_cons. destruct (last (t2 :: ts)) eqn:Hl; [reflexivity|].
  apply last_None in Hl. discriminate.
Qed.

Lemma fired_not_due ok incl t w :
  due incl t w = false → fired ok incl t (Some w) = [].
Proof. intros Hd. unfold fired. rewrite Hd, andb_false_r. reflexivity. Qed.

Lemma remaining_not_due ok incl t w :
  due incl t w = false → remaining ok incl t (Some w) = Some w.
Proof. intros Hd. unfold remaining. rewrite Hd, andb_false_r. reflexivity. Qed.

Lemma due_le incl t w : due incl t w = true → w ≤ t.
Proof. destruct incl; simpl; intros Hd; lia. Qed.

Section debounce.
Context {S : Type}.
Variables (stepf : S → timed input → S * list Z).
Variables (nowf : S → Z) (timer : S → option Z) (watching : S → Prop).
Variables (pick : input → bool) (d T : Z).

Hypothesis d_positive : 0 < d.
Hypothesis pick_not_tick : ∀ i, pick i = true → is_tick i = false.
Hypothesis step_watching : ∀ s i,
  watching s → ends_session i.2 = false →
  watching (stepf s i).1
  ∧ nowf (stepf s i).1 = Z.max (nowf s) i.1
  ∧ (stepf s i).2 = fired true (is_tick i.2) (Z.max (nowf s) i.1) (timer s)
  ∧ timer (stepf s i).1
    = if pick i.2 then Some (timer_when (Z.max (nowf s) i.1) d)
      else remaining true (is_tick i.2) (Z.max (nowf s) i.1) (timer s).

(** The events of a burst re-arm the timer before it expires, so that the
    one invocation comes the settle delay after the last of them. *)
Lemma burst_settles ins : ∀ s,
  watching s →
  stays_open ins →
  ascending (nowf s) (ins.*1 ++ [T]) →
  within d (times_of pick ins) →
  (∀ w t1, timer s = Some w → head (times_of pick ins) = Some t1 → t1 < w) →
  (∀ x, settle d (timer s) (times_of pick ins) = Some x → x ≤ T) →
  (iterate stepf s (ins ++ [(T, Tick)])).2
  = option_list (settle d (timer s) (times_of pick ins)).
Proof.
  induction ins as [|[t inp] ins IH]; intros s Hw Hopen Hasc Hwithin Hchain Hfin.
  - simpl in *. destruct Hasc as [Hle _].
    destruct (step_watching s (T, Tick) Hw eq_refl) as (_ & _ & Hout & _).
    destruct (stepf s (T, Tick)) as [s1 out1]. simpl in *.
    rewrite app_nil_r, Hout, Z.max_r by exact Hle.
    unfold settle. simpl. destruct (timer s) as [w|] eqn:Htm; [|reflexivity].
    simpl. specialize (Hfin w eq_refl).
    rewrite (proj2 (Z.leb_le w T)) by exact Hfin. reflexivity.
  - apply Forall_cons in Hopen as [Hend Hopen]. cbn [snd] in Hend.
    rewrite fmap_cons in Hasc. cbn [fst app ascending] in Hasc.
    destruct Hasc as [Hle Hasc].
    destruct (step_watching s (t, inp) Hw Hend) as (Hw1 & Hn1 & Hout & Htm1).
    cbn [fst snd] in Hn1, Hout, Htm1.
    rewrite Z.max_r in Hn1, Hout, Htm1 by exact Hle.
    cbn [app iterate]. destruct (stepf s (t, inp)) as [s1 out1].
    cbn [fst snd] in Hw1, Hn1, Hout, Htm1.
    specialize (IH s1 Hw1 Hopen).
    rewrite Hn1 in IH. specialize (IH Hasc).
    destruct (iterate stepf s1 (ins ++ [(T, Tick)])) as [s2 out2].
    cbn [fst snd] in IH |- *.
    rewrite times_of_cons in Hwithin, Hchain, Hfin |- *.
    set (ts := times_of pick ins) in *.
    destruct (pick inp) eqn:Hp.
    + rewrite (pick_not_tick _ Hp) in Hout.
      cbn [within] in Hwithin. destruct Hwithin as [Hgap Hwithin].
      assert (Ho1 : out1 = []).
      { rewrite Hout. destruct (timer s) as [w|]; [|reflexivity].
        apply fired_not_due. simpl. apply Z.ltb_ge.
        specialize (Hchain w t eq_refl eq_refl). lia. }
      assert (Hwhen : timer_when t d = t + d).
      { unfold timer_when. rewrite Z.max_r by lia. reflexivity. }
      rewrite Ho1, settle_cons. cbn [app].
      rewrite Htm1, Hwhen in IH. apply IH.
      * exact Hwithin.
      * intros w t1 Hw' Ht1. inversion Hw'; subst w.
        destruct ts as [|t2 ts']; [discriminate|].
        simpl in Ht1. inversion Ht1; subst t2. lia.
      * intros x Hx. apply Hfin. rewrite settle_cons. exact Hx.
    + destruct (timer s) as [w|] eqn:Htm.
      * destruct (due (is_tick inp) t w) eqn:Hd.
        -- assert (Hnil : ts = []).
           { destruct ts as [|t1 ts'] eqn:Hts; [reflexivity|].
             specialize (Hchain w t1 eq_refl eq_refl).
             assert (t ≤ t1).
             { apply (ascending_elem_of (ins.*1 ++ [T])); [exact Hasc|].
               apply elem_of_app. left.
               apply (times_of_subseteq pick). fold ts. rewrite Hts. left. }
             apply due_le in Hd. lia. }
           rewrite Hnil in *. unfold settle in *. cbn [last option_list] in *.
           unfold remaining, fired in Hout, Htm1. rewrite Hd in Hout, Htm1.
           cbn [andb] in Hout, Htm1.
           rewrite Htm1 in IH. cbn [option_list option_rect] in IH |- *.
           rewrite Hout, IH; [reflexivity|exact I| |].
           ++ intros w' t1 Hw'. discriminate.
           ++ intros x Hx. discriminate.
        -- rewrite (fired_not_due _ _ _ _ Hd) in Hout.
           rewrite (remaining_not_due _ _ _ _ Hd) in Htm1.
           rewrite Hout. cbn [app]. rewrite Htm1 in IH. apply IH; assumption.
      * cbn [fired remaining] in Hout, Htm1. rewrite Hout. cbn [app].
        rewrite Htm1 in IH. apply IH; assumption.
Qed.

End debounce.

(** ** Validation and defaults *)

Lemma single_defaults_OnChange cfg :
  Single.OnChange (Single.with_defaults cfg) = Single.OnChange cfg.
Proof. unfold Single.with_defaults. repeat case_match; reflexivity. Qed.

Lemma multi_defaults_OnChange cfg :
  Multi.OnChange (Multi.with_defaults cfg) = Multi.OnChange cfg.
Proof. unfold Multi.with_defaults. repeat case_match; reflexivity. Qed.

Lemma multi_defaults_TargetFiles cfg :
  Multi.TargetFiles (Multi.with_defaults cfg) = Multi.TargetFiles cfg.
Proof. unfold Multi.with_defaults. repeat case_match; reflexivity. Qed.

Lemma multi_defaults_OnEvent cfg :
  Multi.OnEvent (Multi.with_defaults cfg) = Multi.OnEvent cfg.
Proof. unfold Multi.with_defaults. repeat case_match; reflexivity. Qed.

Lemma single_defaults_idem cfg :
  Single.with_defaults (Single.with_defaults cfg) = Single.with_defaults cfg.
Proof.
  destruct cfg as [c e r f d rd]. unfold Single.with_defaults. simpl.
  destruct (d =? 0) eqn:Hd; simpl; destruct (rd =? 0) eqn:Hr; simpl;
    rewrite ?Hd, ?Hr; simpl; rewrite ?Hd, ?Hr; reflexivity.
Qed.

Lemma multi_defaults_idem cfg :
  Multi.with_defaults (Multi.with_defaults cfg) = Multi.with_defaults cfg.
Proof.
  destruct cfg as [c e r f d rd]. unfold Multi.with_defaults. simpl.
  destruct (d =? 0) eqn:Hd; simpl; destruct (rd =? 0) eqn:Hr; simpl;
    rewrite ?Hd, ?Hr; simpl; rewrite ?Hd, ?Hr; reflexivity.
Qed.

Lemma single_defaults_values cfg :
  Single.Debounce (Single.with_defaults cfg)
    = (if Single.Debounce cfg =? 0 then 3 * Second else Single.Debounce cfg)
  ∧ Single.RetryDelay (Single.with_defaults cfg)
    = (if Single.RetryDelay cfg =? 0 then 2 * Second else Single.RetryDelay cfg).
Proof.
  destruct cfg as [c e r f d rd]. unfold Single.with_defaults. simpl.
  destruct (d =? 0); simpl; destruct (rd =? 0); simpl; split; reflexivity.
Qed.

Lemma multi_defaults_values cfg :
  Multi.Debounce (Multi.with_defaults cfg)
    = (if Multi.Debounce cfg =? 0 then 3 * Second else Multi.Debounce cfg)
  ∧ Multi.RetryDelay (Multi.with_defaults cfg)
    = (if Multi.RetryDelay cfg =? 0 then 2 * Second else Multi.RetryDelay cfg).
Proof.
  destruct cfg as [c e r f d rd]. unfold Multi.with_defaults. simpl.
  destruct (d =? 0); simpl; destruct (rd =? 0); simpl; split; reflexivity.
Qed.

(** C7: in [Watch] and in [WatchMultiple] a settle delay of zero becomes
    three seconds and a retry delay of zero two seconds, any other value is
    kept; the substitution is made once, before the session loop, and the
    loop runs on the substituted configuration, which is never changed
    again (substituting a second time would change nothing either). *)
Theorem C7_defaults_applied_once_at_validation :
  (∀ cfg,
     Single.Debounce (Single.with_defaults cfg)
       = (if Single.Debounce cfg =? 0 then 3 * Second else Single.Debounce cfg)
     ∧ Single.RetryDelay (Single.with_defaults cfg)
       = (if Single.RetryDelay cfg =? 0 then 2 * Second else Single.RetryDelay cfg)
     ∧ Single.with_defaults (Single.with_defaults cfg) = Single.with_defaults cfg
     ∧ ∀ ins,
         Single.Watch cfg ins
         = if negb (Single.OnChange cfg)
           then (Single.returned (errors_New "OnChange callback must be set"), [])
           else Single.session_loop (Single.with_defaults cfg) ins)
  ∧ (∀ cfg,
     Multi.Debounce (Multi.with_defaults cfg)
       = (if Multi.Debounce cfg =? 0 then 3 * Second else Multi.Debounce cfg)
     ∧ Multi.RetryDelay (Multi.with_defaults cfg)
       = (if Multi.RetryDelay cfg =? 0 then 2 * Second else Multi.RetryDelay cfg)
     ∧ Multi.with_defaults (Multi.with_defaults cfg) = Multi.with_defaults cfg
     ∧ ∀ ins,
         Multi.WatchMultiple cfg ins
         = if negb (Multi.OnChange cfg)
           then (Multi.returned (errors_New "OnChange callback must be set"), [])
           else if (length (Multi.TargetFiles cfg) =? 0)%nat
           then (Multi.returned
                   (errors_New "at least one target file must be specified"), [])
           else
             let dirToFiles := Multi.group_by_dir (Multi.TargetFiles cfg) in
             let '(s, out) :=
               Multi.session_loop (Multi.with_defaults cfg) dirToFiles ins in
             (s,
              call_if (Multi.OnEvent cfg) 0
                (CallOnEvent
                   ("watching " +:+ pretty (length (Multi.TargetFiles cfg))
                      +:+ " files across " +:+ pretty (size dirToFiles)
                      +:+ " directories"))
                ++ out)).
Proof.
  split; intros cfg.
  - destruct (single_defaults_values cfg) as [Hd Hr].
    repeat split; [exact Hd | exact Hr | apply single_defaults_idem |].
    intros ins. unfold Single.Watch.
    rewrite single_defaults_OnChange. reflexivity.
  - destruct (multi_defaults_values cfg) as [Hd Hr].
    repeat split; [exact Hd | exact Hr | apply multi_defaults_idem |].
    intros ins. unfold Multi.WatchMultiple.
    rewrite multi_defaults_OnChange, multi_defaults_TargetFiles,
      multi_defaults_OnEvent.
    reflexivity.
Qed.

(** C4: without a change callback ([Watch], [WatchMultiple]) or without a
    target ([WatchMultiple]) the function returns its configuration error
    at once: the trace is empty, so no watcher was created and neither the
    event nor the error callback was invoked, whatever the environment
    would have supplied. *)
Theorem C4_configuration_error_before_any_session :
  (∀ cfg ins,
     Single.OnChange cfg = false →
     Single.at_pc (Single.Watch cfg ins).1
       = Single.Returned (errors_New "OnChange callback must be set")
     ∧ (Single.Watch cfg ins).2 = [])
  ∧ (∀ cfg ins,
     Multi.OnChange cfg = false →
     Multi.at_pc (Multi.WatchMultiple cfg ins).1
       = Multi.Returned (errors_New "OnChange callback must be set")
     ∧ (Multi.WatchMultiple cfg ins).2 = [])
  ∧ (∀ cfg ins,
     Multi.OnChange cfg = true →
     Multi.TargetFiles cfg = [] →
     Multi.at_pc (Multi.WatchMultiple cfg ins).1
       = Multi.Returned (errors_New "at least one target file must be specified")
     ∧ (Multi.WatchMultiple cfg ins).2 = []).
Proof.
  split; [| split].
  - intros cfg ins Hc. unfold Single.Watch.
    rewrite single_defaults_OnChange, Hc. split; reflexivity.
  - intros cfg ins Hc. unfold Multi.WatchMultiple.
    rewrite multi_defaults_OnChange, Hc. split; reflexivity.
  - intros cfg ins Hc Hf. unfold Multi.WatchMultiple.
    rewrite multi_defaults_OnChange, multi_defaults_TargetFiles, Hc, Hf.
    split; reflexivity.
Qed.

(** ** What the functions return *)

Lemma single_step_running cfg s i :
  single_running (Single.at_pc s) → Single.step cfg s i = Single.advance cfg s i.
Proof. unfold Single.step. destruct (Single.at_pc s); [reflexivity..|intros []]. Qed.

Lemma multi_step_running cfg dtf s i :
  multi_running (Multi.at_pc s) →
  Multi.step cfg dtf s i = Multi.advance cfg dtf s i.
Proof. unfold Multi.step. destruct (Multi.at_pc s); [reflexivity..|intros []]. Qed.

Lemma single_elapse_running cfg incl t p :
  single_running p → single_running (Single.elapse cfg incl t p).1.
Proof.
  destruct p as [| |w|[w|]|e]; simpl; intros Hp; try exact I;
    try (destruct (due incl t w); exact I).
  exact Hp.
Qed.

Lemma single_react_returned cfg t p st i p' st' out e :
  single_running p →
  Single.react cfg t p st i = (p', st', out) →
  p' = Single.Returned e →
  ∃ c, i = CtxDone c ∧ e = ctx_Err c.
Proof.
  intros Hp Hr ->.
  destruct p as [| |w|db|e0]; [| | | |destruct Hp];
    destruct i as [[r|]|[r|]|c|ev|oe|]; simpl in Hr;
    try (destruct (Single.relevant cfg ev));
    inversion Hr; subst; eauto.
Qed.

Lemma single_step_returned cfg s i e :
  single_running (Single.at_pc s) →
  Single.at_pc (Single.step cfg s i).1 = Single.Returned e →
  ∃ c, i.2 = CtxDone c ∧ e = ctx_Err c.
Proof.
  intros Hp. rewrite (single_step_running _ _ _ Hp). unfold Single.advance.
  pose proof (single_elapse_running cfg (is_tick i.2) (Z.max (Single.now s) i.1)
                _ Hp) as He.
  destruct (Single.elapse _ _ _ _) as [p1 out1] eqn:Hel.
  destruct (Single.react _ _ _ _ _) as [[p2 st2] out2] eqn:Hre.
  simpl. intros Hret.
  eapply single_react_returned; [exact He | exact Hre | exact Hret].
Qed.

Lemma single_step_stays_returned cfg s i e :
  Single.at_pc s = Single.Returned e → Single.step cfg s i = (s, []).
Proof. intros Hs. unfold Single.step. rewrite Hs. reflexivity. Qed.

Lemma single_run_stays_returned cfg s ins e :
  Single.at_pc s = Single.Returned e → Single.run cfg s ins = (s, []).
Proof.
  intros Hs. induction ins as [|i ins IH]; [reflexivity|].
  simpl. rewrite (single_step_stays_returned _ _ _ _ Hs), IH. reflexivity.
Qed.

Lemma single_run_returned cfg ins : ∀ s e,
  single_running (Single.at_pc s) →
  Single.at_pc (Single.run cfg s ins).1 = Single.Returned e →
  ∃ t c, (t, CtxDone c) ∈ ins ∧ e = ctx_Err c.
Proof.
  induction ins as [|[t i] ins IH]; intros s e Hp; simpl.
  - intros Hs. rewrite Hs in Hp. destruct Hp.
  - destruct (Single.step cfg s (t, i)) as [s1 out1] eqn:Hst.
    destruct (Single.run cfg s1 ins) as [s2 out2] eqn:Hrun. simpl.
    intros Hret.
    destruct (Single.at_pc s1) as [| |w|db|e1] eqn:Hp1.
    5: {
      rewrite (single_run_stays_returned _ _ _ _ Hp1) in Hrun.
      inversion Hrun; subst s2.
      assert (e1 = e) by congruence. subst e1.
      destruct (single_step_returned cfg s (t, i) e Hp) as (c & Hi & He).
      { rewrite Hst. exact Hp1. }
      simpl in Hi. subst i. exists t, c. split; [left | exact He]. }
    all: destruct (IH s1 e) as (t' & c & Hin & He);
      [rewrite Hp1; exact I | rewrite Hrun; exact Hret |];
      exists t', c; split; [right; exact Hin | exact He].
Qed.

Lemma multi_elapse_running cfg incl t p :
  multi_running p → multi_running (Multi.elapse cfg incl t p).1.
Proof.
  destruct p as [|d rest|w|w rest|tm|e]; simpl; intros Hp; try exact I.
  - destruct (due incl t w); exact I.
  - destruct (due incl t w); [destruct rest|]; exact I.
  - destruct (foldl _ _ _); exact I.
  - exact Hp.
Qed.

Lemma multi_react_returned cfg dtf t p st n i p' st' n' out e :
  multi_running p →
  Multi.react cfg dtf t p st n i = (p', st', n', out) →
  p' = Multi.Returned e →
  ∃ c, i = CtxDone c ∧ e = ctx_Err c.
Proof.
  intros Hp Hr ->.
  destruct p as [|d rest|w|w rest|tm|e0]; [| | | | |destruct Hp];
    destruct i as [[r|]|[r|]|c|ev|oe|]; simpl in Hr;
    try (destruct (Multi.range_next _ _) as [p0 o0] eqn:Hrn;
         unfold Multi.range_next in Hrn;
         match type of Hrn with
         | match ?l with _ => _ end = _ => destruct l
         end; inversion Hrn; subst);
    try (destruct (Multi.on_event _ _ _ _ _));
    inversion Hr; subst; eauto.
Qed.

Lemma multi_step_returned cfg dtf s i e :
  multi_running (Multi.at_pc s) →
  Multi.at_pc (Multi.step cfg dtf s i).1 = Multi.Returned e →
  ∃ c, i.2 = CtxDone c ∧ e = ctx_Err c.
Proof.
  intros Hp. rewrite (multi_step_running _ _ _ _ Hp). unfold Multi.advance.
  pose proof (multi_elapse_running cfg (is_tick i.2) (Z.max (Multi.now s) i.1)
                _ Hp) as He.
  destruct (Multi.elapse _ _ _ _) as [p1 out1] eqn:Hel.
  destruct (Multi.react _ _ _ _ _ _ _) as [[[p2 st2] n2] out2] eqn:Hre.
  simpl. intros Hret.
  eapply multi_react_returned; [exact He | exact Hre | exact Hret].
Qed.

Lemma multi_step_stays_returned cfg dtf s i e :
  Multi.at_pc s = Multi.Returned e → Multi.step cfg dtf s i = (s, []).
Proof. intros Hs. unfold Multi.step. rewrite Hs. reflexivity. Qed.

Lemma multi_run_stays_returned cfg dtf s ins e :
  Multi.at_pc s = Multi.Returned e → Multi.run cfg dtf s ins = (s, []).
Proof.
  intros Hs. induction ins as [|i ins IH]; [reflexivity|].
  simpl. rewrite (multi_step_stays_returned _ _ _ _ _ Hs), IH. reflexivity.
Qed.

Lemma multi_run_returned cfg dtf ins : ∀ s e,
  multi_running (Multi.at_pc s) →
  Multi.at_pc (Multi.run cfg dtf s ins).1 = Multi.Returned e →
  ∃ t c, (t, CtxDone c) ∈ ins ∧ e = ctx_Err c.
Proof.
  induction ins as [|[t i] ins IH]; intros s e Hp; simpl.
  - intros Hs. rewrite Hs in Hp. destruct Hp.
  - destruct (Multi.step cfg dtf s (t, i)) as [s1 out1] eqn:Hst.
    destruct (Multi.run cfg dtf s1 ins) as [s2 out2] eqn:Hrun. simpl.
    intros Hret.
    destruct (Multi.at_pc s1) as [|d rest|w|w rest|tm|e1] eqn:Hp1.
    6: {
      rewrite (multi_run_stays_returned _ _ _ _ _ Hp1) in Hrun.
      inversion Hrun; subst s2.
      assert (e1 = e) by congruence. subst e1.
      destruct (multi_step_returned cfg dtf s (t, i) e Hp) as (c & Hi & He).
      { rewrite Hst. exact Hp1. }
      simpl in Hi. subst i. exists t, c. split; [left | exact He]. }
    all: destruct (IH s1 e) as (t' & c & Hin & He);
      [rewrite Hp1; exact I | rewrite Hrun; exact Hret |];
      exists t', c; split; [right; exact Hin | exact He].
Qed.

(** ** The target filter *)

Lemma op_relevant_spec op :
  op_relevant op = true
  ↔ ∃ o, o ∈ [Write; Create; Rename; Remove] ∧ Z.land op o ≠ 0.
Proof.
  unfold op_relevant.
  rewrite !orb_true_iff, !negb_true_iff, !Z.eqb_neq. split.
  - intros [[[Hw|Hc]|Hr]|Hr]; eexists; (split; [|eassumption]);
      repeat first [apply list_elem_of_here | apply list_elem_of_further].
  - intros (o & Ho & Hne).
    repeat (apply elem_of_cons in Ho as [->|Ho]); auto.
    apply elem_of_nil in Ho. destruct Ho.
Qed.

Lemma single_relevant_spec cfg ev :
  Single.relevant cfg ev = true ↔ relevant_event [Single.TargetFile cfg] ev.
Proof.
  unfold Single.relevant, relevant_event.
  rewrite andb_true_iff, String.eqb_eq, op_relevant_spec, list_elem_of_singleton.
  reflexivity.
Qed.

Lemma multi_on_event_spec cfg t ev targets tm :
  Multi.on_event cfg t ev targets tm
  = if bool_decide (Name ev ∈ targets) && op_relevant (Op ev)
    then Multi.on_relevant cfg t ev (Name ev) tm
    else (tm, []).
Proof.
  induction targets as [|f targets IH]; simpl.
  - reflexivity.
  - unfold Multi.matches. destruct (String.eqb_spec (Name ev) f) as [<-|Hne]; simpl.
    + rewrite bool_decide_eq_true_2 by apply list_elem_of_here. simpl.
      destruct (op_relevant (Op ev)); [reflexivity|].
      rewrite IH, andb_false_r. reflexivity.
    + rewrite IH.
      replace (bool_decide (Name ev ∈ f :: targets))
        with (bool_decide (Name ev ∈ targets)); [reflexivity|].
      apply bool_decide_ext. rewrite elem_of_cons. intuition congruence.
Qed.

Lemma multi_relevant_spec targets ev :
  bool_decide (Name ev ∈ targets) && op_relevant (Op ev) = true
  ↔ relevant_event targets ev.
Proof.
  unfold relevant_event.
  rewrite andb_true_iff, bool_decide_eq_true, op_relevant_spec. reflexivity.
Qed.

(** C5: on an event received in the select, the bookkeeping (one event
    notification, and the timer of the path armed anew for the settle
    delay) is done when the path of the event is one of the targets and its
    operation set meets write, create, rename, remove; in every other case
    nothing is invoked and the timers are as they were.  The test the code
    makes is exactly that condition. *)
Theorem C5_bookkeeping_iff_exact_path_and_relevant_operation :
  (∀ cfg t db st ev,
     (Single.relevant cfg ev = true ↔ relevant_event [Single.TargetFile cfg] ev)
     ∧ (relevant_event [Single.TargetFile cfg] ev →
        Single.react cfg t (Single.AtSelect db) st (RecvEvent ev)
        = (Single.AtSelect (Some (t + Z.max 0 (Single.Debounce cfg))), st,
           call_if (Single.OnEvent cfg) t
             (CallOnEvent ("change detected: " +:+ Event_String ev))))
     ∧ (¬ relevant_event [Single.TargetFile cfg] ev →
        Single.react cfg t (Single.AtSelect db) st (RecvEvent ev)
        = (Single.AtSelect db, st, [])))
  ∧ (∀ cfg dirToFiles t tm st n ev,
     (relevant_event (Multi.TargetFiles cfg) ev →
        Multi.react cfg dirToFiles t (Multi.AtSelect tm) st n (RecvEvent ev)
        = (Multi.AtSelect (<[Name ev := t + Z.max 0 (Multi.Debounce cfg)]> tm),
           st, n,
           call_if (Multi.OnEvent cfg) t
             (CallOnEvent ("change detected: " +:+ Event_String ev))))
     ∧ (¬ relevant_event (Multi.TargetFiles cfg) ev →
        Multi.react cfg dirToFiles t (Multi.AtSelect tm) st n (RecvEvent ev)
        = (Multi.AtSelect tm, st, n, []))).
Proof.
  split.
  - intros cfg t db st ev. split; [apply single_relevant_spec|].
    split; intros Hrel; simpl.
    + apply single_relevant_spec in Hrel. rewrite Hrel. reflexivity.
    + destruct (Single.relevant cfg ev) eqn:Hr; [|reflexivity].
      apply single_relevant_spec in Hr. contradiction.
  - intros cfg dtf t tm st n ev. split; intros Hrel; simpl;
      rewrite multi_on_event_spec.
    + apply multi_relevant_spec in Hrel. rewrite Hrel. reflexivity.
    + destruct (bool_decide _ && _) eqn:Hr; [|reflexivity].
      apply multi_relevant_spec in Hr. contradiction.
Qed.

(** ** Errors of the watcher *)

(** What [Watch] does when a registration has failed and the retry delay
    has passed: a new watcher is created. *)
Lemma single_retry_after_failed_add cfg s t e :
  Single.at_pc s = Single.AtAdd →
  let s1 := (Single.step cfg s (t, RetAdd (Some e))).1 in
  let w := timer_when (Z.max (Single.now s) t) (Single.RetryDelay cfg) in
  Single.at_pc s1 = Single.AtRetry w
  ∧ ∀ t2, w ≤ t2 →
      (Single.step cfg s1 (t2, Tick)).2 = [(w, CallNewWatcher)]
      ∧ Single.at_pc (Single.step cfg s1 (t2, Tick)).1 = Single.AtNewWatcher.
Proof.
  intros Hpc. unfold Single.step, Single.advance. rewrite Hpc. simpl.
  split; [reflexivity|].
  intros t2 Hle. unfold timer_when in *.
  rewrite (proj2 (Z.leb_le _ _)) by lia. simpl. split; reflexivity.
Qed.

(** What [WatchMultiple] does in the same situation: the range loop goes
    on with the directories it has not visited yet, or, when there is
    none, the select of the event loop is entered; no watcher is created. *)
Lemma multi_continue_after_failed_add cfg dirToFiles s dir rest t e :
  Multi.at_pc s = Multi.AtAdd dir rest →
  let s1 := (Multi.step cfg dirToFiles s (t, RetAdd (Some e))).1 in
  let w := timer_when (Z.max (Multi.now s) t) (Multi.RetryDelay cfg) in
  Multi.at_pc s1 = Multi.AtRetryAdd w rest
  ∧ ∀ t2, w ≤ t2 →
      (Multi.step cfg dirToFiles s1 (t2, Tick)).2
        = match rest with dir' :: _ => [(w, CallAdd dir')] | [] => [] end
      ∧ Multi.at_pc (Multi.step cfg dirToFiles s1 (t2, Tick)).1
        = match rest with
          | dir' :: rest' => Multi.AtAdd dir' rest'
          | [] => Multi.AtSelect ∅
          end.
Proof.
  intros Hpc. unfold Multi.step, Multi.advance. rewrite Hpc. simpl.
  split; [reflexivity|].
  intros t2 Hle. unfold timer_when in *.
  rewrite (proj2 (Z.leb_le _ _)) by lia.
  destruct rest as [|dir' rest']; simpl; split; reflexivity.
Qed.

(** A mid-session error of the watcher, in [Watch] and in [WatchMultiple]:
    the watcher is closed and the next one is created at the same instant;
    no timer is waited for. *)
Lemma single_error_reopens_at_once cfg s db t oe :
  Single.at_pc s = Single.AtSelect db →
  let t' := Z.max (Single.now s) t in
  let r := Single.step cfg s (t, RecvError oe) in
  Single.at_pc r.1 = Single.AtNewWatcher
  ∧ ∃ out, r.2 = out ++ [(t', CallClose); (t', CallNewWatcher)].
Proof.
  intros Hpc. unfold Single.step, Single.advance. rewrite Hpc.
  destruct db as [w|]; simpl.
  - destruct (w <? _); simpl; (split; [reflexivity|]).
    + eexists. rewrite app_assoc. reflexivity.
    + eexists. reflexivity.
  - split; [reflexivity|]. eexists. reflexivity.
Qed.

Lemma multi_error_reopens_at_once cfg dirToFiles s tm t oe :
  Multi.at_pc s = Multi.AtSelect tm →
  let t' := Z.max (Multi.now s) t in
  let r := Multi.step cfg dirToFiles s (t, RecvError oe) in
  Multi.at_pc r.1 = Multi.AtNewWatcher
  ∧ ∃ out, r.2 = out ++ [(t', CallClose); (t', CallNewWatcher)].
Proof.
  intros Hpc. unfold Multi.step, Multi.advance. rewrite Hpc. simpl.
  destruct (foldl _ _ _) as [tm' out1]. simpl. split; [reflexivity|].
  eexists. rewrite app_assoc. reflexivity.
Qed.

(** ** Grouping by directory and registration *)

Lemma keys_elem_of (m : gmap string (list string)) dir :
  dir ∈ Multi.keys m ↔ is_Some (m !! dir).
Proof.
  unfold Multi.keys. rewrite list_elem_of_fmap. split.
  - intros ([k v] & -> & Hin). apply elem_of_map_to_list in Hin. eauto.
  - intros [v Hv]. exists (dir, v). split; [reflexivity|].
    apply elem_of_map_to_list. exact Hv.
Qed.

Lemma group_fold_lookup files : ∀ (m : gmap string (list string)) dir,
  is_Some (foldl (λ (dirToFiles : gmap string (list string)) file,
                    <[filepath_Dir file :=
                        default [] (dirToFiles !! filepath_Dir file) ++ [file]]>
                      dirToFiles) m files !! dir)
  ↔ is_Some (m !! dir) ∨ ∃ file, file ∈ files ∧ dir = filepath_Dir file.
Proof.
  induction files as [|f files IH]; intros m dir; simpl.
  - split; [auto|]. intros [Hm|(file & Hin & _)]; [exact Hm|].
    apply elem_of_nil in Hin. destruct Hin.
  - rewrite IH. split.
    + intros [Hm|(file & Hin & Hd)].
      * destruct (decide (filepath_Dir f = dir)) as [Heq|Hne].
        -- right. exists f. split; [left | symmetry; exact Heq].
        -- left. rewrite lookup_insert_ne in Hm by exact Hne. exact Hm.
      * right. exists file. split; [right; exact Hin | exact Hd].
    + intros [Hm|(file & Hin & Hd)].
      * left. destruct (decide (filepath_Dir f = dir)) as [Heq|Hne].
        -- rewrite Heq, lookup_insert_eq. eauto.
        -- rewrite lookup_insert_ne by exact Hne. exact Hm.
      * apply elem_of_cons in Hin as [->|Hin].
        -- left. rewrite Hd, lookup_insert_eq. eauto.
        -- right. exists file. split; [exact Hin | exact Hd].
Qed.

(** The keys of [dirToFiles] are the directories of the targets. *)
Lemma group_by_dir_keys files dir :
  dir ∈ Multi.keys (Multi.group_by_dir files)
  ↔ ∃ file, file ∈ files ∧ dir = filepath_Dir file.
Proof.
  rewrite keys_elem_of. unfold Multi.group_by_dir. rewrite group_fold_lookup.
  rewrite lookup_empty. split; [|auto].
  intros [[x Hx]|Hex]; [discriminate | exact Hex].
Qed.

Lemma added_app out1 out2 : added (out1 ++ out2) = added out1 ++ added out2.
Proof. apply omap_app. Qed.

Lemma opened_app out1 out2 : opened (out1 ++ out2) = opened out1 ++ opened out2.
Proof. unfold opened. rewrite filter_app, fmap_app. reflexivity. Qed.

Lemma added_call_if_event b t msg : added (call_if b t (CallOnEvent msg)) = [].
Proof. destruct b; reflexivity. Qed.

Lemma opened_call_if_event b t msg : opened (call_if b t (CallOnEvent msg)) = [].
Proof. destruct b; reflexivity. Qed.

(** The range loop when every [w.Add] succeeds: one call for each
    directory that is left, then the select. *)
Lemma multi_add_loop cfg dirToFiles rest : ∀ dir s ts,
  Multi.at_pc s = Multi.AtAdd dir rest →
  length ts = S (length rest) →
  let r := Multi.run cfg dirToFiles s ((λ t, (t, RetAdd None)) <$> ts) in
  Multi.at_pc r.1 = Multi.AtSelect ∅
  ∧ added r.2 = rest
  ∧ opened r.2 = []
  ∧ Multi.session r.1 = Multi.session s.
Proof.
  induction rest as [|dir' rest IH]; intros dir s ts Hpc Hlen;
    (destruct ts as [|t ts]; [discriminate|]); simpl in Hlen.
  - destruct ts; [|discriminate]. simpl.
    unfold Multi.step, Multi.advance. rewrite Hpc. simpl.
    rewrite !app_nil_r, added_call_if_event, opened_call_if_event. auto.
  - simpl.
    destruct (Multi.step cfg dirToFiles s (t, RetAdd None)) as [s1 out1] eqn:Hst.
    unfold Multi.step, Multi.advance in Hst. rewrite Hpc in Hst. simpl in Hst.
    inversion Hst; subst s1 out1; clear Hst.
    match goal with
    | |- context [Multi.run cfg dirToFiles ?s1 _] =>
        specialize (IH dir' s1 ts eq_refl ltac:(lia))
    end.
    destruct (Multi.run _ _ _ _) as [s2 out2]. simpl in *.
    destruct IH as (Hp & Ha & Ho & Hs).
    rewrite !added_app, !opened_app, added_call_if_event, opened_call_if_event.
    simpl. rewrite Ha, Ho. auto.
Qed.

(** C8: a session establishment of [WatchMultiple] in which the watcher
    is created and every [w.Add] succeeds ends in the select of the event
    loop; the directories given to [w.Add] are then exactly the directories
    ([filepath.Dir]) of the targets, each of them once, however many
    targets share it and in whichever order the map is walked. *)
Theorem C8_each_directory_registered_exactly_once cfg s t0 ts :
  Multi.at_pc s = Multi.AtNewWatcher →
  length ts = size (Multi.group_by_dir (Multi.TargetFiles cfg)) →
  let r := Multi.run cfg (Multi.group_by_dir (Multi.TargetFiles cfg)) s
             ((t0, RetNewWatcher None) :: ((λ t, (t, RetAdd None)) <$> ts)) in
  Multi.at_pc r.1 = Multi.AtSelect ∅
  ∧ opened r.2 = []
  ∧ NoDup (added r.2)
  ∧ ∀ dir, dir ∈ added r.2
           ↔ ∃ file, file ∈ Multi.TargetFiles cfg ∧ dir = filepath_Dir file.
Proof.
  intros Hpc Hlen.
  set (dtf := Multi.group_by_dir (Multi.TargetFiles cfg)) in *.
  assert (Hperm : map_range (Multi.session s) (Multi.keys dtf) ≡ₚ Multi.keys dtf)
    by apply map_range_perm.
  assert (Hlen' : length (map_range (Multi.session s) (Multi.keys dtf)) = length ts).
  { rewrite Hperm. unfold Multi.keys. rewrite length_fmap, length_map_to_list.
    symmetry. exact Hlen. }
  assert (Hgoal : ∀ l : list string, l ≡ₚ Multi.keys dtf →
            NoDup l ∧ ∀ dir, dir ∈ l
              ↔ ∃ file, file ∈ Multi.TargetFiles cfg ∧ dir = filepath_Dir file).
  { intros l Hl. split.
    - rewrite Hl. apply NoDup_fst_map_to_list.
    - intros dir. rewrite Hl. apply group_by_dir_keys. }
  simpl.
  destruct (Multi.step cfg dtf s (t0, RetNewWatcher None)) as [s1 out1] eqn:Hst.
  unfold Multi.step, Multi.advance in Hst. rewrite Hpc in Hst. simpl in Hst.
  destruct (map_range (Multi.session s) (Multi.keys dtf)) as [|dir rest] eqn:Hr.
  - simpl in Hst. inversion Hst; subst s1 out1; clear Hst.
    destruct ts; [|discriminate]. simpl.
    split; [reflexivity|]. split; [reflexivity|]. apply Hgoal. exact Hperm.
  - simpl in Hst. inversion Hst; subst s1 out1; clear Hst.
    match goal with
    | |- context [Multi.run cfg dtf ?s1 _] =>
        pose proof (multi_add_loop cfg dtf rest dir s1 ts eq_refl
                      ltac:(simpl in Hlen'; lia)) as Hloop
    end.
    destruct (Multi.run _ _ _ _) as [s2 out2]. simpl in *.
    destruct Hloop as (Hp & Ha & Ho & _).
    split; [exact Hp|]. split.
    + change (opened ([(Multi.now s `max` t0, CallAdd dir)] ++ out2) = []).
      rewrite opened_app, Ho. reflexivity.
    + rewrite Ha. apply Hgoal. exact Hperm.
Qed.

(** ** Expiry of the timers of [WatchMultiple] *)

Lemma expired_elem_of incl t (tm : gmap string Z) f w :
  (f, w) ∈ Multi.expired incl t tm ↔ tm !! f = Some w ∧ due incl t w = true.
Proof.
  unfold Multi.expired. rewrite merge_sort_Permutation, list_elem_of_filter.
  rewrite elem_of_map_to_list. simpl. tauto.
Qed.

Lemma expired_NoDup incl t (tm : gmap string Z) :
  NoDup (Multi.expired incl t tm).*1.
Proof.
  unfold Multi.expired. rewrite merge_sort_Permutation.
  apply (sublist_NoDup _ (map_to_list tm).*1); [apply NoDup_fst_map_to_list|].
  apply fmap_sublist, sublist_filter.
Qed.

Lemma filter_key_absent (l : list (string * Z)) f :
  f ∉ l.*1 → filter (λ p, p.1 = f) l = [].
Proof.
  induction l as [|[g w] l IH]; intros Hnot; [reflexivity|].
  rewrite fmap_cons, not_elem_of_cons in Hnot. destruct Hnot as [Hne Hnot].
  simpl in Hne.
  rewrite filter_cons_False by (simpl; congruence). apply IH, Hnot.
Qed.

Lemma filter_key_NoDup (l : list (string * Z)) f w :
  NoDup l.*1 → (f, w) ∈ l → (filter (λ p, p.1 = f) l).*2 = [w].
Proof.
  induction l as [|[g v] l IH]; intros Hnd Hin.
  - apply elem_of_nil in Hin. destruct Hin.
  - rewrite fmap_cons in Hnd. apply NoDup_cons in Hnd as [Hnot Hnd].
    apply elem_of_cons in Hin as [Heq|Hin].
    + inversion Heq; subst g v.
      rewrite filter_cons_True by reflexivity.
      rewrite (filter_key_absent l f Hnot). reflexivity.
    + assert (g ≠ f).
      { intros ->. apply Hnot. apply list_elem_of_fmap. exists (f, w). auto. }
      rewrite filter_cons_False by (simpl; congruence). apply IH; assumption.
Qed.

Lemma changes_of_app f out1 out2 :
  changes_of f (out1 ++ out2) = changes_of f out1 ++ changes_of f out2.
Proof. unfold changes_of. rewrite filter_app, fmap_app. reflexivity. Qed.

Lemma changes_of_call_if f b t a :
  a ≠ CallOnChangeFile f → changes_of f (call_if b t a) = [].
Proof.
  intros Hne. destruct b; [|reflexivity]. unfold changes_of, call_if.
  rewrite filter_cons_False by exact Hne. reflexivity.
Qed.

Lemma changes_of_deliver_one cfg f w g :
  changes_of f (Multi.deliver cfg w [g]) = if decide (g = f) then [w] else [].
Proof.
  simpl. rewrite changes_of_app, changes_of_call_if by discriminate. simpl.
  unfold changes_of. destruct (decide (g = f)) as [->|Hne].
  - rewrite filter_cons_True by reflexivity. reflexivity.
  - rewrite filter_cons_False by (simpl; congruence). reflexivity.
Qed.

Lemma expire_open_closed cfg l : ∀ tm out,
  can_send cfg = false → foldl (Multi.expire_open cfg) (tm, out) l = (tm, out).
Proof.
  induction l as [|[g w] l IH]; intros tm out Hc; [reflexivity|].
  assert (Hstep : Multi.expire_open cfg (tm, out) (g, w) = (tm, out)).
  { unfold Multi.expire_open, Multi.timer_callback. unfold can_send in Hc.
    simpl. rewrite Hc. simpl. rewrite app_nil_r. reflexivity. }
  simpl foldl. rewrite Hstep. apply IH. exact Hc.
Qed.

Lemma expire_open_fold cfg l : ∀ tm out,
  can_send cfg = true →
  NoDup l.*1 →
  (∀ f, (foldl (Multi.expire_open cfg) (tm, out) l).1 !! f
        = if bool_decide (f ∈ l.*1) then None else tm !! f)
  ∧ (∀ f, changes_of f (foldl (Multi.expire_open cfg) (tm, out) l).2
          = changes_of f out ++ (filter (λ p, p.1 = f) l).*2).
Proof.
  induction l as [|[g w] l IH]; intros tm out Hc Hnd.
  - simpl. split; intros f; [reflexivity | rewrite app_nil_r; reflexivity].
  - rewrite fmap_cons in Hnd. apply NoDup_cons in Hnd as [Hnot Hnd].
    assert (Hstep : Multi.expire_open cfg (tm, out) (g, w)
                    = (delete g tm, out ++ Multi.deliver cfg w [g])).
    { unfold Multi.expire_open, Multi.timer_callback. unfold can_send in Hc.
      simpl. rewrite Hc. reflexivity. }
    simpl foldl. rewrite Hstep.
    destruct (IH (delete g tm) (out ++ Multi.deliver cfg w [g]) Hc Hnd)
      as [Hl Ho].
    split; intros f.
    + rewrite Hl. rewrite fmap_cons. simpl.
      destruct (decide (g = f)) as [->|Hne].
      * rewrite (bool_decide_eq_true_2 (f ∈ f :: l.*1)) by apply list_elem_of_here.
        rewrite lookup_delete_eq. destruct (bool_decide _); reflexivity.
      * rewrite lookup_delete_ne by exact Hne.
        replace (bool_decide (f ∈ g :: l.*1)) with (bool_decide (f ∈ l.*1));
          [reflexivity|].
        apply bool_decide_ext. rewrite elem_of_cons. intuition congruence.
    + rewrite Ho, changes_of_app, changes_of_deliver_one, <- app_assoc. f_equal.
      destruct (decide (g = f)) as [->|Hne].
      * rewrite filter_cons_True by reflexivity. reflexivity.
      * rewrite filter_cons_False by (simpl; congruence). reflexivity.
Qed.

(** What the passing of time does to the open session: the timers that
    have expired are gone and each of them gave one invocation of the
    change callback, at its expiry instant. *)
Lemma multi_elapse_select cfg incl t tm :
  ∃ tm' out,
    Multi.elapse cfg incl t (Multi.AtSelect tm) = (Multi.AtSelect tm', out)
    ∧ (∀ f, tm' !! f = remaining (can_send cfg) incl t (tm !! f))
    ∧ (∀ f, changes_of f out = fired (can_send cfg) incl t (tm !! f)).
Proof.
  simpl.
  destruct (foldl _ _ _) as [tm' out] eqn:Hfold.
  exists tm', out. split; [reflexivity|]. unfold remaining, fired.
  destruct (can_send cfg) eqn:Hc.
  - destruct (expire_open_fold cfg (Multi.expired incl t tm) tm [] Hc
                (expired_NoDup incl t tm)) as [Hl Ho].
    rewrite Hfold in Hl, Ho. simpl in Hl, Ho.
    split; intros f.
    + rewrite Hl. destruct (tm !! f) as [w|] eqn:Hf.
      * simpl. destruct (due incl t w) eqn:Hd.
        -- rewrite bool_decide_eq_true_2; [reflexivity|].
           apply list_elem_of_fmap. exists (f, w). split; [reflexivity|].
           apply expired_elem_of. auto.
        -- rewrite bool_decide_eq_false_2; [reflexivity|].
           intros ([g v] & Hg & Hin)%list_elem_of_fmap. simpl in Hg. subst g.
           apply expired_elem_of in Hin as [Hv Hdv]. congruence.
      * destruct (bool_decide _); reflexivity.
    + rewrite Ho. destruct (tm !! f) as [w|] eqn:Hf.
      * simpl. destruct (due incl t w) eqn:Hd.
        -- apply filter_key_NoDup; [apply expired_NoDup|].
           apply expired_elem_of. auto.
        -- rewrite filter_key_absent; [reflexivity|].
           intros ([g v] & Hg & Hin)%list_elem_of_fmap. simpl in Hg. subst g.
           apply expired_elem_of in Hin as [Hv Hdv]. congruence.
      * rewrite filter_key_absent; [reflexivity|].
        intros ([g v] & Hg & Hin)%list_elem_of_fmap. simpl in Hg. subst g.
        apply expired_elem_of in Hin as [Hv Hdv]. congruence.
  - rewrite expire_open_closed in Hfold by exact Hc.
    inversion Hfold; subst tm' out. simpl.
    split; intros f; destruct (tm !! f); reflexivity.
Qed.

(** ** One step of [WatchMultiple], seen from one target *)

Lemma multi_elapse_armed cfg incl t p f :
  armed f (Multi.elapse cfg incl t p).1 = remaining (can_send cfg) incl t (armed f p)
  ∧ changes_of f (Multi.elapse cfg incl t p).2 = fired (can_send cfg) incl t (armed f p).
Proof.
  destruct p as [|d rest|w|w rest|tm|e]; try (split; reflexivity).
  - simpl. destruct (due incl t w); split; reflexivity.
  - simpl. destruct (due incl t w); [destruct rest|]; split; reflexivity.
  - destruct (multi_elapse_select cfg incl t tm) as (tm' & out & -> & Hl & Ho).
    simpl. split; [apply Hl | apply Ho].
Qed.

Lemma multi_elapse_in_select cfg incl t tm :
  in_select (Multi.elapse cfg incl t (Multi.AtSelect tm)).1 = true.
Proof.
  destruct (multi_elapse_select cfg incl t tm) as (tm' & out & -> & _).
  reflexivity.
Qed.

Lemma touches_spec cfg f ev :
  touches cfg f (RecvEvent ev) = true
  ↔ Name ev = f ∧ relevant_event (Multi.TargetFiles cfg) ev.
Proof.
  unfold touches, relevant_event.
  rewrite !andb_true_iff, !bool_decide_eq_true, op_relevant_spec.
  split.
  - intros [[<- Hin] Hop]. auto.
  - intros [<- [Hin Hop]]. auto.
Qed.

Lemma multi_on_event_armed cfg t ev tm f :
  (Multi.on_event cfg t ev (Multi.TargetFiles cfg) tm).1 !! f
  = if touches cfg f (RecvEvent ev)
    then Some (timer_when t (Multi.Debounce cfg))
    else tm !! f.
Proof.
  rewrite multi_on_event_spec. unfold touches.
  destruct (decide (Name ev = f)) as [<-|Hne].
  - rewrite (bool_decide_eq_true_2 (Name ev = Name ev)) by reflexivity. simpl.
    destruct (bool_decide _ && _); simpl; [apply lookup_insert_eq | reflexivity].
  - rewrite (bool_decide_eq_false_2 (Name ev = f)) by exact Hne. simpl.
    destruct (bool_decide _ && _); simpl;
      [apply lookup_insert_ne; exact Hne | reflexivity].
Qed.

Lemma multi_on_event_changes cfg t ev targets tm f :
  changes_of f (Multi.on_event cfg t ev targets tm).2 = [].
Proof.
  rewrite multi_on_event_spec. destruct (bool_decide _ && _); [|reflexivity].
  apply changes_of_call_if. discriminate.
Qed.

Lemma multi_react_changes cfg dtf t p st n i f :
  changes_of f (Multi.react cfg dtf t p st n i).2 = [].
Proof.
  destruct p as [|d rest|w|w rest|tm|e];
    destruct i as [[r|]|[r|]|c|ev|[r|]|]; simpl; try reflexivity;
    try (apply changes_of_call_if; discriminate).
  - destruct (map_range _ _); reflexivity.
  - rewrite changes_of_app, changes_of_call_if by discriminate. reflexivity.
  - destruct rest; simpl; rewrite changes_of_app, changes_of_call_if
      by discriminate; reflexivity.
  - pose proof (multi_on_event_changes cfg t ev (Multi.TargetFiles cfg) tm f).
    destruct (Multi.on_event _ _ _ _ _). assumption.
  - rewrite changes_of_app, changes_of_call_if by discriminate. reflexivity.
Qed.

Lemma multi_react_armed cfg dtf t p st n i f :
  armed f (Multi.react cfg dtf t p st n i).1.1.1
  = if in_select p
    then if touches cfg f i then Some (timer_when t (Multi.Debounce cfg))
         else if ends_session i then None else armed f p
    else None.
Proof.
  destruct p as [|d rest|w|w rest|tm|e];
    destruct i as [[r|]|[r|]|c|ev|[r|]|]; simpl; try reflexivity.
  - destruct (map_range _ _); reflexivity.
  - destruct rest; reflexivity.
  - pose proof (multi_on_event_armed cfg t ev tm f) as Ha.
    unfold touches in Ha.
    destruct (Multi.on_event _ _ _ _ _). exact Ha.
Qed.

(** A step of [WatchMultiple] as the target [f] sees it: the invocations
    of its change callback are those of its timer, if that expired, and its
    timer afterwards is the one a relevant event of [f] armed, or none when
    the session ended, or else what was left of the timer it had. *)
Lemma multi_step_spec cfg dtf s i f :
  multi_running (Multi.at_pc s) →
  let t := Z.max (Multi.now s) i.1 in
  let incl := is_tick i.2 in
  Multi.now (Multi.step cfg dtf s i).1 = t
  ∧ changes_of f (Multi.step cfg dtf s i).2 = fired (can_send cfg) incl t (armed f (Multi.at_pc s))
  ∧ armed f (Multi.at_pc (Multi.step cfg dtf s i).1)
    = if in_select (Multi.elapse cfg incl t (Multi.at_pc s)).1
      then if touches cfg f i.2 then Some (timer_when t (Multi.Debounce cfg))
           else if ends_session i.2 then None
           else remaining (can_send cfg) incl t (armed f (Multi.at_pc s))
      else None.
Proof.
  intros Hrun t incl. rewrite (multi_step_running _ _ _ _ Hrun).
  unfold Multi.advance.
  destruct (multi_elapse_armed cfg incl t (Multi.at_pc s) f) as [Ha Hc].
  fold t incl.
  destruct (Multi.elapse cfg incl t (Multi.at_pc s)) as [p1 out1] eqn:Hel.
  pose proof (multi_react_changes cfg dtf t p1
                (Multi.elapse_stale cfg incl t <$> Multi.stale s)
                (Multi.session s) i.2 f) as Hrc.
  pose proof (multi_react_armed cfg dtf t p1
                (Multi.elapse_stale cfg incl t <$> Multi.stale s)
                (Multi.session s) i.2 f) as Hra.
  destruct (Multi.react _ _ _ _ _ _ _) as [[[p2 st2] n2] out2].
  simpl in *.
  rewrite changes_of_app, Hrc, app_nil_r, Hc, Hra, Ha. auto.
Qed.



Lemma multi_running_or_returned p :
  multi_running p ∨ ∃ e, p = Multi.Returned e.
Proof. destruct p; simpl; eauto. Qed.

Lemma multi_in_select_running p : in_select p = true → multi_running p.
Proof. destruct p; simpl; intros; (exact I || discriminate). Qed.

Lemma multi_step_in_select cfg dtf s i :
  in_select (Multi.at_pc s) = true →
  ends_session i.2 = false →
  in_select (Multi.at_pc (Multi.step cfg dtf s i).1) = true.
Proof.
  intros Hsel Hend.
  rewrite (multi_step_running _ _ _ _ (multi_in_select_running _ Hsel)).
  unfold Multi.advance.
  destruct (Multi.at_pc s) as [| | | |tm|]; try discriminate.
  destruct (multi_elapse_select cfg (is_tick i.2) (Z.max (Multi.now s) i.1) tm)
    as (tm' & out & -> & _).
  destruct i as [t [[r|]|[r|]|c|ev|[r|]|]]; simpl in *; try discriminate;
    try reflexivity.
  destruct (Multi.on_event _ _ _ _ _). reflexivity.
Qed.

(** ** A target without a timer *)

(** While no timer is armed for [f] in the open session and no relevant
    event of [f] is received, the change callback is not invoked for [f]:
    the timers of sessions that are gone invoke nothing. *)
Lemma multi_idle_run cfg dtf f ins : ∀ s,
  armed f (Multi.at_pc s) = None →
  Forall (λ i, touches cfg f i.2 = false) ins →
  changes_of f (Multi.run cfg dtf s ins).2 = []
  ∧ armed f (Multi.at_pc (Multi.run cfg dtf s ins).1) = None.
Proof.
  induction ins as [|i ins IH]; intros s Hidle Hq; simpl.
  - auto.
  - apply Forall_cons in Hq as [Hi Hq].
    destruct (Multi.step cfg dtf s i) as [s1 out1] eqn:Hst.
    assert (H1 : changes_of f out1 = [] ∧ armed f (Multi.at_pc s1) = None).
    { destruct (multi_running_or_returned (Multi.at_pc s)) as [Hrun|[e Hpc]].
      - destruct (multi_step_spec cfg dtf s i f Hrun) as (_ & Hc & Ha).
        rewrite Hst in Hc, Ha. simpl in Hc, Ha.
        rewrite Hidle in Hc, Ha. rewrite Hi in Ha. simpl in Hc, Ha.
        split; [exact Hc|]. rewrite Ha. repeat case_match; reflexivity.
      - rewrite (multi_step_stays_returned _ _ _ _ _ Hpc) in Hst.
        inversion Hst; subst. auto. }
    destruct H1 as [Hc1 Ha1].
    destruct (IH s1 Ha1 Hq) as [Hc2 Ha2].
    destruct (Multi.run cfg dtf s1 ins) as [s2 out2]. simpl in *.
    rewrite changes_of_app, Hc1, Hc2. auto.
Qed.

(** C10: a watcher error is observed in the event loop of [WatchMultiple]
    while the timer of [f] is armed and has not expired.  The session ends
    with that timer still armed, on the map and the channel of the session
    (they are kept aside, and the next session gets new ones); a new
    watcher is created; and, unless a relevant event of [f] is received
    again, the change callback is never invoked for [f] afterwards. *)
Theorem C10_pending_timers_are_lost_on_watcher_error
    cfg dirToFiles s tm f w t oe ins :
  Multi.at_pc s = Multi.AtSelect tm →
  tm !! f = Some w →
  Z.max (Multi.now s) t ≤ w →
  Forall (λ i, touches cfg f i.2 = false) ins →
  let s1 := (Multi.step cfg dirToFiles s (t, RecvError oe)).1 in
  Multi.at_pc s1 = Multi.AtNewWatcher
  ∧ (∃ tm' st, Multi.stale s1 = (tm', []) :: st ∧ tm' !! f = Some w)
  ∧ changes_of f (Multi.run cfg dirToFiles s ((t, RecvError oe) :: ins)).2 = [].
Proof.
  intros Hpc Hf Hle Hq.
  assert (Hrun : multi_running (Multi.at_pc s)) by (rewrite Hpc; exact I).
  assert (Hnd : due false (Z.max (Multi.now s) t) w = false).
  { simpl. apply Z.ltb_ge. exact Hle. }
  assert (Hstep : ∃ tm' out st,
            Multi.step cfg dirToFiles s (t, RecvError oe)
            = ({| Multi.now := Z.max (Multi.now s) t;
                  Multi.at_pc := Multi.AtNewWatcher;
                  Multi.stale := (tm', []) :: st;
                  Multi.session := Multi.session s |}, out)
            ∧ tm' !! f = Some w ∧ changes_of f out = []).
  { rewrite (multi_step_running _ _ _ _ Hrun). unfold Multi.advance.
    rewrite Hpc. cbn [fst snd is_tick].
    destruct (multi_elapse_select cfg false (Z.max (Multi.now s) t) tm)
      as (tm' & out & Hel & Hl & Ho).
    rewrite Hel. cbn [Multi.react].
    eexists tm', _, _. split; [reflexivity|]. split.
    - rewrite Hl, Hf. apply remaining_not_due. exact Hnd.
    - rewrite changes_of_app, Ho, Hf, (fired_not_due _ _ _ _ Hnd).
      destruct oe; rewrite ?changes_of_app, ?changes_of_call_if by discriminate;
        reflexivity. }
  destruct Hstep as (tm' & out & st & Hst & Hl & Ho).
  cbn zeta. cbn [Multi.run]. rewrite Hst. cbn [fst snd Multi.at_pc Multi.stale].
  split; [reflexivity|]. split; [eauto|].
  match goal with
  | |- context [Multi.run cfg dirToFiles ?s1 ins] =>
      destruct (multi_idle_run cfg dirToFiles f ins s1 eq_refl Hq) as [Hc2 _];
      destruct (Multi.run cfg dirToFiles s1 ins) as [s2 out2]
  end.
  cbn [fst snd] in *. rewrite changes_of_app, Ho, Hc2. reflexivity.
Qed.

(** ** Targets do not interfere *)

Lemma in_select_shape p1 p2 : shape p1 = shape p2 → in_select p1 = in_select p2.
Proof. destruct p1, p2; simpl; intros Hs; try discriminate; reflexivity. Qed.

Lemma shape_elapse cfg incl t p1 p2 :
  shape p1 = shape p2 →
  shape (Multi.elapse cfg incl t p1).1 = shape (Multi.elapse cfg incl t p2).1.
Proof.
  destruct p1 as [|d1 r1|w1|w1 r1|tm1|e1], p2 as [|d2 r2|w2|w2 r2|tm2|e2];
    intros Hs; simpl in Hs; try discriminate; inversion Hs; subst;
    try reflexivity.
  destruct (multi_elapse_select cfg incl t tm1) as (tm1' & out1 & -> & _).
  destruct (multi_elapse_select cfg incl t tm2) as (tm2' & out2 & -> & _).
  reflexivity.
Qed.

Lemma shape_react cfg dtf t p1 p2 st1 st2 n i1 i2 :
  shape p1 = shape p2 →
  (i1 = i2 ∨ ∃ ev1 ev2, i1 = RecvEvent ev1 ∧ i2 = RecvEvent ev2) →
  shape (Multi.react cfg dtf t p1 st1 n i1).1.1.1
    = shape (Multi.react cfg dtf t p2 st2 n i2).1.1.1
  ∧ (Multi.react cfg dtf t p1 st1 n i1).1.2
    = (Multi.react cfg dtf t p2 st2 n i2).1.2.
Proof.
  intros Hs Hi.
  destruct p1 as [|d1 r1|w1|w1 r1|tm1|e1], p2 as [|d2 r2|w2|w2 r2|tm2|e2];
    simpl in Hs; try discriminate; inversion Hs; subst;
    (destruct Hi as [->|(ev1 & ev2 & -> & ->)];
     [destruct i2 as [[r|]|[r|]|c|ev|[r|]|] |]);
    simpl; auto;
    try (destruct (Multi.range_next _ _); auto; fail);
    try (destruct (Multi.on_event _ _ _ _ tm1), (Multi.on_event _ _ _ _ tm2);
         auto).
Qed.

Lemma same_except_touches cfg f i1 i2 :
  same_except f i1 i2 →
  i1.1 = i2.1 ∧ is_tick i1.2 = is_tick i2.2
  ∧ touches cfg f i1.2 = touches cfg f i2.2
  ∧ ends_session i1.2 = ends_session i2.2
  ∧ (i1.2 = i2.2 ∨ ∃ ev1 ev2, i1.2 = RecvEvent ev1 ∧ i2.2 = RecvEvent ev2).
Proof.
  intros [Ht [Heq|(ev1 & ev2 & H1 & H2 & Hn1 & Hn2)]].
  - rewrite Heq. repeat split; auto.
  - rewrite H1, H2. simpl.
    rewrite !(bool_decide_eq_false_2 (_ = f)) by assumption. simpl.
    repeat split; eauto.
Qed.

Lemma multi_step_shape cfg dtf s1 s2 i1 i2 :
  multi_running (Multi.at_pc s1) →
  multi_running (Multi.at_pc s2) →
  Multi.now s1 = Multi.now s2 →
  Multi.session s1 = Multi.session s2 →
  shape (Multi.at_pc s1) = shape (Multi.at_pc s2) →
  i1.1 = i2.1 →
  is_tick i1.2 = is_tick i2.2 →
  (i1.2 = i2.2 ∨ ∃ ev1 ev2, i1.2 = RecvEvent ev1 ∧ i2.2 = RecvEvent ev2) →
  shape (Multi.at_pc (Multi.step cfg dtf s1 i1).1)
    = shape (Multi.at_pc (Multi.step cfg dtf s2 i2).1)
  ∧ Multi.session (Multi.step cfg dtf s1 i1).1
    = Multi.session (Multi.step cfg dtf s2 i2).1.
Proof.
  intros Hr1 Hr2 Hnow Hses Hsh Ht Htick Hin.
  rewrite !multi_step_running by assumption. unfold Multi.advance.
  rewrite Hnow, Ht, Htick, Hses.
  pose proof (shape_elapse cfg (is_tick i2.2) (Z.max (Multi.now s2) i2.1)
                _ _ Hsh) as Hse.
  destruct (Multi.elapse cfg _ _ (Multi.at_pc s1)) as [p1 o1].
  destruct (Multi.elapse cfg _ _ (Multi.at_pc s2)) as [p2 o2].
  cbn [fst] in Hse.
  pose proof (shape_react cfg dtf (Z.max (Multi.now s2) i2.1) p1 p2
                (Multi.elapse_stale cfg (is_tick i2.2)
                   (Z.max (Multi.now s2) i2.1) <$> Multi.stale s1)
                (Multi.elapse_stale cfg (is_tick i2.2)
                   (Z.max (Multi.now s2) i2.1) <$> Multi.stale s2)
                (Multi.session s2) i1.2 i2.2 Hse Hin) as [Hsr Hnr].
  destruct (Multi.react _ _ _ p1 _ _ _) as [[[p1' st1'] n1'] o1'].
  destruct (Multi.react _ _ _ p2 _ _ _) as [[[p2' st2'] n2'] o2'].
  cbn [fst snd Multi.at_pc Multi.session] in *. auto.
Qed.

Lemma multi_step_alike cfg dtf f s1 s2 i1 i2 :
  alike f s1 s2 →
  same_except f i1 i2 →
  alike f (Multi.step cfg dtf s1 i1).1 (Multi.step cfg dtf s2 i2).1
  ∧ changes_of f (Multi.step cfg dtf s1 i1).2
    = changes_of f (Multi.step cfg dtf s2 i2).2.
Proof.
  intros (Hnow & Hses & Hsh & Harm) Hsame.
  destruct (same_except_touches cfg f i1 i2 Hsame)
    as (Ht & Htick & Htch & Hend & Hin).
  destruct (multi_running_or_returned (Multi.at_pc s1)) as [Hr1|[e He]].
  - assert (Hr2 : multi_running (Multi.at_pc s2)).
    { destruct (Multi.at_pc s1), (Multi.at_pc s2); simpl in *;
        try discriminate; try exact I. destruct Hr1. }
    destruct (multi_step_spec cfg dtf s1 i1 f Hr1) as (Hn1 & Hc1 & Ha1).
    destruct (multi_step_spec cfg dtf s2 i2 f Hr2) as (Hn2 & Hc2 & Ha2).
    destruct (multi_step_shape cfg dtf s1 s2 i1 i2 Hr1 Hr2 Hnow Hses Hsh Ht
                Htick Hin) as [Hsh' Hses'].
    pose proof (in_select_shape _ _
                  (shape_elapse cfg (is_tick i2.2) (Z.max (Multi.now s2) i2.1)
                     _ _ Hsh)) as Hsel.
    split.
    + unfold alike. split; [|split; [|split]].
      * rewrite Hn1, Hn2, Hnow, Ht. reflexivity.
      * exact Hses'.
      * exact Hsh'.
      * rewrite Ha1, Ha2, Harm, Hnow, Ht, Htick, Htch, Hend, Hsel. reflexivity.
    + rewrite Hc1, Hc2, Harm, Hnow, Ht, Htick. reflexivity.
  - assert (He2 : Multi.at_pc s2 = Multi.Returned e).
    { rewrite He in Hsh. destruct (Multi.at_pc s2); simpl in Hsh;
        try discriminate. congruence. }
    rewrite (multi_step_stays_returned _ _ _ _ _ He),
      (multi_step_stays_returned _ _ _ _ _ He2).
    simpl. split; [|reflexivity]. repeat split; assumption.
Qed.

Lemma multi_run_alike cfg dtf f ins1 ins2 :
  Forall2 (same_except f) ins1 ins2 →
  ∀ s1 s2, alike f s1 s2 →
  changes_of f (Multi.run cfg dtf s1 ins1).2
  = changes_of f (Multi.run cfg dtf s2 ins2).2.
Proof.
  induction 1 as [|i1 i2 ins1 ins2 Hi Hins IH]; intros s1 s2 Hal; simpl.
  - reflexivity.
  - destruct (multi_step_alike cfg dtf f s1 s2 i1 i2 Hal Hi) as [Hal' Hc].
    destruct (Multi.step cfg dtf s1 i1) as [s1' o1].
    destruct (Multi.step cfg dtf s2 i2) as [s2' o2].
    specialize (IH s1' s2' Hal').
    destruct (Multi.run cfg dtf s1' ins1) as [s1'' o1'].
    destruct (Multi.run cfg dtf s2' ins2) as [s2'' o2'].
    simpl in *. rewrite !changes_of_app, Hc, IH. reflexivity.
Qed.

(** C9: in [WatchMultiple] the bookkeeping for an event of the path [A]
    leaves the entry of every other target [B] of the timer map as it was,
    the timers of the sessions that are gone too; and the invocations of
    the change callback for [B], with their instants, are the same in two
    runs that differ only in events of paths other than [B]: what happens
    to [A] changes nothing for [B]. *)
Theorem C9_event_of_one_target_leaves_other_timers
    cfg dirToFiles (B : string) :
  (∀ t tm st n ev,
     Name ev ≠ B →
     ∃ tm' out,
       Multi.react cfg dirToFiles t (Multi.AtSelect tm) st n (RecvEvent ev)
       = (Multi.AtSelect tm', st, n, out)
       ∧ tm' !! B = tm !! B)
  ∧ (∀ s ins1 ins2,
     Forall2 (same_except B) ins1 ins2 →
     changes_of B (Multi.run cfg dirToFiles s ins1).2
     = changes_of B (Multi.run cfg dirToFiles s ins2).2).
Proof.
  split.
  - intros t tm st n ev Hne. simpl.
    pose proof (multi_on_event_armed cfg t ev tm B) as Ha.
    unfold touches in Ha.
    rewrite (bool_decide_eq_false_2 (Name ev = B)) in Ha by exact Hne.
    simpl in Ha.
    destruct (Multi.on_event cfg t ev (Multi.TargetFiles cfg) tm) as [tm' out].
    exists tm', out. split; [reflexivity | exact Ha].
  - intros s ins1 ins2 Hins.
    apply (multi_run_alike cfg dirToFiles B ins1 ins2 Hins).
    repeat split; reflexivity.
Qed.

(** ** Bursts *)

Lemma changes_app out1 out2 : changes (out1 ++ out2) = changes out1 ++ changes out2.
Proof. unfold changes. rewrite filter_app, fmap_app. reflexivity. Qed.

Lemma changes_call_if b t a : a ≠ CallOnChange → changes (call_if b t a) = [].
Proof.
  intros Hne. destruct b; [|reflexivity]. unfold changes, call_if.
  rewrite filter_cons_False by exact Hne. reflexivity.
Qed.

Lemma watch_view_run cfg ins : ∀ s,
  (iterate (watch_view cfg) s ins).2 = changes (Single.run cfg s ins).2.
Proof.
  induction ins as [|i ins IH]; intros s; cbn [iterate Single.run];
    [reflexivity|].
  assert (Hv : watch_view cfg s i
               = ((Single.step cfg s i).1, changes (Single.step cfg s i).2))
    by reflexivity.
  rewrite Hv. destruct (Single.step cfg s i) as [s1 out1]. cbn [fst snd].
  specialize (IH s1).
  destruct (iterate (watch_view cfg) s1 ins) as [s2 v2].
  destruct (Single.run cfg s1 ins) as [s2' out2]. cbn [fst snd] in *.
  rewrite changes_app, IH. reflexivity.
Qed.

Lemma target_view_run cfg dtf f ins : ∀ s,
  (iterate (target_view cfg dtf f) s ins).2
  = changes_of f (Multi.run cfg dtf s ins).2.
Proof.
  induction ins as [|i ins IH]; intros s; cbn [iterate Multi.run];
    [reflexivity|].
  assert (Hv : target_view cfg dtf f s i
               = ((Multi.step cfg dtf s i).1,
                  changes_of f (Multi.step cfg dtf s i).2))
    by reflexivity.
  rewrite Hv. destruct (Multi.step cfg dtf s i) as [s1 out1]. cbn [fst snd].
  specialize (IH s1).
  destruct (iterate (target_view cfg dtf f) s1 ins) as [s2 v2].
  destruct (Multi.run cfg dtf s1 ins) as [s2' out2]. cbn [fst snd] in *.
  rewrite changes_of_app, IH. reflexivity.
Qed.

Lemma single_elapse_select cfg incl t db :
  ∃ out, Single.elapse cfg incl t (Single.AtSelect db)
         = (Single.AtSelect (remaining true incl t db), out)
         ∧ changes out = fired true incl t db.
Proof.
  destruct db as [w|]; simpl; [|eexists; split; reflexivity].
  destruct (due incl t w); eexists; (split; [reflexivity|]); [|reflexivity].
  rewrite changes_app, changes_call_if by discriminate. reflexivity.
Qed.

Lemma single_react_select cfg t db st inp :
  ends_session inp = false →
  ∃ out, Single.react cfg t (Single.AtSelect db) st inp
         = (Single.AtSelect
              (if touches_target cfg inp
               then Some (timer_when t (Single.Debounce cfg)) else db),
            st, out)
         ∧ changes out = [].
Proof.
  intros Hend. destruct inp as [[r|]|[r|]|c|ev|[r|]|]; simpl in *;
    try discriminate; try (eexists; split; reflexivity).
  destruct (Single.relevant cfg ev); simpl; eexists; (split; [reflexivity|]);
    [|reflexivity].
  apply changes_call_if. discriminate.
Qed.

Lemma watch_view_watching cfg s i :
  (∃ db, Single.at_pc s = Single.AtSelect db) →
  ends_session i.2 = false →
  (∃ db, Single.at_pc (watch_view cfg s i).1 = Single.AtSelect db)
  ∧ Single.now (watch_view cfg s i).1 = Z.max (Single.now s) i.1
  ∧ (watch_view cfg s i).2
    = fired true (is_tick i.2) (Z.max (Single.now s) i.1)
        (debounce_timer (Single.at_pc s))
  ∧ debounce_timer (Single.at_pc (watch_view cfg s i).1)
    = if touches_target cfg i.2
      then Some (timer_when (Z.max (Single.now s) i.1) (Single.Debounce cfg))
      else remaining true (is_tick i.2) (Z.max (Single.now s) i.1)
             (debounce_timer (Single.at_pc s)).
Proof.
  intros [db Hpc] Hend. unfold watch_view, Single.step, Single.advance.
  rewrite Hpc.
  destruct (single_elapse_select cfg (is_tick i.2) (Z.max (Single.now s) i.1) db)
    as (out1 & -> & Ho1).
  destruct (single_react_select cfg (Z.max (Single.now s) i.1)
              (remaining true (is_tick i.2) (Z.max (Single.now s) i.1) db)
              (filter (λ w, negb (due (is_tick i.2) (Z.max (Single.now s) i.1) w))
                 (Single.stale s)) i.2 Hend) as (out2 & -> & Ho2).
  cbn [fst snd Single.at_pc Single.now debounce_timer].
  rewrite changes_app, Ho1, Ho2, app_nil_r. eauto.
Qed.

Lemma target_view_watching cfg dtf f s i :
  can_send cfg = true →
  in_select (Multi.at_pc s) = true →
  ends_session i.2 = false →
  in_select (Multi.at_pc (target_view cfg dtf f s i).1) = true
  ∧ Multi.now (target_view cfg dtf f s i).1 = Z.max (Multi.now s) i.1
  ∧ (target_view cfg dtf f s i).2
    = fired true (is_tick i.2) (Z.max (Multi.now s) i.1)
        (armed f (Multi.at_pc s))
  ∧ armed f (Multi.at_pc (target_view cfg dtf f s i).1)
    = if touches cfg f i.2
      then Some (timer_when (Z.max (Multi.now s) i.1) (Multi.Debounce cfg))
      else remaining true (is_tick i.2) (Z.max (Multi.now s) i.1)
             (armed f (Multi.at_pc s)).
Proof.
  intros Hcan Hsel Hend. unfold target_view. cbn [fst snd].
  destruct (multi_step_spec cfg dtf s i f (multi_in_select_running _ Hsel))
    as (Hn & Hc & Ha).
  split; [apply multi_step_in_select; assumption|].
  split; [exact Hn|]. rewrite Hcan in Hc, Ha. split; [exact Hc|].
  rewrite Ha, Hend.
  destruct (Multi.at_pc s) as [| | | |tm|]; try discriminate.
  rewrite multi_elapse_in_select. reflexivity.
Qed.

Lemma touches_target_not_tick cfg i : touches_target cfg i = true → is_tick i = false.
Proof. destruct i; simpl; intros; (reflexivity || discriminate). Qed.

Lemma touches_not_tick cfg f i : touches cfg f i = true → is_tick i = false.
Proof. destruct i; simpl; intros; (reflexivity || discriminate). Qed.

Lemma times_of_last_can_send cfg f ins tN :
  last (event_times cfg f ins) = Some tN → can_send cfg = true.
Proof.
  intros Hl. apply last_Some in Hl as [l' Hl].
  assert (Hin : tN ∈ event_times cfg f ins).
  { rewrite Hl. apply elem_of_app. right. left. }
  unfold event_times, times_of in Hin.
  apply list_elem_of_fmap in Hin as ([t i] & _ & Hin).
  apply list_elem_of_filter in Hin as [Ht _]. simpl in Ht.
  destruct i as [| | |ev| |]; simpl in Ht; try discriminate.
  apply andb_true_iff in Ht as [Ht _]. apply andb_true_iff in Ht as [_ Ht].
  apply bool_decide_eq_true in Ht. unfold can_send.
  apply Nat.ltb_lt. destruct (Multi.TargetFiles cfg); [|simpl; lia].
  apply elem_of_nil in Ht. destruct Ht.
Qed.

(** C3, as the code has it: take a positive settle delay and a session
    that is in its event loop, with no timer pending for the target, and
    let the session stay open: neither a cancellation nor a watcher error
    is observed.  For a burst of relevant events of the target, each less
    than the settle delay after the one before, the change callback is
    invoked for the target exactly once, the settle delay after the last
    event of the burst.  This holds in [Watch] and, for each target, in
    [WatchMultiple], whatever else is received in between. *)
Theorem C3_one_invocation_per_burst_while_the_session_is_open :
  (∀ cfg s ins tN T,
     Single.at_pc s = Single.AtSelect None →
     0 < Single.Debounce cfg →
     stays_open ins →
     ascending (Single.now s) (ins.*1 ++ [T]) →
     within (Single.Debounce cfg) (target_event_times cfg ins) →
     last (target_event_times cfg ins) = Some tN →
     tN + Single.Debounce cfg ≤ T →
     changes (Single.run cfg s (ins ++ [(T, Tick)])).2
     = [tN + Single.Debounce cfg])
  ∧ (∀ cfg dirToFiles s tm f ins tN T,
     Multi.at_pc s = Multi.AtSelect tm →
     tm !! f = None →
     0 < Multi.Debounce cfg →
     stays_open ins →
     ascending (Multi.now s) (ins.*1 ++ [T]) →
     within (Multi.Debounce cfg) (event_times cfg f ins) →
     last (event_times cfg f ins) = Some tN →
     tN + Multi.Debounce cfg ≤ T →
     changes_of f (Multi.run cfg dirToFiles s (ins ++ [(T, Tick)])).2
     = [tN + Multi.Debounce cfg]).
Proof.
  split.
  - intros cfg s ins tN T Hpc Hpos Hopen Hasc Hwithin Hlast Hfin.
    rewrite <- watch_view_run.
    rewrite (burst_settles (watch_view cfg) Single.now
               (λ s, debounce_timer (Single.at_pc s))
               (λ s, ∃ db, Single.at_pc s = Single.AtSelect db)
               (touches_target cfg) (Single.Debounce cfg) T Hpos
               (touches_target_not_tick cfg) (watch_view_watching cfg) ins s).
    + unfold settle. fold (target_event_times cfg ins). rewrite Hlast.
      reflexivity.
    + eauto.
    + exact Hopen.
    + exact Hasc.
    + exact Hwithin.
    + rewrite Hpc. intros w t1 Hw. discriminate.
    + unfold settle. fold (target_event_times cfg ins). rewrite Hlast.
      intros x Hx. inversion Hx. lia.
  - intros cfg dtf s tm f ins tN T Hpc Hidle Hpos Hopen Hasc Hwithin Hlast Hfin.
    pose proof (times_of_last_can_send cfg f ins tN Hlast) as Hcan.
    rewrite <- target_view_run.
    rewrite (burst_settles (target_view cfg dtf f) Multi.now
               (λ s, armed f (Multi.at_pc s))
               (λ s, in_select (Multi.at_pc s) = true)
               (touches cfg f) (Multi.Debounce cfg) T Hpos
               (touches_not_tick cfg f)
               (λ s i, target_view_watching cfg dtf f s i Hcan) ins s).
    + unfold settle. fold (event_times cfg f ins). rewrite Hlast. reflexivity.
    + rewrite Hpc. reflexivity.
    + exact Hopen.
    + exact Hasc.
    + exact Hwithin.
    + rewrite Hpc. simpl. rewrite Hidle. intros w t1 Hw. discriminate.
    + unfold settle. fold (event_times cfg f ins). rewrite Hlast.
      intros x Hx. inversion Hx. lia.
Qed.

(** ** What the functions return, in full *)

(** C6: when [Watch] or [WatchMultiple] has returned, the value is either a
    configuration error, and then the configuration was invalid, or
    [ctx.Err()] for a cancellation that a select observed; an error of the
    watcher (creation, registration, or on the error channel) is never the
    value returned.  And a cancellation that a select observes, in the
    event loop or while the retry delay is waited for, does make the
    function return [ctx.Err()]. *)
Theorem C6_returns_only_configuration_error_or_cancellation :
  (∀ cfg ins e,
     Single.at_pc (Single.Watch cfg ins).1 = Single.Returned e →
     (e = errors_New "OnChange callback must be set"
        ∧ Single.OnChange cfg = false)
     ∨ (∃ t c, e = ctx_Err c ∧ (t, CtxDone c) ∈ ins))
  ∧ (∀ cfg ins e,
     Multi.at_pc (Multi.WatchMultiple cfg ins).1 = Multi.Returned e →
     (e = errors_New "OnChange callback must be set"
        ∧ Multi.OnChange cfg = false)
     ∨ (e = errors_New "at least one target file must be specified"
        ∧ Multi.TargetFiles cfg = [])
     ∨ (∃ t c, e = ctx_Err c ∧ (t, CtxDone c) ∈ ins))
  ∧ (∀ cfg s t c,
     (∃ db, Single.at_pc s = Single.AtSelect db)
     ∨ (∃ w, Single.at_pc s = Single.AtRetry w ∧ Z.max (Single.now s) t ≤ w) →
     Single.at_pc (Single.step cfg s (t, CtxDone c)).1
     = Single.Returned (ctx_Err c))
  ∧ (∀ cfg dirToFiles s t c,
     (∃ tm, Multi.at_pc s = Multi.AtSelect tm)
     ∨ (∃ w, Multi.at_pc s = Multi.AtRetryNew w ∧ Z.max (Multi.now s) t ≤ w)
     ∨ (∃ w rest, Multi.at_pc s = Multi.AtRetryAdd w rest
                  ∧ Z.max (Multi.now s) t ≤ w) →
     Multi.at_pc (Multi.step cfg dirToFiles s (t, CtxDone c)).1
     = Multi.Returned (ctx_Err c)).
Proof.
  split; [|split; [|split]]; [intros cfg ins e | intros cfg ins e | |].
  3: {
    intros cfg s t c [[db Hpc]|(w & Hpc & Hle)];
      unfold Single.step, Single.advance; rewrite Hpc; cbn [fst snd is_tick].
    - destruct (single_elapse_select cfg false (Z.max (Single.now s) t) db)
        as (out & -> & _). reflexivity.
    - simpl. rewrite (proj2 (Z.ltb_ge _ _)) by exact Hle. reflexivity. }
  3: {
    intros cfg dtf s t c [[tm Hpc]|[(w & Hpc & Hle)|(w & rest & Hpc & Hle)]];
      unfold Multi.step, Multi.advance; rewrite Hpc; cbn [fst snd is_tick].
    - destruct (multi_elapse_select cfg false (Z.max (Multi.now s) t) tm)
        as (tm' & out & -> & _). reflexivity.
    - simpl. rewrite (proj2 (Z.ltb_ge _ _)) by exact Hle. reflexivity.
    - simpl. rewrite (proj2 (Z.ltb_ge _ _)) by exact Hle. reflexivity. }
  - unfold Single.Watch. rewrite single_defaults_OnChange.
    destruct (Single.OnChange cfg) eqn:Hc; simpl.
    + unfold Single.session_loop.
      destruct (Single.run _ _ ins) as [s out] eqn:Hrun. simpl. intros Hret.
      right.
      destruct (single_run_returned (Single.with_defaults cfg) ins
                  {| Single.now := 0; Single.at_pc := Single.AtNewWatcher;
                     Single.stale := [] |} e I)
        as (t & c & Hin & He).
      { rewrite Hrun. exact Hret. }
      exists t, c. split; [exact He | exact Hin].
    + intros Hret. inversion Hret. left. split; reflexivity.
  - unfold Multi.WatchMultiple.
    rewrite multi_defaults_OnChange, multi_defaults_TargetFiles.
    destruct (Multi.OnChange cfg) eqn:Hc; simpl.
    + destruct (Multi.TargetFiles cfg) as [|f fs] eqn:Hf; simpl.
      * intros Hret. inversion Hret. right. left. split; reflexivity.
      * unfold Multi.session_loop.
        destruct (Multi.run _ _ _ ins) as [s out] eqn:Hrun. simpl. intros Hret.
        right. right.
        pose proof (multi_run_returned (Multi.with_defaults cfg)
                      (Multi.group_by_dir (f :: fs)) ins
                      {| Multi.now := 0; Multi.at_pc := Multi.AtNewWatcher;
                         Multi.stale := []; Multi.session := 0 |} e I) as Hx.
        rewrite Hrun in Hx. destruct (Hx Hret) as (t & c & Hin & He).
        exists t, c. split; [exact He | exact Hin].
    + intros Hret. inversion Hret. left. split; reflexivity.
Qed.

End properties.

(** ** The two places where the code leaves the specification *)

(** C1, the code at a failing input.  Targets in [/srv] and [/etc], retry
    delay 10.  First run: the registration of [/srv] fails at instant 0;
    when the retry delay has passed the code calls [w.Add] for [/etc] on
    the watcher it has closed, and no watcher is created.  Second run: the
    registration of the last directory fails; when the retry delay has
    passed the code is in the select of the event loop, with the one
    watcher of instant 0, closed.  Third run, [Watch] in the same
    situation: a new watcher is created at instant 10. *)
Theorem C1_failed_registration_continues_the_range :
  Multi.WatchMultiple Demo.multi_cfg
    [(0, RetNewWatcher None); (0, RetAdd (Some (watcher_error 7))); (10, Tick)]
  = ({| Multi.now := 10; Multi.at_pc := Multi.AtAdd "/etc" [];
        Multi.stale := []; Multi.session := 1 |},
     [(0, CallOnEvent "watching 3 files across 2 directories");
      (0, CallNewWatcher);
      (0, CallAdd "/srv");
      (0, CallOnError (fmt_Errorf_w "failed to watch directory %s: %w" "/srv"
                         (watcher_error 7)));
      (0, CallClose);
      (10, CallAdd "/etc")])
  ∧ Multi.WatchMultiple Demo.multi_cfg
      [(0, RetNewWatcher None); (0, RetAdd None);
       (0, RetAdd (Some (watcher_error 7))); (10, Tick)]
    = ({| Multi.now := 10; Multi.at_pc := Multi.AtSelect ∅;
          Multi.stale := []; Multi.session := 1 |},
       [(0, CallOnEvent "watching 3 files across 2 directories");
        (0, CallNewWatcher);
        (0, CallAdd "/srv");
        (0, CallOnEvent "watching directory: /srv");
        (0, CallAdd "/etc");
        (0, CallOnError (fmt_Errorf_w "failed to watch directory %s: %w" "/etc"
                           (watcher_error 7)));
        (0, CallClose)])
  ∧ Single.Watch Demo.single_cfg
      [(0, RetNewWatcher None); (0, RetAdd (Some (watcher_error 7))); (10, Tick)]
    = ({| Single.now := 10; Single.at_pc := Single.AtNewWatcher;
          Single.stale := [] |},
       [(0, CallNewWatcher);
        (0, CallAdd "/srv");
        (0, CallOnError (watcher_error 7));
        (0, CallClose);
        (10, CallNewWatcher)]).
Proof. repeat split; vm_compute; reflexivity. Qed.

(** C2, the code at a failing input.  Retry delay 10; the watcher reports
    an error at instant 120 while the session is watching.  In [Watch] and
    in [WatchMultiple] the next watcher is created at instant 120, not at
    130 or later, and the function is then blocked in
    [fsnotify.NewWatcher], not in a select that could observe the
    cancellation. *)
Theorem C2_mid_session_error_reopens_without_retry_delay :
  Single.Watch Demo.single_cfg
    [(0, RetNewWatcher None); (0, RetAdd None);
     (120, RecvError (Some (watcher_error 1)))]
  = ({| Single.now := 120; Single.at_pc := Single.AtNewWatcher;
        Single.stale := [] |},
     [(0, CallNewWatcher);
      (0, CallAdd "/srv");
      (0, CallOnEvent "watching /srv");
      (120, CallOnError (watcher_error 1));
      (120, CallClose);
      (120, CallNewWatcher)])
  ∧ Multi.WatchMultiple Demo.multi_cfg
      [(0, RetNewWatcher None); (0, RetAdd None); (0, RetAdd None);
       (120, RecvError (Some (watcher_error 1)))]
    = ({| Multi.now := 120; Multi.at_pc := Multi.AtNewWatcher;
          Multi.stale := [(∅, [])]; Multi.session := 1 |},
       [(0, CallOnEvent "watching 3 files across 2 directories");
        (0, CallNewWatcher);
        (0, CallAdd "/srv");
        (0, CallOnEvent "watching directory: /srv");
        (0, CallAdd "/etc");
        (0, CallOnEvent "watching directory: /etc");
        (120, CallOnError (watcher_error 1));
        (120, CallClose);
        (120, CallNewWatcher)]).
Proof. split; vm_compute; reflexivity. Qed.

(** ** The properties at concrete inputs *)

(** The scenario of the specification, settle delay 50 and writes at 0, 10
    and 20: one notification, at 70.  In [WatchMultiple] events of another
    target and an event that is not relevant come in between. *)
Lemma C3_witness :
  changes (Single.run Demo.single_cfg Demo.single_watching
             (Demo.three_writes "/srv/app" ++ [(70, Tick)])).2 = [20 + 50]
  ∧ changes_of "/etc/a.conf"
      (Multi.run Demo.multi_cfg
         (Multi.group_by_dir (Multi.TargetFiles Demo.multi_cfg))
         Demo.multi_watching
         ([(0, RecvEvent (Demo.write "/etc/a.conf"));
           (5, RecvEvent (Demo.write "/etc/b.conf"));
           (10, RecvEvent (Demo.write "/etc/a.conf"));
           (20, RecvEvent (Demo.chmod "/etc/a.conf"));
           (20, RecvEvent (Demo.write "/etc/a.conf"));
           (60, RecvEvent (Demo.write "/etc/b.conf"))] ++ [(200, Tick)])).2
    = [20 + 50].
Proof.
  destruct (@C3_one_invocation_per_burst_while_the_session_is_open
              Demo.externals) as [Hsingle Hmulti].
  split.
  - apply (Hsingle Demo.single_cfg Demo.single_watching
             (Demo.three_writes "/srv/app") 20 70).
    + reflexivity.
    + reflexivity.
    + repeat constructor.
    + simpl. lia.
    + vm_compute. repeat split; reflexivity.
    + reflexivity.
    + simpl. lia.
  - apply (Hmulti Demo.multi_cfg _ Demo.multi_watching ∅ "/etc/a.conf" _ 20 200).
    + reflexivity.
    + reflexivity.
    + reflexivity.
    + repeat constructor.
    + simpl. lia.
    + vm_compute. repeat split; reflexivity.
    + reflexivity.
    + simpl. lia.
Defined.

(** C3 as it is stated fails when the session does not stay open.  One
    relevant event at instant 5, settle delay 50.  First run: the context
    is cancelled at 10; [Watch] returns and the callback is never invoked.
    Second run: the watcher reports an error at 10 and the next session is
    established at once; [Watch] is in its event loop until 1000, and the
    callback is never invoked: not at 55, and not at all.  Last run, the
    session open but a settle delay of -5, which is not replaced by the
    default: the timer expires at once and the callback is invoked at 5,
    not at 5 + (-5). *)
Lemma C3_counterexample_session_ends_before_the_burst_settles :
  changes (Single.Watch Demo.single_cfg
             [(0, RetNewWatcher None); (0, RetAdd None);
              (5, RecvEvent (Demo.write "/srv/app"));
              (10, CtxDone Canceled); (1000, Tick)]).2 = []
  ∧ changes (Single.Watch Demo.single_cfg
               [(0, RetNewWatcher None); (0, RetAdd None);
                (5, RecvEvent (Demo.write "/srv/app"));
                (10, RecvError (Some (watcher_error 1)));
                (10, RetNewWatcher None); (10, RetAdd None);
                (1000, Tick)]).2 = []
  ∧ changes (Single.Watch Demo.single_cfg
               [(0, RetNewWatcher None); (0, RetAdd None);
                (5, RecvEvent (Demo.write "/srv/app"));
                (10, RecvError (Some (watcher_error 1)));
                (10, RetNewWatcher None); (10, RetAdd None);
                (1000, Tick)]).2 ≠ [5 + 50]
  ∧ changes (Single.Watch
               {| Single.OnChange := true; Single.OnEvent := false;
                  Single.OnError := false; Single.TargetFile := "/srv/app";
                  Single.Debounce := -5; Single.RetryDelay := 10 |}
               [(0, RetNewWatcher None); (0, RetAdd None);
                (5, RecvEvent (Demo.write "/srv/app"));
                (1000, Tick)]).2 = [5].
Proof. repeat split; vm_compute; (reflexivity || discriminate). Qed.

Lemma C4_witness :
  Single.at_pc
    (Single.Watch
       {| Single.OnChange := false; Single.OnEvent := true;
          Single.OnError := true; Single.TargetFile := "/srv/app";
          Single.Debounce := 0; Single.RetryDelay := 0 |}
       [(0, RetNewWatcher None); (0, RetAdd None)]).1
  = Single.Returned (errors_New "OnChange callback must be set")
  ∧ (Single.Watch
       {| Single.OnChange := false; Single.OnEvent := true;
          Single.OnError := true; Single.TargetFile := "/srv/app";
          Single.Debounce := 0; Single.RetryDelay := 0 |}
       [(0, RetNewWatcher None); (0, RetAdd None)]).2 = [].
Proof.
  destruct (@C4_configuration_error_before_any_session Demo.externals)
    as [Hsingle _].
  apply Hsingle. reflexivity.
Defined.

Lemma C5_witness :
  Single.react Demo.single_cfg 7 (Single.AtSelect None) []
    (RecvEvent (Demo.write "/srv/app"))
  = (Single.AtSelect (Some (7 + Z.max 0 50)), [],
     [(7, CallOnEvent ("change detected: " +:+ "/srv/app"))])
  ∧ Single.react Demo.single_cfg 7 (Single.AtSelect None) []
      (RecvEvent (Demo.write "/srv/other"))
    = (Single.AtSelect None, [], [])
  ∧ Single.react Demo.single_cfg 7 (Single.AtSelect None) []
      (RecvEvent (Demo.chmod "/srv/app"))
    = (Single.AtSelect None, [], []).
Proof.
  destruct (@C5_bookkeeping_iff_exact_path_and_relevant_operation
              Demo.externals) as [Hsingle _].
  split; [|split].
  - apply (Hsingle Demo.single_cfg 7 None [] (Demo.write "/srv/app")).
    apply single_relevant_spec. reflexivity.
  - apply (Hsingle Demo.single_cfg 7 None [] (Demo.write "/srv/other")).
    intros Hrel. apply single_relevant_spec in Hrel. discriminate.
  - apply (Hsingle Demo.single_cfg 7 None [] (Demo.chmod "/srv/app")).
    intros Hrel. apply single_relevant_spec in Hrel. discriminate.
Defined.

Lemma C6_witness :
  (ctx_Err Canceled = errors_New "OnChange callback must be set"
     ∧ Single.OnChange Demo.single_cfg = false)
  ∨ (∃ t c, ctx_Err Canceled = ctx_Err c
            ∧ (t, CtxDone c)
              ∈ [(0, RetNewWatcher (Some (watcher_error 3)));
                 (4, CtxDone Canceled)]).
Proof.
  destruct (@C6_returns_only_configuration_error_or_cancellation
              Demo.externals) as [Hsingle _].
  apply (Hsingle Demo.single_cfg). reflexivity.
Defined.

Lemma C8_witness :
  let r := Multi.run Demo.multi_cfg
             (Multi.group_by_dir (Multi.TargetFiles Demo.multi_cfg))
             Demo.multi_start
             ((0, RetNewWatcher None) :: ((λ t, (t, RetAdd None)) <$> [1; 2])) in
  Multi.at_pc r.1 = Multi.AtSelect ∅
  ∧ opened r.2 = []
  ∧ NoDup (added r.2)
  ∧ ∀ dir, dir ∈ added r.2
           ↔ ∃ file, file ∈ Multi.TargetFiles Demo.multi_cfg
                     ∧ dir = Demo.dir file.
Proof.
  apply (@C8_each_directory_registered_exactly_once Demo.externals
           Demo.multi_cfg Demo.multi_start 0 [1; 2]).
  - reflexivity.
  - vm_compute. reflexivity.
Defined.

Lemma C9_witness :
  changes_of "/etc/b.conf"
    (Multi.run Demo.multi_cfg
       (Multi.group_by_dir (Multi.TargetFiles Demo.multi_cfg))
       Demo.multi_watching
       [(0, RecvEvent (Demo.write "/etc/b.conf"));
        (5, RecvEvent (Demo.write "/etc/a.conf"));
        (49, RecvEvent (Demo.write "/etc/a.conf"));
        (200, Tick)]).2
  = changes_of "/etc/b.conf"
      (Multi.run Demo.multi_cfg
         (Multi.group_by_dir (Multi.TargetFiles Demo.multi_cfg))
         Demo.multi_watching
         [(0, RecvEvent (Demo.write "/etc/b.conf"));
          (5, RecvEvent (Demo.chmod "/etc/a.conf"));
          (49, RecvEvent (Demo.write "/srv/app"));
          (200, Tick)]).2.
Proof.
  destruct (@C9_event_of_one_target_leaves_other_timers Demo.externals
              Demo.multi_cfg
              (Multi.group_by_dir (Multi.TargetFiles Demo.multi_cfg))
              "/etc/b.conf") as [_ Hruns].
  apply Hruns.
  constructor; [split; [reflexivity | left; reflexivity]|].
  constructor.
  { split; [reflexivity|]. right. eexists _, _.
    split; [reflexivity|]. split; [reflexivity|]. split; discriminate. }
  constructor.
  { split; [reflexivity|]. right. eexists _, _.
    split; [reflexivity|]. split; [reflexivity|]. split; discriminate. }
  constructor; [split; [reflexivity | left; reflexivity]|].
  constructor.
Defined.

Lemma C10_witness :
  let s := {| Multi.now := 5; Multi.at_pc := Multi.AtSelect {[ "/srv/app" := 55 ]};
              Multi.stale := []; Multi.session := 1 |} in
  let dirToFiles := Multi.group_by_dir (Multi.TargetFiles Demo.multi_cfg) in
  let ins := [(10, RetNewWatcher None); (10, RetAdd None); (10, RetAdd None);
              (30, RecvEvent (Demo.write "/etc/a.conf")); (1000, Tick)] in
  let s1 := (Multi.step Demo.multi_cfg dirToFiles s
               (10, RecvError (Some (watcher_error 1)))).1 in
  Multi.at_pc s1 = Multi.AtNewWatcher
  ∧ (∃ tm' st, Multi.stale s1 = (tm', []) :: st ∧ tm' !! "/srv/app" = Some 55)
  ∧ changes_of "/srv/app"
      (Multi.run Demo.multi_cfg dirToFiles s
         ((10, RecvError (Some (watcher_error 1))) :: ins)).2 = [].
Proof.
  apply (@C10_pending_timers_are_lost_on_watcher_error Demo.externals
           Demo.multi_cfg _ _ {[ "/srv/app" := 55 ]} "/srv/app" 55).
  - reflexivity.
  - reflexivity.
  - simpl. lia.
  - repeat constructor.
Defined.

(** ** The model at work *)

(** Two bursts on one target more than the settle delay apart: two
    notifications. *)
Example two_bursts_two_notifications :
  changes (Single.run Demo.single_cfg Demo.single_watching
             [(0, RecvEvent (Demo.write "/srv/app"));
              (10, RecvEvent (Demo.write "/srv/app"));
              (100, RecvEvent (Demo.write "/srv/app"));
              (200, Tick)]).2
  = [60; 150].
Proof. vm_compute. reflexivity. Qed.

(** Two targets changed at 0 and 5: two notifications, at 50 and 55. *)
Example two_targets_two_notifications :
  let out := (Multi.run Demo.multi_cfg
                (Multi.group_by_dir (Multi.TargetFiles Demo.multi_cfg))
                Demo.multi_watching
                [(0, RecvEvent (Demo.write "/etc/a.conf"));
                 (5, RecvEvent (Demo.write "/srv/app"));
                 (200, Tick)]).2 in
  changes_of "/etc/a.conf" out = [50]
  ∧ changes_of "/srv/app" out = [55]
  ∧ changes_of "/etc/b.conf" out = [].
Proof. vm_compute. repeat split; reflexivity. Qed.

(** The timer that a session left armed does expire: its callback sends on
    the channel of that session and deletes the entry of that session's
    map, and no select receives what was sent. *)
Example stale_timer_sends_on_the_old_channel :
  Multi.WatchMultiple Demo.multi_cfg
    [(0, RetNewWatcher None); (0, RetAdd None); (0, RetAdd None);
     (5, RecvEvent (Demo.write "/srv/app"));
     (10, RecvError None);
     (10, RetNewWatcher None); (10, RetAdd None); (10, RetAdd None);
     (1000, Tick)]
  = ({| Multi.now := 1000; Multi.at_pc := Multi.AtSelect ∅;
        Multi.stale := [(∅, ["/srv/app"])]; Multi.session := 2 |},
     [(0, CallOnEvent "watching 3 files across 2 directories");
      (0, CallNewWatcher);
      (0, CallAdd "/srv"); (0, CallOnEvent "watching directory: /srv");
      (0, CallAdd "/etc"); (0, CallOnEvent "watching directory: /etc");
      (5, CallOnEvent "change detected: /srv/app");
      (10, CallClose);
      (10, CallNewWatcher);
      (10, CallAdd "/srv"); (10, CallOnEvent "watching directory: /srv");
      (10, CallAdd "/etc"); (10, CallOnEvent "watching directory: /etc")]).
Proof. vm_compute. reflexivity. Qed.

(** What a failed registration leads to in [WatchMultiple] when the closed
    watcher behaves as fsnotify's does ([w.Add] fails on it, and its error
    channel, closed, yields nil): a second error is reported for the
    directory that was never tried on a live watcher, the retry delay is
    waited for twice, the event loop is entered, and only then is a watcher
    created, at 20 and not at 10. *)
Example failed_registration_then_closed_watcher :
  Multi.WatchMultiple Demo.multi_cfg
    [(0, RetNewWatcher None); (0, RetAdd (Some (watcher_error 7))); (10, Tick);
     (10, RetAdd (Some (watcher_error 8))); (20, Tick); (20, RecvError None)]
  = ({| Multi.now := 20; Multi.at_pc := Multi.AtNewWatcher;
        Multi.stale := [(∅, [])]; Multi.session := 1 |},
     [(0, CallOnEvent "watching 3 files across 2 directories");
      (0, CallNewWatcher);
      (0, CallAdd "/srv");
      (0, CallOnError (fmt_Errorf_w "failed to watch directory %s: %w" "/srv"
                         (watcher_error 7)));
      (0, CallClose);
      (10, CallAdd "/etc");
      (10, CallOnError (fmt_Errorf_w "failed to watch directory %s: %w" "/etc"
                          (watcher_error 8)));
      (10, CallClose);
      (20, CallClose);
      (20, CallNewWatcher)]).
Proof. vm_compute. reflexivity. Qed.

(** A timer and an input on the same instant: the input first, unless a
    [Tick] of that instant comes before it. *)
Example tie_between_timer_and_event :
  changes (Single.run Demo.single_cfg Demo.single_watching
             [(0, RecvEvent (Demo.write "/srv/app"));
              (50, RecvEvent (Demo.write "/srv/app"));
              (200, Tick)]).2 = [100]
  ∧ changes (Single.run Demo.single_cfg Demo.single_watching
               [(0, RecvEvent (Demo.write "/srv/app"));
                (50, Tick);
                (50, RecvEvent (Demo.write "/srv/app"));
                (200, Tick)]).2 = [50; 100].
Proof. split; vm_compute; reflexivity. Qed.

(** * More properties of the package *)

Section more_properties.
Context `{Externals}.

(** ** Watchers are closed *)

Lemma watchers_app open out1 out2 :
  watchers open (out1 ++ out2)
  = match watchers open out1 with
    | Some open' => watchers open' out2
    | None => None
    end.
Proof.
  revert open. induction out1 as [|[t a] out1 IH]; intros open; [reflexivity|].
  destruct a; simpl; try apply IH. destruct open; [reflexivity | apply IH].
Qed.

Lemma watchers_neutral out : ∀ open,
  Forall (λ x, neutral x.2) out → watchers open out = Some open.
Proof.
  induction out as [|[t a] out IH]; intros open Hn; [reflexivity|].
  apply Forall_cons in Hn as [Ha Hn].
  destruct a; simpl in *; try destruct Ha; apply IH; exact Hn.
Qed.

Lemma neutral_call_if b t a : neutral a → Forall (λ x, neutral x.2) (call_if b t a).
Proof. intros Ha. destruct b; repeat constructor. exact Ha. Qed.

Lemma neutral_deliver cfg t ch : Forall (λ x, neutral x.2) (Multi.deliver cfg t ch).
Proof.
  induction ch as [|f ch IH]; simpl; [constructor|].
  apply Forall_app. split; [apply neutral_call_if; exact I|].
  constructor; [exact I | exact IH].
Qed.

Lemma neutral_expire_open cfg l : ∀ tm out,
  Forall (λ x, neutral x.2) out →
  Forall (λ x, neutral x.2) (foldl (Multi.expire_open cfg) (tm, out) l).2.
Proof.
  induction l as [|[g w] l IH]; intros tm out Hout; [exact Hout|].
  simpl foldl. unfold Multi.expire_open at 2.
  destruct (Multi.timer_callback _ _ _ _) as [tm1 ch1]. apply IH.
  apply Forall_app. split; [exact Hout | apply neutral_deliver].
Qed.

Lemma neutral_on_event cfg t ev targets tm :
  Forall (λ x, neutral x.2) (Multi.on_event cfg t ev targets tm).2.
Proof.
  rewrite multi_on_event_spec. destruct (bool_decide _ && _); [|constructor].
  apply neutral_call_if. exact I.
Qed.

Lemma multi_elapse_neutral cfg incl t tm :
  ∃ tm' out,
    Multi.elapse cfg incl t (Multi.AtSelect tm) = (Multi.AtSelect tm', out)
    ∧ Forall (λ x, neutral x.2) out.
Proof.
  simpl.
  pose proof (neutral_expire_open cfg (Multi.expired incl t tm) tm []
                ltac:(constructor)) as Hn.
  destruct (foldl _ _ _) as [tm' out]. eauto.
Qed.

Lemma single_step_watchers cfg s i :
  watchers (single_holds (Single.at_pc s)) (Single.step cfg s i).2
  = Some (single_holds (Single.at_pc (Single.step cfg s i).1)).
Proof.
  unfold Single.step, Single.advance.
  destruct (Single.at_pc s) as [| |w|[w|]|e] eqn:Hpc; simpl;
    [| | | | |rewrite Hpc; reflexivity];
    try destruct (due _ _ w); simpl;
    destruct i as [t [[r|]|[r|]|c|ev|[r|]|]]; simpl;
    try destruct (Single.relevant cfg ev); simpl;
    destruct (Single.OnEvent cfg), (Single.OnError cfg); reflexivity.
Qed.

Lemma single_run_watchers cfg ins : ∀ s,
  watchers (single_holds (Single.at_pc s)) (Single.run cfg s ins).2
  = Some (single_holds (Single.at_pc (Single.run cfg s ins).1)).
Proof.
  induction ins as [|i ins IH]; intros s; [reflexivity|].
  cbn [Single.run].
  pose proof (single_step_watchers cfg s i) as Hst.
  destruct (Single.step cfg s i) as [s1 out1]. cbn [fst snd] in Hst.
  specialize (IH s1).
  destruct (Single.run cfg s1 ins) as [s2 out2]. cbn [fst snd] in IH |- *.
  rewrite watchers_app, Hst. exact IH.
Qed.

(** X1.  Every watcher that [Watch] creates is closed: no watcher is created
    while the one before is still open, and none is open when the function
    has returned.  One is open exactly while the function registers the
    directory or is in its event loop. *)
Theorem watch_closes_its_watchers cfg ins :
  watchers false (Single.Watch cfg ins).2
  = Some (single_holds (Single.at_pc (Single.Watch cfg ins).1))
  ∧ ∀ e, Single.at_pc (Single.Watch cfg ins).1 = Single.Returned e →
         watchers false (Single.Watch cfg ins).2 = Some false.
Proof.
  assert (Hw : watchers false (Single.Watch cfg ins).2
               = Some (single_holds (Single.at_pc (Single.Watch cfg ins).1))).
  { unfold Single.Watch. destruct (negb _); [reflexivity|].
    unfold Single.session_loop.
    pose proof (single_run_watchers (Single.with_defaults cfg) ins
                  {| Single.now := 0; Single.at_pc := Single.AtNewWatcher;
                     Single.stale := [] |}) as Hr.
    destruct (Single.run _ _ ins) as [s out]. exact Hr. }
  split; [exact Hw|]. intros e He. rewrite Hw, He. reflexivity.
Qed.

Lemma multi_step_watchers cfg dtf s i open :
  multi_may_hold (Multi.at_pc s) open →
  ∃ open', watchers open (Multi.step cfg dtf s i).2 = Some open'
           ∧ multi_may_hold (Multi.at_pc (Multi.step cfg dtf s i).1) open'.
Proof.
  intros Hp. unfold Multi.step, Multi.advance.
  destruct (Multi.at_pc s) as [|d rest|w|w rest|tm|e] eqn:Hpc; simpl in Hp;
    subst; cbn [fst snd].
  6: { eexists. split; [reflexivity|]. rewrite Hpc. reflexivity. }
  5: {
    destruct (multi_elapse_neutral cfg (is_tick i.2) (Z.max (Multi.now s) i.1) tm)
      as (tm' & out & Hel & Hn).
    rewrite Hel.
    destruct i as [t [[r|]|[r|]|c|ev|[r|]|]]; cbn [fst snd Multi.react];
      try (eexists; split; [rewrite app_nil_r; apply watchers_neutral, Hn|];
           exact I).
    - eexists. split; [|reflexivity].
      rewrite watchers_app, (watchers_neutral _ _ Hn). reflexivity.
    - pose proof (neutral_on_event cfg (Z.max (Multi.now s) t) ev
                    (Multi.TargetFiles cfg) tm') as Hev.
      destruct (Multi.on_event _ _ _ _ _) as [tm2 out2]. cbn [fst snd] in *.
      eexists. split; [|exact I].
      apply watchers_neutral, Forall_app. split; assumption.
    - eexists. split; [|reflexivity].
      rewrite watchers_app, (watchers_neutral _ _ Hn).
      destruct (Multi.OnError cfg); reflexivity.
    - eexists. split; [|reflexivity].
      rewrite watchers_app, (watchers_neutral _ _ Hn). reflexivity. }
  all: simpl; try destruct (due _ _ w); try destruct rest as [|d' rest'];
    simpl; destruct i as [t [[r|]|[r|]|c|ev|[r|]|]]; simpl;
    try destruct (map_range _ _) as [|d0 r0]; simpl;
    try (match goal with
         | |- context [Multi.range_next _ ?l] => destruct l; simpl
         end);
    try (match goal with
         | |- context [Multi.on_event ?c ?t0 ?e0 ?tg ?m] =>
             pose proof (neutral_on_event c t0 e0 tg m) as Hev;
             destruct (Multi.on_event c t0 e0 tg m) as [tm2 out2];
             cbn [fst snd] in *;
             eexists; split; [apply watchers_neutral, Hev | exact I]
         end);
    destruct (Multi.OnEvent cfg), (Multi.OnError cfg); simpl;
    try destruct open; simpl; eauto.
Qed.

Lemma multi_run_watchers cfg dtf ins : ∀ s open,
  multi_may_hold (Multi.at_pc s) open →
  ∃ open', watchers open (Multi.run cfg dtf s ins).2 = Some open'
           ∧ multi_may_hold (Multi.at_pc (Multi.run cfg dtf s ins).1) open'.
Proof.
  induction ins as [|i ins IH]; intros s open Hp; [eauto|].
  cbn [Multi.run].
  destruct (multi_step_watchers cfg dtf s i open Hp) as (o1 & Hw1 & Hp1).
  destruct (Multi.step cfg dtf s i) as [s1 out1]. cbn [fst snd] in Hw1, Hp1.
  destruct (IH s1 o1 Hp1) as (o2 & Hw2 & Hp2).
  destruct (Multi.run cfg dtf s1 ins) as [s2 out2]. cbn [fst snd] in *.
  exists o2. split; [|exact Hp2]. rewrite watchers_app, Hw1. exact Hw2.
Qed.

(** X2.  [WatchMultiple] closes its watchers too, also on the path on which it
    goes on registering after a failure: no watcher is created while
    [w.Add] was called on one that has not been closed since, and none is
    left so when the function has returned. *)
Theorem watch_multiple_closes_its_watchers cfg ins :
  ∃ open, watchers false (Multi.WatchMultiple cfg ins).2 = Some open
          ∧ ∀ e, Multi.at_pc (Multi.WatchMultiple cfg ins).1 = Multi.Returned e →
                 open = false.
Proof.
  unfold Multi.WatchMultiple.
  destruct (negb _); [exists false; split; [reflexivity | reflexivity]|].
  destruct (length _ =? 0)%nat; [exists false; split; reflexivity|].
  unfold Multi.session_loop.
  destruct (multi_run_watchers (Multi.with_defaults cfg)
              (Multi.group_by_dir (Multi.TargetFiles (Multi.with_defaults cfg)))
              ins
              {| Multi.now := 0; Multi.at_pc := Multi.AtNewWatcher;
                 Multi.stale := []; Multi.session := 0 |} false eq_refl)
    as (open & Hw & Hp).
  destruct (Multi.run _ _ _ ins) as [s out]. cbn [fst snd] in *.
  exists open. split.
  - rewrite watchers_app, watchers_neutral by (apply neutral_call_if; exact I).
    exact Hw.
  - intros e He. rewrite He in Hp. exact Hp.
Qed.

(** ** Callbacks that are nil are not invoked *)

Lemma single_callable_event cfg t msg :
  Forall (λ x, single_callable cfg x.2)
    (call_if (Single.OnEvent cfg) t (CallOnEvent msg)).
Proof. destruct (Single.OnEvent cfg) eqn:He; repeat constructor. exact He. Qed.

Lemma single_callable_error cfg t e :
  Forall (λ x, single_callable cfg x.2)
    (call_if (Single.OnError cfg) t (CallOnError e)).
Proof. destruct (Single.OnError cfg) eqn:He; repeat constructor. exact He. Qed.

Lemma multi_callable_event cfg t msg :
  Forall (λ x, multi_callable cfg x.2)
    (call_if (Multi.OnEvent cfg) t (CallOnEvent msg)).
Proof. destruct (Multi.OnEvent cfg) eqn:He; repeat constructor. exact He. Qed.

Lemma multi_callable_error cfg t e :
  Forall (λ x, multi_callable cfg x.2)
    (call_if (Multi.OnError cfg) t (CallOnError e)).
Proof. destruct (Multi.OnError cfg) eqn:He; repeat constructor. exact He. Qed.

Lemma single_step_callable cfg s i :
  Single.OnChange cfg = true →
  Forall (λ x, single_callable cfg x.2) (Single.step cfg s i).2.
Proof.
  intros Hc. unfold Single.step, Single.advance.
  destruct (Single.at_pc s) as [| |w|[w|]|e]; simpl; [| | | | |constructor];
    try destruct (due _ _ w); simpl;
    destruct i as [t [[r|]|[r|]|c|ev|[r|]|]]; simpl;
    try destruct (Single.relevant cfg ev); simpl;
    repeat first
      [ apply Forall_nil_2
      | apply Forall_app; split
      | apply single_callable_event
      | apply single_callable_error
      | apply Forall_cons; split; [first [exact I | exact Hc]|] ].
Qed.

Lemma single_run_callable cfg ins : ∀ s,
  Single.OnChange cfg = true →
  Forall (λ x, single_callable cfg x.2) (Single.run cfg s ins).2.
Proof.
  induction ins as [|i ins IH]; intros s Hc; [constructor|].
  cbn [Single.run].
  pose proof (single_step_callable cfg s i Hc) as Hst.
  destruct (Single.step cfg s i) as [s1 out1].
  specialize (IH s1 Hc).
  destruct (Single.run cfg s1 ins) as [s2 out2]. cbn [fst snd] in *.
  apply Forall_app. split; assumption.
Qed.

Lemma multi_callable_deliver cfg t ch :
  Multi.OnChange cfg = true →
  Forall (λ x, multi_callable cfg x.2) (Multi.deliver cfg t ch).
Proof.
  intros Hc. induction ch as [|f ch IH]; simpl; [constructor|].
  apply Forall_app. split; [apply multi_callable_event|].
  constructor; [exact Hc | exact IH].
Qed.

Lemma multi_callable_expire_open cfg l : ∀ tm out,
  Multi.OnChange cfg = true →
  Forall (λ x, multi_callable cfg x.2) out →
  Forall (λ x, multi_callable cfg x.2)
    (foldl (Multi.expire_open cfg) (tm, out) l).2.
Proof.
  induction l as [|[g w] l IH]; intros tm out Hc Hout; [exact Hout|].
  simpl foldl. unfold Multi.expire_open at 2.
  destruct (Multi.timer_callback _ _ _ _) as [tm1 ch1]. apply IH; [exact Hc|].
  apply Forall_app. split; [exact Hout | apply multi_callable_deliver, Hc].
Qed.

Lemma multi_callable_elapse cfg incl t p :
  Multi.OnChange cfg = true →
  Forall (λ x, multi_callable cfg x.2) (Multi.elapse cfg incl t p).2.
Proof.
  intros Hc. destruct p as [|d rest|w|w rest|tm|e]; simpl; try constructor.
  - destruct (due incl t w); repeat constructor.
  - destruct (due incl t w); [destruct rest|]; repeat constructor.
  - pose proof (multi_callable_expire_open cfg (Multi.expired incl t tm) tm []
                  Hc ltac:(constructor)) as Hf.
    destruct (foldl _ _ _) as [tm' out]. exact Hf.
Qed.

Lemma multi_callable_range_next cfg t dirs :
  Forall (λ x, multi_callable cfg x.2) (Multi.range_next t dirs).2.
Proof. destruct dirs; repeat constructor. Qed.

Lemma multi_callable_on_relevant cfg t ev f tm :
  Forall (λ x, multi_callable cfg x.2) (Multi.on_relevant cfg t ev f tm).2.
Proof. unfold Multi.on_relevant. simpl. apply multi_callable_event. Qed.

Lemma multi_callable_react cfg dtf t p st n i :
  Forall (λ x, multi_callable cfg x.2) (Multi.react cfg dtf t p st n i).2.
Proof.
  destruct p as [|d rest|w|w rest|tm|e];
    destruct i as [[r|]|[r|]|c|ev|[r|]|]; cbn [Multi.react snd];
    try apply Forall_nil_2;
    try apply multi_callable_error.
  - pose proof (multi_callable_range_next cfg t
                  (map_range n (Multi.keys dtf))) as Hr.
    destruct (Multi.range_next _ _) as [p' out]. exact Hr.
  - apply Forall_app. split; [apply multi_callable_error | repeat constructor].
  - pose proof (multi_callable_range_next cfg t rest) as Hr.
    destruct (Multi.range_next _ _) as [p' out]. cbn [snd] in *.
    apply Forall_app. split; [apply multi_callable_event | exact Hr].
  - repeat constructor.
  - rewrite multi_on_event_spec.
    destruct (bool_decide _ && _).
    + pose proof (multi_callable_on_relevant cfg t ev (Name ev) tm) as Hr.
      destruct (Multi.on_relevant _ _ _ _ _) as [tm' out]. exact Hr.
    + constructor.
  - apply Forall_app. split; [apply multi_callable_error | repeat constructor].
  - repeat constructor.
Qed.

Lemma multi_step_callable cfg dtf s i :
  Multi.OnChange cfg = true →
  Forall (λ x, multi_callable cfg x.2) (Multi.step cfg dtf s i).2.
Proof.
  intros Hc.
  destruct (multi_running_or_returned (Multi.at_pc s)) as [Hr|[e He]].
  - rewrite (multi_step_running _ _ _ _ Hr). unfold Multi.advance.
    pose proof (multi_callable_elapse cfg (is_tick i.2)
                  (Z.max (Multi.now s) i.1) (Multi.at_pc s) Hc) as He.
    destruct (Multi.elapse _ _ _ _) as [p1 out1].
    pose proof (multi_callable_react cfg dtf (Z.max (Multi.now s) i.1) p1
                  (Multi.elapse_stale cfg (is_tick i.2)
                     (Z.max (Multi.now s) i.1) <$> Multi.stale s)
                  (Multi.session s) i.2) as Hre.
    destruct (Multi.react _ _ _ _ _ _ _) as [[[p2 st2] n2] out2].
    cbn [fst snd] in *. apply Forall_app. split; assumption.
  - rewrite (multi_step_stays_returned _ _ _ _ _ He). constructor.
Qed.

Lemma multi_run_callable cfg dtf ins : ∀ s,
  Multi.OnChange cfg = true →
  Forall (λ x, multi_callable cfg x.2) (Multi.run cfg dtf s ins).2.
Proof.
  induction ins as [|i ins IH]; intros s Hc; [constructor|].
  cbn [Multi.run].
  pose proof (multi_step_callable cfg dtf s i Hc) as Hst.
  destruct (Multi.step cfg dtf s i) as [s1 out1].
  specialize (IH s1 Hc).
  destruct (Multi.run cfg dtf s1 ins) as [s2 out2]. cbn [fst snd] in *.
  apply Forall_app. split; assumption.
Qed.

Lemma single_defaults_callbacks cfg :
  Single.OnEvent (Single.with_defaults cfg) = Single.OnEvent cfg
  ∧ Single.OnError (Single.with_defaults cfg) = Single.OnError cfg
  ∧ Single.TargetFile (Single.with_defaults cfg) = Single.TargetFile cfg.
Proof. unfold Single.with_defaults. repeat case_match; auto. Qed.

Lemma multi_defaults_OnError cfg :
  Multi.OnError (Multi.with_defaults cfg) = Multi.OnError cfg.
Proof. unfold Multi.with_defaults. repeat case_match; reflexivity. Qed.

(** X3.  Neither function ever invokes a callback that is nil: the event and
    error callbacks are invoked only when they are set, and the change
    callback, which the session loop invokes without a test, is set
    whenever the loop is reached. *)
Theorem nil_callbacks_are_never_invoked :
  (∀ cfg ins,
     Forall (λ x, single_callable cfg x.2) (Single.Watch cfg ins).2)
  ∧ (∀ cfg ins,
     Forall (λ x, multi_callable cfg x.2) (Multi.WatchMultiple cfg ins).2).
Proof.
  split; intros cfg ins.
  - unfold Single.Watch. rewrite single_defaults_OnChange.
    destruct (Single.OnChange cfg) eqn:Hc; simpl; [|constructor].
    unfold Single.session_loop.
    pose proof (single_run_callable (Single.with_defaults cfg) ins
                  {| Single.now := 0; Single.at_pc := Single.AtNewWatcher;
                     Single.stale := [] |}) as Hr.
    rewrite single_defaults_OnChange in Hr. specialize (Hr Hc).
    destruct (Single.run _ _ ins) as [s out]. cbn [fst snd] in *.
    destruct (single_defaults_callbacks cfg) as (He & Hr' & _).
    constructor; [exact I|].
    eapply Forall_impl; [exact Hr|]. intros [t a] Ha.
    destruct a; simpl in *; congruence.
  - unfold Multi.WatchMultiple. rewrite multi_defaults_OnChange.
    destruct (Multi.OnChange cfg) eqn:Hc; simpl; [|constructor].
    destruct (length _ =? 0)%nat; [constructor|].
    unfold Multi.session_loop.
    pose proof (multi_run_callable (Multi.with_defaults cfg)
                  (Multi.group_by_dir
                     (Multi.TargetFiles (Multi.with_defaults cfg))) ins
                  {| Multi.now := 0; Multi.at_pc := Multi.AtNewWatcher;
                     Multi.stale := []; Multi.session := 0 |}) as Hr.
    rewrite multi_defaults_OnChange in Hr. specialize (Hr Hc).
    destruct (Multi.run _ _ _ ins) as [s out]. cbn [fst snd] in *.
    assert (Hconv : ∀ x : timed action,
              multi_callable (Multi.with_defaults cfg) x.2 →
              multi_callable cfg x.2).
    { intros [t a]. destruct a; simpl; try tauto;
        rewrite ?multi_defaults_OnChange, ?multi_defaults_OnEvent,
          ?multi_defaults_OnError; tauto. }
    apply Forall_app. split.
    + eapply Forall_impl; [apply multi_callable_event | exact Hconv].
    + constructor; [exact I|]. eapply Forall_impl; [exact Hr | exact Hconv].
Qed.

(** ** Debouncing in full, while the session is open *)

Lemma debounced_expired d w ts T t :
  w ≤ t → (∀ x, x ∈ ts → t ≤ x) → t ≤ T →
  no_tie d (Some w) ts →
  debounced d (Some w) ts T = w :: debounced d None ts T.
Proof.
  intros Hw Hts HT Hnt. destruct ts as [|t1 ts]; simpl.
  - rewrite (proj2 (Z.leb_le w T)) by lia. reflexivity.
  - destruct Hnt as [Hne _].
    assert (t ≤ t1) by (apply Hts; left).
    rewrite (proj2 (Z.ltb_lt w t1)) by lia. reflexivity.
Qed.

Lemma no_tie_None d w ts : no_tie d (Some w) ts → no_tie d None ts.
Proof. destruct ts; simpl; tauto. Qed.

Section debounce_law.
Context {S : Type}.
Variables (stepf : S → timed input → S * list Z).
Variables (nowf : S → Z) (timer : S → option Z) (watching : S → Prop).
Variables (pick : input → bool) (d T : Z).

Hypothesis pick_not_tick : ∀ i, pick i = true → is_tick i = false.
Hypothesis step_watching : ∀ s i,
  watching s → ends_session i.2 = false →
  watching (stepf s i).1
  ∧ nowf (stepf s i).1 = Z.max (nowf s) i.1
  ∧ (stepf s i).2 = fired true (is_tick i.2) (Z.max (nowf s) i.1) (timer s)
  ∧ timer (stepf s i).1
    = if pick i.2 then Some (timer_when (Z.max (nowf s) i.1) d)
      else remaining true (is_tick i.2) (Z.max (nowf s) i.1) (timer s).

Lemma debounce_law ins : ∀ s,
  watching s →
  stays_open ins →
  ascending (nowf s) (ins.*1 ++ [T]) →
  no_tie d (timer s) (times_of pick ins) →
  (iterate stepf s (ins ++ [(T, Tick)])).2
  = debounced d (timer s) (times_of pick ins) T.
Proof.
  induction ins as [|[t inp] ins IH]; intros s Hw Hopen Hasc Hnt.
  - simpl in *. destruct Hasc as [Hle _].
    destruct (step_watching s (T, Tick) Hw eq_refl) as (_ & _ & Hout & _).
    destruct (stepf s (T, Tick)) as [s1 out1]. simpl in *.
    rewrite app_nil_r, Hout, Z.max_r by exact Hle.
    destruct (timer s) as [w|]; reflexivity.
  - apply Forall_cons in Hopen as [Hend Hopen]. cbn [snd] in Hend.
    rewrite fmap_cons in Hasc. cbn [fst app ascending] in Hasc.
    destruct Hasc as [Hle Hasc].
    destruct (step_watching s (t, inp) Hw Hend) as (Hw1 & Hn1 & Hout & Htm1).
    cbn [fst snd] in Hn1, Hout, Htm1.
    rewrite Z.max_r in Hn1, Hout, Htm1 by exact Hle.
    cbn [app iterate]. destruct (stepf s (t, inp)) as [s1 out1].
    cbn [fst snd] in Hw1, Hn1, Hout, Htm1.
    specialize (IH s1 Hw1 Hopen).
    rewrite Hn1 in IH. specialize (IH Hasc).
    destruct (iterate stepf s1 (ins ++ [(T, Tick)])) as [s2 out2].
    cbn [fst snd] in IH |- *.
    assert (Hlater : ∀ x, x ∈ times_of pick ins → t ≤ x).
    { intros x Hx. apply (ascending_elem_of (ins.*1 ++ [T])); [exact Hasc|].
      apply elem_of_app. left. apply (times_of_subseteq pick). exact Hx. }
    assert (HT : t ≤ T).
    { apply (ascending_elem_of (ins.*1 ++ [T])); [exact Hasc|].
      apply elem_of_app. right. left. }
    rewrite times_of_cons in Hnt |- *.
    set (ts := times_of pick ins) in *.
    destruct (pick inp) eqn:Hp.
    + rewrite (pick_not_tick _ Hp) in Hout.
      cbn [no_tie] in Hnt. destruct Hnt as [_ Hnt].
      rewrite Htm1 in IH. rewrite Hout, (IH Hnt).
      destruct (timer s) as [w|]; reflexivity.
    + destruct (timer s) as [w|] eqn:Htm.
      * destruct (due (is_tick inp) t w) eqn:Hd.
        -- unfold remaining, fired in Hout, Htm1. rewrite Hd in Hout, Htm1.
           cbn [andb] in Hout, Htm1. rewrite Htm1 in IH.
           rewrite Hout, (IH (no_tie_None _ _ _ Hnt)).
           rewrite (debounced_expired d w ts T t (due_le _ _ _ Hd) Hlater HT Hnt).
           reflexivity.
        -- rewrite (fired_not_due _ _ _ _ Hd) in Hout.
           rewrite (remaining_not_due _ _ _ _ Hd) in Htm1.
           rewrite Htm1 in IH. rewrite Hout, (IH Hnt). reflexivity.
      * cbn [fired remaining] in Hout, Htm1. rewrite Htm1 in IH.
        rewrite Hout, (IH Hnt). reflexivity.
Qed.

End debounce_law.

Lemma can_send_nonempty cfg : Multi.TargetFiles cfg ≠ [] → can_send cfg = true.
Proof.
  unfold can_send. destruct (Multi.TargetFiles cfg); [congruence|reflexivity].
Qed.

(** X4.  The law of debouncing.  In a session that is in its event loop and
    stays open, the instants at which the change callback is invoked (for
    a target) are determined by the timer pending at the start and the
    instants of the relevant events (of that target): a timer that was
    armed is delivered exactly when no relevant event re-arms it before it
    expires; whatever else is received makes no difference.  Events that
    fall on the very instant of an expiry are left out, as the order of the
    two is not determined. *)
Theorem debounce_in_an_open_session :
  (∀ cfg s db ins T,
     Single.at_pc s = Single.AtSelect db →
     stays_open ins →
     ascending (Single.now s) (ins.*1 ++ [T]) →
     no_tie (Single.Debounce cfg) db (target_event_times cfg ins) →
     changes (Single.run cfg s (ins ++ [(T, Tick)])).2
     = debounced (Single.Debounce cfg) db (target_event_times cfg ins) T)
  ∧ (∀ cfg dirToFiles s tm f ins T,
     Multi.at_pc s = Multi.AtSelect tm →
     Multi.TargetFiles cfg ≠ [] →
     stays_open ins →
     ascending (Multi.now s) (ins.*1 ++ [T]) →
     no_tie (Multi.Debounce cfg) (tm !! f) (event_times cfg f ins) →
     changes_of f (Multi.run cfg dirToFiles s (ins ++ [(T, Tick)])).2
     = debounced (Multi.Debounce cfg) (tm !! f) (event_times cfg f ins) T).
Proof.
  split.
  - intros cfg s db ins T Hpc Hopen Hasc Hnt.
    rewrite <- watch_view_run.
    rewrite (debounce_law (watch_view cfg) Single.now
               (λ s, debounce_timer (Single.at_pc s))
               (λ s, ∃ db, Single.at_pc s = Single.AtSelect db)
               (touches_target cfg) (Single.Debounce cfg) T
               (touches_target_not_tick cfg) (watch_view_watching cfg) ins s).
    + rewrite Hpc. reflexivity.
    + eauto.
    + exact Hopen.
    + exact Hasc.
    + rewrite Hpc. exact Hnt.
  - intros cfg dtf s tm f ins T Hpc Hne Hopen Hasc Hnt.
    pose proof (can_send_nonempty cfg Hne) as Hcan.
    rewrite <- target_view_run.
    rewrite (debounce_law (target_view cfg dtf f) Multi.now
               (λ s, armed f (Multi.at_pc s))
               (λ s, in_select (Multi.at_pc s) = true)
               (touches cfg f) (Multi.Debounce cfg) T
               (touches_not_tick cfg f)
               (λ s i, target_view_watching cfg dtf f s i Hcan) ins s).
    + rewrite Hpc. reflexivity.
    + rewrite Hpc. reflexivity.
    + exact Hopen.
    + exact Hasc.
    + rewrite Hpc. exact Hnt.
Qed.

Lemma debounced_apart d T ts : ∀ timer,
  0 < d →
  apart d ts →
  (∀ w t1, timer = Some w → head ts = Some t1 → w < t1) →
  (∀ x, settle d timer ts = Some x → x ≤ T) →
  no_tie d timer ts
  ∧ debounced d timer ts T = option_list timer ++ ((λ t, t + d) <$> ts).
Proof.
  induction ts as [|t ts IH]; intros timer Hd Hap Hchain Hfin.
  - split; [exact I|]. simpl. destruct timer as [w|]; [|reflexivity].
    rewrite (proj2 (Z.leb_le w T)) by (apply Hfin; reflexivity). reflexivity.
  - cbn [apart] in Hap. destruct Hap as [Hgap Hap].
    assert (Hwhen : timer_when t d = t + d).
    { unfold timer_when. rewrite Z.max_r by lia. reflexivity. }
    destruct (IH (Some (t + d)) Hd Hap) as [Hnt Heq].
    + intros w t1 Hw Ht1. inversion Hw; subst w.
      destruct ts as [|t2 ts']; [discriminate|].
      simpl in Ht1. inversion Ht1; subst t2. lia.
    + intros x Hx. apply Hfin. rewrite settle_cons. exact Hx.
    + cbn [no_tie debounced]. rewrite Hwhen. split.
      * split; [|exact Hnt]. destruct timer as [w|]; [|exact I].
        specialize (Hchain w t eq_refl eq_refl). lia.
      * rewrite Heq, fmap_cons. destruct timer as [w|]; [|reflexivity].
        specialize (Hchain w t eq_refl eq_refl).
        rewrite (proj2 (Z.ltb_lt w t)) by lia. reflexivity.
Qed.

(** X5.  Relevant events that are further apart than the settle delay are
    notified one by one: in an open session with no timer pending, when
    each relevant event (of the target) comes more than the settle delay
    after the one before it, the change callback is invoked once for each
    of them, the settle delay after it. *)
Theorem events_apart_are_notified_one_by_one :
  (∀ cfg s ins T,
     Single.at_pc s = Single.AtSelect None →
     0 < Single.Debounce cfg →
     stays_open ins →
     ascending (Single.now s) (ins.*1 ++ [T]) →
     apart (Single.Debounce cfg) (target_event_times cfg ins) →
     (∀ tN, last (target_event_times cfg ins) = Some tN →
            tN + Single.Debounce cfg ≤ T) →
     changes (Single.run cfg s (ins ++ [(T, Tick)])).2
     = (λ t, t + Single.Debounce cfg) <$> target_event_times cfg ins)
  ∧ (∀ cfg dirToFiles s tm f ins T,
     Multi.at_pc s = Multi.AtSelect tm →
     tm !! f = None →
     0 < Multi.Debounce cfg →
     stays_open ins →
     ascending (Multi.now s) (ins.*1 ++ [T]) →
     apart (Multi.Debounce cfg) (event_times cfg f ins) →
     (∀ tN, last (event_times cfg f ins) = Some tN →
            tN + Multi.Debounce cfg ≤ T) →
     changes_of f (Multi.run cfg dirToFiles s (ins ++ [(T, Tick)])).2
     = (λ t, t + Multi.Debounce cfg) <$> event_times cfg f ins).
Proof.
  split.
  - intros cfg s ins T Hpc Hpos Hopen Hasc Hap Hfin.
    destruct (debounced_apart (Single.Debounce cfg) T
                (target_event_times cfg ins) None Hpos Hap) as [Hnt Heq].
    { intros w t1 Hw. discriminate. }
    { unfold settle. intros x Hx.
      destruct (last (target_event_times cfg ins)) as [tN|] eqn:Hl;
        [|discriminate].
      inversion Hx; subst x. apply Hfin. reflexivity. }
    cbn [option_list option_rect app] in Heq.
    rewrite <- Heq, <- watch_view_run.
    rewrite (debounce_law (watch_view cfg) Single.now
               (λ s, debounce_timer (Single.at_pc s))
               (λ s, ∃ db, Single.at_pc s = Single.AtSelect db)
               (touches_target cfg) (Single.Debounce cfg) T
               (touches_target_not_tick cfg) (watch_view_watching cfg) ins s).
    + rewrite Hpc. reflexivity.
    + eauto.
    + exact Hopen.
    + exact Hasc.
    + rewrite Hpc. exact Hnt.
  - intros cfg dtf s tm f ins T Hpc Hidle Hpos Hopen Hasc Hap Hfin.
    destruct (debounced_apart (Multi.Debounce cfg) T
                (event_times cfg f ins) None Hpos Hap) as [Hnt Heq].
    { intros w t1 Hw. discriminate. }
    { unfold settle. intros x Hx.
      destruct (last (event_times cfg f ins)) as [tN|] eqn:Hl; [|discriminate].
      inversion Hx; subst x. apply Hfin. reflexivity. }
    cbn [option_list option_rect app] in Heq. rewrite <- Heq.
    destruct (event_times cfg f ins) as [|t0 ts0] eqn:Hts.
    + (* no event of the target: nothing is pending, nothing is invoked *)
      assert (Hnone : Forall (λ i, touches cfg f i.2 = false)
                        (ins ++ [(T, Tick)])).
      { apply Forall_app. split; [|repeat constructor].
        apply Forall_forall. intros [t i] Hin. cbn [snd].
        destruct (touches cfg f i) eqn:Ht; [|reflexivity].
        assert (Hel : t ∈ event_times cfg f ins).
        { unfold event_times, times_of. apply list_elem_of_fmap.
          exists (t, i). split; [reflexivity|].
          apply list_elem_of_filter. split; [exact Ht | exact Hin]. }
        rewrite Hts in Hel. apply elem_of_nil in Hel. destruct Hel. }
      apply (multi_idle_run cfg dtf f (ins ++ [(T, Tick)]) s);
        [rewrite Hpc; exact Hidle | exact Hnone].
    + assert (Hcan : can_send cfg = true).
      { destruct (last (t0 :: ts0)) as [tN|] eqn:Hl.
        - apply (times_of_last_can_send cfg f ins tN). rewrite Hts. exact Hl.
        - apply last_None in Hl. discriminate. }
      rewrite <- Hts in *. rewrite <- target_view_run.
      rewrite (debounce_law (target_view cfg dtf f) Multi.now
                 (λ s, armed f (Multi.at_pc s))
                 (λ s, in_select (Multi.at_pc s) = true)
                 (touches cfg f) (Multi.Debounce cfg) T
                 (touches_not_tick cfg f)
                 (λ s i, target_view_watching cfg dtf f s i Hcan) ins s).
      * rewrite Hpc. simpl. rewrite Hidle. reflexivity.
      * rewrite Hpc. reflexivity.
      * exact Hopen.
      * exact Hasc.
      * rewrite Hpc. simpl. rewrite Hidle. exact Hnt.
Qed.

(** ** Every notification follows a quiet settle delay, in every run *)

Section accounting.
Context {S : Type}.
Variables (stepf : S → timed input → S * list Z).
Variables (nowf : S → Z) (timer : S → option Z).
Variables (pick : input → bool) (d : Z).

Hypothesis step_account : ∀ s i,
  (nowf (stepf s i).1 = nowf s ∨ nowf (stepf s i).1 = Z.max (nowf s) i.1)
  ∧ ((stepf s i).2 = []
     ∨ ∃ w, timer s = Some w ∧ (stepf s i).2 = [w] ∧ w ≤ Z.max (nowf s) i.1)
  ∧ (timer (stepf s i).1 = None
     ∨ (pick i.2 = false ∧ (stepf s i).2 = [] ∧ timer (stepf s i).1 = timer s)
     ∨ (pick i.2 = true
        ∧ timer (stepf s i).1 = Some (timer_when (Z.max (nowf s) i.1) d))).

Lemma account_count ins : ∀ s,
  (length (iterate stepf s ins).2
   ≤ length (option_list (timer s)) + length (times_of pick ins))%nat.
Proof.
  induction ins as [|[t inp] ins IH]; intros s; cbn [iterate].
  - simpl. lia.
  - destruct (step_account s (t, inp)) as (_ & Hout & Htm).
    destruct (stepf s (t, inp)) as [s1 out1]. cbn [fst snd] in Hout, Htm.
    specialize (IH s1).
    destruct (iterate stepf s1 ins) as [s2 out2]. cbn [fst snd] in *.
    rewrite times_of_cons, length_app.
    assert (Hpot : (length out1 + length (option_list (timer s1))
                    ≤ length (option_list (timer s))
                      + (if pick inp then 1 else 0))%nat).
    { destruct Htm as [Htm|[(Hp & Ho & Htm)|(Hp & Htm)]].
      - rewrite Htm. destruct Hout as [->|(w & Hw & -> & _)]; simpl; [lia|].
        rewrite Hw. simpl. lia.
      - rewrite Hp, Ho, Htm. simpl. lia.
      - rewrite Hp, Htm. destruct Hout as [->|(w & Hw & -> & _)]; simpl; [lia|].
        rewrite Hw. simpl. lia. }
    destruct (pick inp); simpl in *; lia.
Qed.

Lemma account_quiet ins : ∀ s from x,
  nowf s ≤ from →
  ascending from ins.*1 →
  x ∈ (iterate stepf s ins).2 →
  (timer s = Some x ∧ ∀ t', t' ∈ times_of pick ins → x ≤ t')
  ∨ (∃ t, t ∈ times_of pick ins ∧ x = timer_when t d
          ∧ ∀ t', t' ∈ times_of pick ins → t < t' → x ≤ t').
Proof.
  induction ins as [|[t inp] ins IH]; intros s from x Hnow Hasc Hx;
    cbn [iterate] in Hx.
  - apply elem_of_nil in Hx. destruct Hx.
  - rewrite fmap_cons in Hasc. cbn [fst ascending] in Hasc.
    destruct Hasc as [Hle Hasc].
    destruct (step_account s (t, inp)) as (Hn & Hout & Htm).
    cbn [fst snd] in Hn, Hout, Htm.
    rewrite Z.max_r in Hn, Hout, Htm by lia.
    destruct (stepf s (t, inp)) as [s1 out1]. cbn [fst snd] in Hn, Hout, Htm.
    specialize (IH s1 t x).
    destruct (iterate stepf s1 ins) as [s2 out2]. cbn [fst snd] in *.
    assert (Hlater : ∀ t', t' ∈ times_of pick ins → t ≤ t').
    { intros t' Ht'. apply (ascending_elem_of ins.*1); [exact Hasc|].
      apply (times_of_subseteq pick). exact Ht'. }
    assert (Hn1 : nowf s1 ≤ t) by (destruct Hn as [->| ->]; lia).
    rewrite times_of_cons.
    apply elem_of_app in Hx as [Hx|Hx].
    + destruct Hout as [->|(w & Hw & -> & Hdue)];
        [apply elem_of_nil in Hx; destruct Hx|].
      apply list_elem_of_singleton in Hx. subst x. left. split; [exact Hw|].
      intros t' Ht'. destruct (pick inp).
      * apply elem_of_cons in Ht' as [->|Ht']; [exact Hdue|].
        specialize (Hlater t' Ht'). lia.
      * specialize (Hlater t' Ht'). lia.
    + destruct (IH Hn1 Hasc Hx) as [[Hx1 Hq]|(t0 & Ht0 & Hxt & Hq)].
      * destruct Htm as [Htm|[(Hp & Ho & Htm)|(Hp & Htm)]].
        -- rewrite Htm in Hx1. discriminate.
        -- rewrite Hp. left. split; [rewrite <- Htm; exact Hx1 | exact Hq].
        -- rewrite Hp. right. exists t. rewrite Htm in Hx1.
           inversion Hx1; subst x. split; [left|]. split; [reflexivity|].
           intros t' Ht' Hlt. apply elem_of_cons in Ht' as [->|Ht']; [lia|].
           apply Hq. exact Ht'.
      * right. exists t0. specialize (Hlater t0 Ht0).
        destruct (pick inp).
        -- split; [right; exact Ht0|]. split; [exact Hxt|].
           intros t' Ht' Hlt. apply elem_of_cons in Ht' as [->|Ht']; [lia|].
           apply Hq; assumption.
        -- split; [exact Ht0|]. split; [exact Hxt | exact Hq].
Qed.

End accounting.

Lemma fired_cases ok incl t tm :
  fired ok incl t tm = []
  ∨ ∃ w, tm = Some w ∧ fired ok incl t tm = [w] ∧ w ≤ t.
Proof.
  destruct tm as [w|]; [|left; reflexivity]. simpl.
  destruct ok; simpl; [|left; reflexivity].
  destruct (due incl t w) eqn:Hd; [|left; reflexivity].
  right. exists w. split; [reflexivity|]. split; [reflexivity|].
  apply (due_le incl). exact Hd.
Qed.

Lemma remaining_cases ok incl t tm :
  remaining ok incl t tm = None
  ∨ (fired ok incl t tm = [] ∧ remaining ok incl t tm = tm).
Proof.
  destruct tm as [w|]; [|left; reflexivity]. simpl.
  destruct (ok && due incl t w); [left|right]; auto.
Qed.

(** From the description of a step by [fired] and [remaining] to the
    accounting of it. *)
Lemma account_of_spec ok incl t tm (sel pk ends : bool) fresh out tm' :
  out = fired ok incl t tm →
  tm' = (if sel
         then if pk then Some fresh
              else if ends then None else remaining ok incl t tm
         else None) →
  (out = [] ∨ ∃ w, tm = Some w ∧ out = [w] ∧ w ≤ t)
  ∧ (tm' = None
     ∨ (pk = false ∧ out = [] ∧ tm' = tm)
     ∨ (pk = true ∧ tm' = Some fresh)).
Proof.
  intros -> ->. split; [apply fired_cases|].
  destruct sel; [|left; reflexivity].
  destruct pk; [right; right; auto|].
  destruct ends; [left; reflexivity|].
  destruct (remaining_cases ok incl t tm) as [Hr|[Hf Hr]]; [left; exact Hr|].
  right. left. auto.
Qed.

Lemma changes_cons_other t a out :
  a ≠ CallOnChange → changes ((t, a) :: out) = changes out.
Proof.
  intros Hne. unfold changes. rewrite filter_cons_False by exact Hne.
  reflexivity.
Qed.

Lemma single_step_spec cfg s i :
  single_running (Single.at_pc s) →
  Single.now (Single.step cfg s i).1 = Z.max (Single.now s) i.1
  ∧ changes (Single.step cfg s i).2
    = fired true (is_tick i.2) (Z.max (Single.now s) i.1)
        (debounce_timer (Single.at_pc s))
  ∧ debounce_timer (Single.at_pc (Single.step cfg s i).1)
    = if match Single.at_pc s with Single.AtSelect _ => true | _ => false end
      then if touches_target cfg i.2
           then Some (timer_when (Z.max (Single.now s) i.1) (Single.Debounce cfg))
           else if ends_session i.2 then None
           else remaining true (is_tick i.2) (Z.max (Single.now s) i.1)
                  (debounce_timer (Single.at_pc s))
      else None.
Proof.
  intros Hrun. rewrite (single_step_running _ _ _ Hrun). unfold Single.advance.
  set (t := Z.max (Single.now s) i.1).
  destruct (Single.at_pc s) as [| |w|db|e]; [| | | |destruct Hrun].
  - destruct i as [ti [[r|]|[r|]|c|ev|[r|]|]]; simpl;
      rewrite ?changes_app, ?changes_call_if by discriminate; auto.
  - destruct i as [ti [[r|]|[r|]|c|ev|[r|]|]]; simpl;
      rewrite ?changes_app, ?changes_call_if by discriminate; auto.
  - cbn [Single.elapse]. destruct (due (is_tick i.2) t w);
      destruct i as [ti [[r|]|[r|]|c|ev|[r|]|]]; simpl;
      rewrite ?changes_cons_other by discriminate;
      rewrite ?changes_app, ?changes_call_if by discriminate; auto.
  - destruct (single_elapse_select cfg (is_tick i.2) t db) as (out1 & -> & Ho1).
    cbn [debounce_timer].
    destruct i as [ti [[r|]|[r|]|c|ev|[r|]|]]; cbn [fst snd is_tick] in *;
      cbn [Single.react touches_target ends_session];
      try destruct (Single.relevant cfg ev); cbn [fst snd Single.on_relevant];
      cbn [Single.now Single.at_pc debounce_timer];
      rewrite ?changes_app, ?changes_call_if, ?app_nil_r by discriminate;
      rewrite ?Ho1; auto.
Qed.

Lemma single_running_or_returned p :
  single_running p ∨ ∃ e, p = Single.Returned e.
Proof. destruct p; simpl; eauto. Qed.

Lemma watch_view_account cfg s i :
  (Single.now (watch_view cfg s i).1 = Single.now s
   ∨ Single.now (watch_view cfg s i).1 = Z.max (Single.now s) i.1)
  ∧ ((watch_view cfg s i).2 = []
     ∨ ∃ w, debounce_timer (Single.at_pc s) = Some w
            ∧ (watch_view cfg s i).2 = [w] ∧ w ≤ Z.max (Single.now s) i.1)
  ∧ (debounce_timer (Single.at_pc (watch_view cfg s i).1) = None
     ∨ (touches_target cfg i.2 = false ∧ (watch_view cfg s i).2 = []
        ∧ debounce_timer (Single.at_pc (watch_view cfg s i).1)
          = debounce_timer (Single.at_pc s))
     ∨ (touches_target cfg i.2 = true
        ∧ debounce_timer (Single.at_pc (watch_view cfg s i).1)
          = Some (timer_when (Z.max (Single.now s) i.1) (Single.Debounce cfg)))).
Proof.
  unfold watch_view. cbn [fst snd].
  destruct (single_running_or_returned (Single.at_pc s)) as [Hr|[e He]].
  - destruct (single_step_spec cfg s i Hr) as (Hn & Hc & Ht).
    split; [right; exact Hn|].
    exact (account_of_spec _ _ _ _ _ _ _ _ _ _ Hc Ht).
  - unfold Single.step. rewrite He. cbn [fst snd]. rewrite He.
    split; [left; reflexivity|]. split; left; reflexivity.
Qed.

Lemma target_view_account cfg dtf f s i :
  (Multi.now (target_view cfg dtf f s i).1 = Multi.now s
   ∨ Multi.now (target_view cfg dtf f s i).1 = Z.max (Multi.now s) i.1)
  ∧ ((target_view cfg dtf f s i).2 = []
     ∨ ∃ w, armed f (Multi.at_pc s) = Some w
            ∧ (target_view cfg dtf f s i).2 = [w] ∧ w ≤ Z.max (Multi.now s) i.1)
  ∧ (armed f (Multi.at_pc (target_view cfg dtf f s i).1) = None
     ∨ (touches cfg f i.2 = false ∧ (target_view cfg dtf f s i).2 = []
        ∧ armed f (Multi.at_pc (target_view cfg dtf f s i).1)
          = armed f (Multi.at_pc s))
     ∨ (touches cfg f i.2 = true
        ∧ armed f (Multi.at_pc (target_view cfg dtf f s i).1)
          = Some (timer_when (Z.max (Multi.now s) i.1) (Multi.Debounce cfg)))).
Proof.
  unfold target_view. cbn [fst snd].
  destruct (multi_running_or_returned (Multi.at_pc s)) as [Hr|[e He]].
  - destruct (multi_step_spec cfg dtf s i f Hr) as (Hn & Hc & Ht).
    split; [right; exact Hn|].
    exact (account_of_spec _ _ _ _ _ _ _ _ _ _ Hc Ht).
  - rewrite (multi_step_stays_returned _ _ _ _ _ He). cbn [fst snd]. rewrite He.
    split; [left; reflexivity|]. split; left; reflexivity.
Qed.

Lemma touches_target_defaults cfg i :
  touches_target (Single.with_defaults cfg) i = touches_target cfg i.
Proof.
  destruct i; try reflexivity. unfold touches_target, Single.relevant.
  destruct (single_defaults_callbacks cfg) as (_ & _ & ->). reflexivity.
Qed.

Lemma touches_defaults cfg f i :
  touches (Multi.with_defaults cfg) f i = touches cfg f i.
Proof.
  destruct i; try reflexivity. unfold touches.
  rewrite multi_defaults_TargetFiles. reflexivity.
Qed.

Lemma times_of_ext pick1 pick2 ins :
  (∀ i, pick1 i = pick2 i) → times_of pick1 ins = times_of pick2 ins.
Proof.
  intros Hext. induction ins as [|[t i] ins IH]; [reflexivity|].
  rewrite !times_of_cons, Hext, IH. reflexivity.
Qed.

Lemma changes_of_cons_other f t a out :
  a ≠ CallOnChangeFile f → changes_of f ((t, a) :: out) = changes_of f out.
Proof.
  intros Hne. unfold changes_of. rewrite filter_cons_False by exact Hne.
  reflexivity.
Qed.

Lemma watch_count cfg ins :
  (length (changes (Single.Watch cfg ins).2)
   ≤ length (target_event_times cfg ins))%nat.
Proof.
  unfold Single.Watch.
  destruct (negb (Single.OnChange (Single.with_defaults cfg))); [simpl; lia|].
  unfold Single.session_loop.
  pose proof (watch_view_run (Single.with_defaults cfg) ins
                {| Single.now := 0; Single.at_pc := Single.AtNewWatcher;
                   Single.stale := [] |}) as Hv.
  destruct (Single.run _ _ ins) as [s out]. cbn [fst snd] in *.
  rewrite changes_cons_other by discriminate. rewrite <- Hv.
  unfold target_event_times.
  rewrite <- (times_of_ext _ _ ins (touches_target_defaults cfg)).
  apply (account_count _ _ _ _ _
           (watch_view_account (Single.with_defaults cfg))).
Qed.

(** X6.  What [Watch] notifies, in any run whose instants do not go back: the
    change callback is invoked only the settle delay after a relevant
    event of the target was received, and only if no relevant event was
    received in between; and it is invoked at most once for each relevant
    event received.  This holds across sessions, retries and the return. *)
Theorem watch_notifies_only_after_a_quiet_settle_delay cfg ins :
  (ascending 0 ins.*1 →
   ∀ x, x ∈ changes (Single.Watch cfg ins).2 →
        ∃ t, t ∈ target_event_times cfg ins
             ∧ x = timer_when t (Single.Debounce (Single.with_defaults cfg))
             ∧ ∀ t', t' ∈ target_event_times cfg ins → t < t' → x ≤ t')
  ∧ (length (changes (Single.Watch cfg ins).2)
     ≤ length (target_event_times cfg ins))%nat.
Proof.
  split; [|apply watch_count].
  unfold Single.Watch.
  destruct (negb (Single.OnChange (Single.with_defaults cfg))).
  { intros _ x Hx. apply elem_of_nil in Hx. destruct Hx. }
  unfold Single.session_loop.
  pose proof (watch_view_run (Single.with_defaults cfg) ins
                {| Single.now := 0; Single.at_pc := Single.AtNewWatcher;
                   Single.stale := [] |}) as Hv.
  destruct (Single.run _ _ ins) as [s out]. cbn [fst snd] in *.
  rewrite changes_cons_other by discriminate. rewrite <- Hv.
  unfold target_event_times.
  rewrite <- (times_of_ext _ _ ins (touches_target_defaults cfg)).
  intros Hasc x Hx.
  destruct (account_quiet _ _ _ _ _
              (watch_view_account (Single.with_defaults cfg)) ins
              {| Single.now := 0; Single.at_pc := Single.AtNewWatcher;
                 Single.stale := [] |} 0 x (Z.le_refl 0) Hasc Hx)
    as [[Hno _]|Hyes]; [discriminate | exact Hyes].
Qed.

(** X7.  The same for each path [f] and [WatchMultiple].  In a run in
    which no relevant event of [f] falls on the very instant at which the
    timer armed by the relevant event of [f] before it expires, the change
    callback is invoked for [f] only the settle delay after a relevant
    event of the target [f], with no relevant event of [f] in between.
    (On such an instant the callback of the timer can be in flight when the
    event is handled: [Stop] then fails, its result is not read, and the
    callback deletes the entry of the timer armed after it; this is where
    the code can do what the model does not.)  In every run the callback
    is invoked for [f] at most once for each relevant event of [f], and
    never for a path that is not a target. *)
Theorem watch_multiple_notifies_only_after_a_quiet_settle_delay cfg ins f :
  (ascending 0 ins.*1 →
   no_tie (Multi.Debounce (Multi.with_defaults cfg)) None
     (event_times cfg f ins) →
   ∀ x, x ∈ changes_of f (Multi.WatchMultiple cfg ins).2 →
        ∃ t, t ∈ event_times cfg f ins
             ∧ x = timer_when t (Multi.Debounce (Multi.with_defaults cfg))
             ∧ ∀ t', t' ∈ event_times cfg f ins → t < t' → x ≤ t')
  ∧ (length (changes_of f (Multi.WatchMultiple cfg ins).2)
     ≤ length (event_times cfg f ins))%nat
  ∧ (f ∉ Multi.TargetFiles cfg →
     changes_of f (Multi.WatchMultiple cfg ins).2 = []).
Proof.
  assert (Hmain :
    (ascending 0 ins.*1 →
     no_tie (Multi.Debounce (Multi.with_defaults cfg)) None
       (event_times cfg f ins) →
     ∀ x, x ∈ changes_of f (Multi.WatchMultiple cfg ins).2 →
          ∃ t, t ∈ event_times cfg f ins
               ∧ x = timer_when t (Multi.Debounce (Multi.with_defaults cfg))
               ∧ ∀ t', t' ∈ event_times cfg f ins → t < t' → x ≤ t')
    ∧ (length (changes_of f (Multi.WatchMultiple cfg ins).2)
       ≤ length (event_times cfg f ins))%nat).
  { unfold Multi.WatchMultiple.
    destruct (negb (Multi.OnChange (Multi.with_defaults cfg))).
    { split; [|simpl; lia]. intros _ _ x Hx. apply elem_of_nil in Hx.
      destruct Hx. }
    destruct (length _ =? 0)%nat.
    { split; [|simpl; lia]. intros _ _ x Hx. apply elem_of_nil in Hx.
      destruct Hx. }
    unfold Multi.session_loop.
    pose proof (target_view_run (Multi.with_defaults cfg)
                  (Multi.group_by_dir
                     (Multi.TargetFiles (Multi.with_defaults cfg))) f ins
                  {| Multi.now := 0; Multi.at_pc := Multi.AtNewWatcher;
                     Multi.stale := []; Multi.session := 0 |}) as Hv.
    destruct (Multi.run _ _ _ ins) as [s out]. cbn [fst snd] in *.
    rewrite changes_of_app, changes_of_call_if by discriminate.
    rewrite changes_of_cons_other by discriminate. cbn [app]. rewrite <- Hv.
    unfold event_times.
    rewrite <- (times_of_ext _ _ ins (touches_defaults cfg f)).
    split.
    - intros Hasc _ x Hx.
      destruct (account_quiet _ _ _ _ _
                  (target_view_account (Multi.with_defaults cfg) _ f) ins
                  {| Multi.now := 0; Multi.at_pc := Multi.AtNewWatcher;
                     Multi.stale := []; Multi.session := 0 |} 0 x
                  (Z.le_refl 0) Hasc Hx)
        as [[Hno _]|Hyes]; [discriminate | exact Hyes].
    - apply (account_count _ _ _ _ _
               (target_view_account (Multi.with_defaults cfg) _ f)). }
  destruct Hmain as [Hq Hc]. split; [exact Hq|]. split; [exact Hc|].
  intros Hnot.
  assert (Hnone : event_times cfg f ins = []).
  { clear -Hnot. unfold event_times.
    induction ins as [|[t i] ins' IH]; [reflexivity|].
    rewrite times_of_cons.
    assert (Ht : touches cfg f i = false).
    { destruct i; try reflexivity. unfold touches.
      rewrite (bool_decide_eq_false_2 (f ∈ Multi.TargetFiles cfg)) by exact Hnot.
      rewrite andb_false_r. reflexivity. }
    rewrite Ht. apply IH. }
  rewrite Hnone in Hc. simpl in Hc.
  destruct (changes_of f (Multi.WatchMultiple cfg ins).2); [reflexivity|].
  simpl in Hc. lia.
Qed.

(** ** Grouping and registration, in every run *)

Lemma group_fold_filter files : ∀ (m : gmap string (list string)) dir,
  foldl (λ (dirToFiles : gmap string (list string)) file,
           <[filepath_Dir file :=
               default [] (dirToFiles !! filepath_Dir file) ++ [file]]>
             dirToFiles) m files !! dir
  = match filter (λ file, filepath_Dir file = dir) files with
    | [] => m !! dir
    | l => Some (default [] (m !! dir) ++ l)
    end.
Proof.
  induction files as [|f files IH]; intros m dir; [reflexivity|].
  cbn [foldl]. rewrite IH.
  destruct (decide (filepath_Dir f = dir)) as [Heq|Hne].
  - rewrite filter_cons_True by exact Heq. rewrite Heq, lookup_insert_eq.
    cbn [default].
    destruct (filter _ files) as [|f1 l]; [reflexivity|].
    unfold id. rewrite <- app_assoc. reflexivity.
  - rewrite filter_cons_False by exact Hne.
    rewrite lookup_insert_ne by exact Hne. reflexivity.
Qed.

(** X8.  The grouping of lines 180-184 partitions the targets: the entry of a
    directory holds exactly the targets that [filepath.Dir] sends to it, in
    the order of [TargetFiles], and a directory of no target has no
    entry. *)
Theorem grouping_partitions_the_targets files dir :
  Multi.group_by_dir files !! dir
  = match filter (λ file, filepath_Dir file = dir) files with
    | [] => None
    | l => Some l
    end.
Proof.
  unfold Multi.group_by_dir. rewrite group_fold_filter, lookup_empty.
  reflexivity.
Qed.

Lemma added_neutral out : Forall (λ x, neutral x.2) out → added out = [].
Proof.
  induction out as [|[t a] out IH]; intros Hn; [reflexivity|].
  apply Forall_cons in Hn as [Ha Hn]. unfold added in *. cbn [omap].
  destruct a; simpl in *; try destruct Ha; apply IH; exact Hn.
Qed.

Lemma added_call_if b t a : neutral a → added (call_if b t a) = [].
Proof. intros Ha. apply added_neutral, neutral_call_if, Ha. Qed.

Lemma range_next_added t dirs (K : list string) :
  dirs ⊆ K →
  pending_dirs (Multi.range_next t dirs).1 ⊆ K
  ∧ added (Multi.range_next t dirs).2 ⊆ K.
Proof.
  intros Hsub. destruct dirs as [|d rest]; simpl.
  - split; apply list_subseteq_nil.
  - split; [exact Hsub|]. intros x Hx.
    apply list_elem_of_singleton in Hx. subst x. apply Hsub. left.
Qed.

Lemma multi_step_added cfg dtf s i :
  pending_dirs (Multi.at_pc s) ⊆ Multi.keys dtf →
  pending_dirs (Multi.at_pc (Multi.step cfg dtf s i).1) ⊆ Multi.keys dtf
  ∧ added (Multi.step cfg dtf s i).2 ⊆ Multi.keys dtf.
Proof.
  intros Hp.
  destruct (multi_running_or_returned (Multi.at_pc s)) as [Hr|[e He]].
  2: { rewrite (multi_step_stays_returned _ _ _ _ _ He). cbn [fst snd].
       split; [exact Hp | apply list_subseteq_nil]. }
  rewrite (multi_step_running _ _ _ _ Hr). unfold Multi.advance.
  set (t := Z.max (Multi.now s) i.1).
  set (st := Multi.elapse_stale cfg (is_tick i.2) t <$> Multi.stale s).
  assert (Hel : pending_dirs (Multi.elapse cfg (is_tick i.2) t (Multi.at_pc s)).1
                  ⊆ Multi.keys dtf
                ∧ added (Multi.elapse cfg (is_tick i.2) t (Multi.at_pc s)).2
                  ⊆ Multi.keys dtf).
  { destruct (Multi.at_pc s) as [|d rest|w|w rest|tm|e]; cbn [Multi.elapse];
      try (split; [exact Hp | apply list_subseteq_nil]).
    - destruct (due _ _ w); split; apply list_subseteq_nil.
    - destruct (due _ _ w); [apply range_next_added; exact Hp|].
      split; [exact Hp | apply list_subseteq_nil].
    - destruct (multi_elapse_neutral cfg (is_tick i.2) t tm)
        as (tm' & out & Hel & Hn).
      cbn [Multi.elapse] in Hel. rewrite Hel. cbn [fst snd pending_dirs].
      rewrite (added_neutral _ Hn). split; apply list_subseteq_nil. }
  destruct (Multi.elapse cfg (is_tick i.2) t (Multi.at_pc s)) as [p1 out1].
  cbn [fst snd] in Hel. destruct Hel as [Hp1 Ho1].
  assert (Hre : pending_dirs (Multi.react cfg dtf t p1 st (Multi.session s) i.2).1.1.1
                  ⊆ Multi.keys dtf
                ∧ added (Multi.react cfg dtf t p1 st (Multi.session s) i.2).2
                  ⊆ Multi.keys dtf).
  { destruct p1 as [|d rest|w|w rest|tm|e];
      destruct i.2 as [[r|]|[r|]|c|ev|[r|]|]; cbn [Multi.react fst snd];
      try (split; [exact Hp1 | apply list_subseteq_nil]).
    all: try (rewrite ?added_app, ?added_call_if by exact I;
              split; apply list_subseteq_nil).
    all: try (rewrite ?added_app, ?added_call_if by exact I;
              split; [|apply list_subseteq_nil];
              intros x Hx; apply Hp1; right; exact Hx).
    - pose proof (range_next_added t
                    (map_range (Multi.session s) (Multi.keys dtf))
                    (Multi.keys dtf)) as Hr'.
      destruct (Multi.range_next _ _) as [p' out']. apply Hr'.
      intros x Hx. rewrite (map_range_perm _ _) in Hx. exact Hx.
    - pose proof (range_next_added t rest (Multi.keys dtf)) as Hr'.
      destruct (Multi.range_next _ _) as [p' out']. cbn [fst snd] in *.
      rewrite added_app, added_call_if by exact I.
      apply Hr'. intros x Hx. apply Hp1. right. exact Hx.
    - pose proof (neutral_on_event cfg t ev (Multi.TargetFiles cfg) tm) as Hn.
      destruct (Multi.on_event _ _ _ _ _) as [tm' out']. cbn [fst snd] in *.
      rewrite (added_neutral _ Hn). split; apply list_subseteq_nil. }
  destruct (Multi.react _ _ _ _ _ _ _) as [[[p2 st2] n2] out2].
  cbn [fst snd Multi.at_pc] in *. destruct Hre as [Hp2 Ho2].
  split; [exact Hp2|]. rewrite added_app. intros x Hx.
  apply elem_of_app in Hx as [Hx|Hx]; [apply Ho1 | apply Ho2]; exact Hx.
Qed.

Lemma multi_run_added cfg dtf ins : ∀ s,
  pending_dirs (Multi.at_pc s) ⊆ Multi.keys dtf →
  added (Multi.run cfg dtf s ins).2 ⊆ Multi.keys dtf.
Proof.
  induction ins as [|i ins IH]; intros s Hp; cbn [Multi.run].
  - apply list_subseteq_nil.
  - destruct (multi_step_added cfg dtf s i Hp) as [Hp1 Ho1].
    destruct (Multi.step cfg dtf s i) as [s1 out1]. cbn [fst snd] in *.
    specialize (IH s1 Hp1).
    destruct (Multi.run cfg dtf s1 ins) as [s2 out2]. cbn [fst snd] in *.
    rewrite added_app. intros x Hx.
    apply elem_of_app in Hx as [Hx|Hx]; [apply Ho1 | apply IH]; exact Hx.
Qed.

Lemma single_step_added cfg s i :
  Forall (λ d, d = filepath_Dir (Single.TargetFile cfg))
    (added (Single.step cfg s i).2).
Proof.
  unfold Single.step, Single.advance.
  destruct (Single.at_pc s) as [| |w|[w|]|e]; simpl; [| | | | |constructor];
    try destruct (due _ _ w); simpl;
    destruct i as [t [[r|]|[r|]|c|ev|[r|]|]]; simpl;
    try destruct (Single.relevant cfg ev); simpl;
    destruct (Single.OnEvent cfg), (Single.OnError cfg); repeat constructor.
Qed.

Lemma single_run_added cfg ins : ∀ s,
  Forall (λ d, d = filepath_Dir (Single.TargetFile cfg))
    (added (Single.run cfg s ins).2).
Proof.
  induction ins as [|i ins IH]; intros s; cbn [Single.run]; [constructor|].
  pose proof (single_step_added cfg s i) as Hst.
  destruct (Single.step cfg s i) as [s1 out1]. specialize (IH s1).
  destruct (Single.run cfg s1 ins) as [s2 out2]. cbn [fst snd] in *.
  rewrite added_app. apply Forall_app. split; assumption.
Qed.

Lemma watch_added cfg ins d :
  d ∈ added (Single.Watch cfg ins).2 → d = filepath_Dir (Single.TargetFile cfg).
Proof.
  intros Hd. unfold Single.Watch in Hd.
  destruct (negb _); [apply elem_of_nil in Hd; destruct Hd|].
  unfold Single.session_loop in Hd.
  pose proof (single_run_added (Single.with_defaults cfg) ins
                {| Single.now := 0; Single.at_pc := Single.AtNewWatcher;
                   Single.stale := [] |}) as Hr.
  destruct (Single.run _ _ ins) as [s out]. cbn [fst snd] in *.
  change (added ((0, CallNewWatcher) :: out)) with (added out) in Hd.
  rewrite Forall_forall in Hr. rewrite (Hr d Hd).
  destruct (single_defaults_callbacks cfg) as (_ & _ & ->). reflexivity.
Qed.

(** X9.  Whatever happens, [Watch] gives [w.Add] nothing but the directory of
    its target, and [WatchMultiple] nothing but directories of its
    targets. *)
Theorem only_the_directories_of_the_targets_are_registered :
  (∀ cfg ins d,
     d ∈ added (Single.Watch cfg ins).2 →
     d = filepath_Dir (Single.TargetFile cfg))
  ∧ (∀ cfg ins d,
     d ∈ added (Multi.WatchMultiple cfg ins).2 →
     ∃ file, file ∈ Multi.TargetFiles cfg ∧ d = filepath_Dir file).
Proof.
  split; intros cfg ins d Hd.
  - apply (watch_added cfg ins d Hd).
  - unfold Multi.WatchMultiple in Hd.
    destruct (negb _); [apply elem_of_nil in Hd; destruct Hd|].
    destruct (length _ =? 0)%nat; [apply elem_of_nil in Hd; destruct Hd|].
    unfold Multi.session_loop in Hd.
    pose proof (multi_run_added (Multi.with_defaults cfg)
                  (Multi.group_by_dir
                     (Multi.TargetFiles (Multi.with_defaults cfg))) ins
                  {| Multi.now := 0; Multi.at_pc := Multi.AtNewWatcher;
                     Multi.stale := []; Multi.session := 0 |}
                  (list_subseteq_nil _)) as Hr.
    destruct (Multi.run _ _ _ ins) as [s out]. cbn [fst snd] in *.
    rewrite added_app, added_call_if in Hd by exact I.
    change (added ((0, CallNewWatcher) :: out)) with (added out) in Hd.
    cbn [app] in Hd. apply Hr in Hd.
    apply group_by_dir_keys in Hd. rewrite multi_defaults_TargetFiles in Hd.
    exact Hd.
Qed.

(** ** SelfMonitor *)

Lemma watch_returned cfg ins e :
  Single.at_pc (Single.Watch cfg ins).1 = Single.Returned e →
  (e = errors_New "OnChange callback must be set" ∧ Single.OnChange cfg = false)
  ∨ (∃ t c, e = ctx_Err c ∧ (t, CtxDone c) ∈ ins).
Proof.
  unfold Single.Watch. rewrite single_defaults_OnChange.
  destruct (Single.OnChange cfg) eqn:Hc; simpl.
  - unfold Single.session_loop.
    destruct (Single.run _ _ ins) as [s out] eqn:Hrun. simpl. intros Hret.
    right.
    destruct (single_run_returned (Single.with_defaults cfg) ins
                {| Single.now := 0; Single.at_pc := Single.AtNewWatcher;
                   Single.stale := [] |} e I)
      as (t & c & Hin & He).
    { rewrite Hrun. exact Hret. }
    exists t, c. split; [exact He | exact Hin].
  - intros Hret. inversion Hret. left. split; reflexivity.
Qed.

Lemma times_of_nonempty pick ins :
  times_of pick ins ≠ [] → ∃ t i, (t, i) ∈ ins ∧ pick i = true.
Proof.
  induction ins as [|[t i] ins IH]; [intros []; reflexivity|].
  rewrite times_of_cons. destruct (pick i) eqn:Hp.
  - intros _. exists t, i. split; [left | exact Hp].
  - intros Hne. destruct (IH Hne) as (t' & i' & Hin & Hp').
    exists t', i'. split; [right; exact Hin | exact Hp'].
Qed.

(** X10.  [SelfMonitor] is [Watch] on the path of the executable.  When
    [os.Executable] fails its error is what [SelfMonitor] gives back and
    nothing else has happened.  Otherwise only the directory of the
    executable is registered; [OnReload] is invoked only if it is set and a
    relevant event whose path is the executable was received, and not more
    often than such events were received; and what is returned is the
    configuration error, when [OnReload] is nil, or [ctx.Err()] after a
    cancellation. *)
Theorem self_monitor_watches_the_executable os_Executable cfg ins :
  match Self.SelfMonitor os_Executable cfg ins with
  | Self.ExecutableError code => os_Executable = inl code
  | Self.Watched r =>
      ∃ executable,
        os_Executable = inr executable
        ∧ (∀ d, d ∈ added r.2 → d = filepath_Dir executable)
        ∧ (changes r.2 ≠ [] →
           Self.OnReload cfg = true
           ∧ ∃ t ev, (t, RecvEvent ev) ∈ ins ∧ Name ev = executable
                     ∧ op_relevant (Op ev) = true)
        ∧ (length (changes r.2)
           ≤ length (target_event_times (Self.config executable cfg) ins))%nat
        ∧ (∀ e, Single.at_pc r.1 = Single.Returned e →
                (e = errors_New "OnChange callback must be set"
                 ∧ Self.OnReload cfg = false)
                ∨ (∃ t c, e = ctx_Err c ∧ (t, CtxDone c) ∈ ins))
  end.
Proof.
  destruct os_Executable as [code|executable]; cbn [Self.SelfMonitor];
    [reflexivity|].
  exists executable. split; [reflexivity|].
  set (c := Self.config executable cfg).
  split; [intros d Hd; apply (watch_added c ins d Hd)|].
  split; [|split; [apply watch_count | apply (watch_returned c ins)]].
  intros Hne. split.
  - destruct (Self.OnReload cfg) eqn:Hre; [reflexivity|].
    exfalso. apply Hne. unfold Single.Watch.
    rewrite single_defaults_OnChange. cbn [c Self.config Single.OnChange].
    rewrite Hre. reflexivity.
  - pose proof (watch_count c ins) as Hc.
    destruct (times_of_nonempty (touches_target c) ins) as (t & i & Hin & Hp).
    { fold (target_event_times c ins).
      destruct (target_event_times c ins); [|discriminate].
      destruct (changes (Single.Watch c ins).2); [congruence|].
      simpl in Hc. lia. }
    destruct i as [| | |ev| |]; try discriminate.
    cbn [touches_target] in Hp. unfold Single.relevant in Hp.
    apply andb_true_iff in Hp as [Hname Hop].
    apply String.eqb_eq in Hname.
    exists t, ev. split; [exact Hin|]. split; [exact Hname | exact Hop].
Qed.

(** ** The wait before a retry *)

Lemma due_before incl t w : t < w → due incl t w = false.
Proof. intros Hlt. destruct incl; simpl; lia. Qed.

Lemma single_retry_quiet cfg w ins : ∀ s,
  Single.at_pc s = Single.AtRetry w →
  Single.now s < w →
  Forall (λ j : timed input, j.1 < w ∧ ∀ c, j.2 ≠ CtxDone c) ins →
  (Single.run cfg s ins).2 = []
  ∧ Single.at_pc (Single.run cfg s ins).1 = Single.AtRetry w
  ∧ Single.now (Single.run cfg s ins).1 < w.
Proof.
  induction ins as [|[t i] ins IH]; intros s Hpc Hnow Hq; cbn [Single.run].
  - auto.
  - apply Forall_cons in Hq as [[Ht Hi] Hq]. cbn [fst snd] in Ht, Hi.
    assert (Hst : ∃ st, Single.step cfg s (t, i)
                        = ({| Single.now := Z.max (Single.now s) t;
                              Single.at_pc := Single.AtRetry w;
                              Single.stale := st |}, [])).
    { unfold Single.step, Single.advance. rewrite Hpc. cbn [fst snd Single.elapse].
      rewrite due_before by lia.
      destruct i as [[r|]|[r|]|c|ev|[r|]|]; cbn [Single.react];
        try (eexists; reflexivity).
      destruct (Hi c eq_refl). }
    destruct Hst as [st ->].
    specialize (IH {| Single.now := Z.max (Single.now s) t;
                      Single.at_pc := Single.AtRetry w; Single.stale := st |}
                  eq_refl ltac:(simpl; lia) Hq).
    destruct (Single.run _ _ ins) as [s2 out2]. exact IH.
Qed.

Lemma single_retry_over cfg w s T :
  Single.at_pc s = Single.AtRetry w →
  w ≤ T →
  (Single.step cfg s (T, Tick)).2 = [(w, CallNewWatcher)]
  ∧ Single.at_pc (Single.step cfg s (T, Tick)).1 = Single.AtNewWatcher.
Proof.
  intros Hpc Hle. unfold Single.step, Single.advance. rewrite Hpc.
  cbn [fst snd Single.elapse is_tick].
  assert (Hd : due true (Z.max (Single.now s) T) w = true)
    by (simpl; lia).
  rewrite Hd. split; reflexivity.
Qed.

Lemma single_run_app cfg ins1 ins2 s :
  Single.run cfg s (ins1 ++ ins2)
  = ((Single.run cfg (Single.run cfg s ins1).1 ins2).1,
     (Single.run cfg s ins1).2 ++ (Single.run cfg (Single.run cfg s ins1).1 ins2).2).
Proof.
  revert s. induction ins1 as [|i ins1 IH]; intros s; cbn [app Single.run].
  - cbn [fst snd app]. destruct (Single.run cfg s ins2). reflexivity.
  - destruct (Single.step cfg s i) as [s1 out1]. rewrite IH.
    destruct (Single.run cfg s1 ins1) as [s2 out2]. cbn [fst snd].
    destruct (Single.run cfg s2 ins2) as [s3 out3]. cbn [fst snd].
    rewrite app_assoc. reflexivity.
Qed.

Lemma multi_retry_quiet cfg dtf w ins : ∀ s,
  Multi.at_pc s = Multi.AtRetryNew w →
  Multi.now s < w →
  Forall (λ j : timed input, j.1 < w ∧ ∀ c, j.2 ≠ CtxDone c) ins →
  (Multi.run cfg dtf s ins).2 = []
  ∧ Multi.at_pc (Multi.run cfg dtf s ins).1 = Multi.AtRetryNew w
  ∧ Multi.now (Multi.run cfg dtf s ins).1 < w.
Proof.
  induction ins as [|[t i] ins IH]; intros s Hpc Hnow Hq; cbn [Multi.run].
  - auto.
  - apply Forall_cons in Hq as [[Ht Hi] Hq]. cbn [fst snd] in Ht, Hi.
    assert (Hst : ∃ st, Multi.step cfg dtf s (t, i)
                        = ({| Multi.now := Z.max (Multi.now s) t;
                              Multi.at_pc := Multi.AtRetryNew w;
                              Multi.stale := st;
                              Multi.session := Multi.session s |}, [])).
    { unfold Multi.step, Multi.advance. rewrite Hpc. cbn [fst snd Multi.elapse].
      rewrite due_before by lia.
      destruct i as [[r|]|[r|]|c|ev|[r|]|]; cbn [Multi.react];
        try (eexists; reflexivity).
      destruct (Hi c eq_refl). }
    destruct Hst as [st ->].
    specialize (IH {| Multi.now := Z.max (Multi.now s) t;
                      Multi.at_pc := Multi.AtRetryNew w; Multi.stale := st;
                      Multi.session := Multi.session s |}
                  eq_refl ltac:(simpl; lia) Hq).
    destruct (Multi.run _ _ _ ins) as [s2 out2]. exact IH.
Qed.

Lemma multi_retry_over cfg dtf w s T :
  Multi.at_pc s = Multi.AtRetryNew w →
  w ≤ T →
  (Multi.step cfg dtf s (T, Tick)).2 = [(w, CallNewWatcher)]
  ∧ Multi.at_pc (Multi.step cfg dtf s (T, Tick)).1 = Multi.AtNewWatcher.
Proof.
  intros Hpc Hle. unfold Multi.step, Multi.advance. rewrite Hpc.
  cbn [fst snd Multi.elapse is_tick].
  assert (Hd : due true (Z.max (Multi.now s) T) w = true)
    by (simpl; lia).
  rewrite Hd. split; reflexivity.
Qed.

Lemma multi_run_app cfg dtf ins1 ins2 s :
  Multi.run cfg dtf s (ins1 ++ ins2)
  = ((Multi.run cfg dtf (Multi.run cfg dtf s ins1).1 ins2).1,
     (Multi.run cfg dtf s ins1).2
       ++ (Multi.run cfg dtf (Multi.run cfg dtf s ins1).1 ins2).2).
Proof.
  revert s. induction ins1 as [|i ins1 IH]; intros s; cbn [app Multi.run].
  - cbn [fst snd app]. destruct (Multi.run cfg dtf s ins2). reflexivity.
  - destruct (Multi.step cfg dtf s i) as [s1 out1]. rewrite IH.
    destruct (Multi.run cfg dtf s1 ins1) as [s2 out2]. cbn [fst snd].
    destruct (Multi.run cfg dtf s2 ins2) as [s3 out3]. cbn [fst snd].
    rewrite app_assoc. reflexivity.
Qed.

Lemma single_wait cfg w ins T s t :
  Single.at_pc s = Single.AtRetry w →
  Single.now s = t →
  Forall (λ j : timed input, t ≤ j.1 < w ∧ ∀ c, j.2 ≠ CtxDone c) ins →
  w ≤ T →
  (Single.run cfg s (ins ++ [(T, Tick)])).2 = [(w, CallNewWatcher)]
  ∧ Single.at_pc (Single.run cfg s (ins ++ [(T, Tick)])).1 = Single.AtNewWatcher.
Proof.
  intros Hpc Hnow Hq HT. rewrite single_run_app. cbn [fst snd].
  assert (Hrun : (Single.run cfg s ins).2 = []
                 ∧ Single.at_pc (Single.run cfg s ins).1 = Single.AtRetry w).
  { destruct ins as [|j ins]; [auto|].
    destruct (single_retry_quiet cfg w (j :: ins) s Hpc) as (Ho & Hp & _).
    - apply Forall_cons in Hq as [[Hj _] _]. lia.
    - eapply Forall_impl; [exact Hq|]. intros j' [Hj' Hc]. split; [lia|exact Hc].
    - auto. }
  destruct Hrun as [-> Hp1]. cbn [Single.run app].
  destruct (single_retry_over cfg w (Single.run cfg s ins).1 T Hp1 HT)
    as [Ho Hp2].
  destruct (Single.step cfg _ (T, Tick)) as [s2 out2]. cbn [fst snd] in *.
  rewrite app_nil_r. auto.
Qed.

Lemma multi_wait cfg dtf w ins T s t :
  Multi.at_pc s = Multi.AtRetryNew w →
  Multi.now s = t →
  Forall (λ j : timed input, t ≤ j.1 < w ∧ ∀ c, j.2 ≠ CtxDone c) ins →
  w ≤ T →
  (Multi.run cfg dtf s (ins ++ [(T, Tick)])).2 = [(w, CallNewWatcher)]
  ∧ Multi.at_pc (Multi.run cfg dtf s (ins ++ [(T, Tick)])).1
    = Multi.AtNewWatcher.
Proof.
  intros Hpc Hnow Hq HT. rewrite multi_run_app. cbn [fst snd].
  assert (Hrun : (Multi.run cfg dtf s ins).2 = []
                 ∧ Multi.at_pc (Multi.run cfg dtf s ins).1 = Multi.AtRetryNew w).
  { destruct ins as [|j ins]; [auto|].
    destruct (multi_retry_quiet cfg dtf w (j :: ins) s Hpc) as (Ho & Hp & _).
    - apply Forall_cons in Hq as [[Hj _] _]. lia.
    - eapply Forall_impl; [exact Hq|]. intros j' [Hj' Hc]. split; [lia|exact Hc].
    - auto. }
  destruct Hrun as [-> Hp1]. cbn [Multi.run app].
  destruct (multi_retry_over cfg dtf w (Multi.run cfg dtf s ins).1 T Hp1 HT)
    as [Ho Hp2].
  destruct (Multi.step cfg dtf _ (T, Tick)) as [s2 out2]. cbn [fst snd] in *.
  rewrite app_nil_r. auto.
Qed.

(** X11.  The retry delay after a failed attempt to open a session.  When
    [fsnotify.NewWatcher] fails, or [w.Add] in [Watch], at instant [t], the
    error callback is invoked (and the watcher closed), and then nothing
    at all is done, whatever is received, until the next watcher is created
    at the instant the retry delay ends, unless the context is cancelled
    before. *)
Theorem retry_delay_is_waited_after_a_failed_attempt :
  (∀ cfg s t e ins T,
     Single.at_pc s = Single.AtNewWatcher →
     Single.now s ≤ t →
     Forall (λ j : timed input,
               t ≤ j.1 < timer_when t (Single.RetryDelay cfg)
               ∧ ∀ c, j.2 ≠ CtxDone c) ins →
     timer_when t (Single.RetryDelay cfg) ≤ T →
     (Single.run cfg s ((t, RetNewWatcher (Some e)) :: ins ++ [(T, Tick)])).2
     = call_if (Single.OnError cfg) t (CallOnError e)
         ++ [(timer_when t (Single.RetryDelay cfg), CallNewWatcher)]
     ∧ Single.at_pc (Single.run cfg s
           ((t, RetNewWatcher (Some e)) :: ins ++ [(T, Tick)])).1
       = Single.AtNewWatcher)
  ∧ (∀ cfg s t e ins T,
     Single.at_pc s = Single.AtAdd →
     Single.now s ≤ t →
     Forall (λ j : timed input,
               t ≤ j.1 < timer_when t (Single.RetryDelay cfg)
               ∧ ∀ c, j.2 ≠ CtxDone c) ins →
     timer_when t (Single.RetryDelay cfg) ≤ T →
     (Single.run cfg s ((t, RetAdd (Some e)) :: ins ++ [(T, Tick)])).2
     = call_if (Single.OnError cfg) t (CallOnError e)
         ++ [(t, CallClose);
             (timer_when t (Single.RetryDelay cfg), CallNewWatcher)]
     ∧ Single.at_pc (Single.run cfg s
           ((t, RetAdd (Some e)) :: ins ++ [(T, Tick)])).1
       = Single.AtNewWatcher)
  ∧ (∀ cfg dirToFiles s t e ins T,
     Multi.at_pc s = Multi.AtNewWatcher →
     Multi.now s ≤ t →
     Forall (λ j : timed input,
               t ≤ j.1 < timer_when t (Multi.RetryDelay cfg)
               ∧ ∀ c, j.2 ≠ CtxDone c) ins →
     timer_when t (Multi.RetryDelay cfg) ≤ T →
     (Multi.run cfg dirToFiles s
        ((t, RetNewWatcher (Some e)) :: ins ++ [(T, Tick)])).2
     = call_if (Multi.OnError cfg) t (CallOnError e)
         ++ [(timer_when t (Multi.RetryDelay cfg), CallNewWatcher)]
     ∧ Multi.at_pc (Multi.run cfg dirToFiles s
           ((t, RetNewWatcher (Some e)) :: ins ++ [(T, Tick)])).1
       = Multi.AtNewWatcher).
Proof.
  split; [|split].
  - intros cfg s t e ins T Hpc Hnow Hq HT. cbn [Single.run].
    assert (Hst : ∃ st, Single.step cfg s (t, RetNewWatcher (Some e))
              = ({| Single.now := t;
                    Single.at_pc :=
                      Single.AtRetry (timer_when t (Single.RetryDelay cfg));
                    Single.stale := st |},
                 call_if (Single.OnError cfg) t (CallOnError e))).
    { unfold Single.step, Single.advance. rewrite Hpc.
      cbn [fst snd Single.elapse Single.react]. rewrite Z.max_r by exact Hnow.
      eexists. reflexivity. }
    destruct Hst as [st ->].
    destruct (single_wait cfg _ ins T
                {| Single.now := t;
                   Single.at_pc :=
                     Single.AtRetry (timer_when t (Single.RetryDelay cfg));
                   Single.stale := st |} t eq_refl eq_refl Hq HT) as [Ho Hp].
    destruct (Single.run cfg _ (ins ++ [(T, Tick)])) as [s2 out2].
    cbn [fst snd] in *. rewrite Ho. auto.
  - intros cfg s t e ins T Hpc Hnow Hq HT. cbn [Single.run].
    assert (Hst : ∃ st, Single.step cfg s (t, RetAdd (Some e))
              = ({| Single.now := t;
                    Single.at_pc :=
                      Single.AtRetry (timer_when t (Single.RetryDelay cfg));
                    Single.stale := st |},
                 call_if (Single.OnError cfg) t (CallOnError e)
                   ++ [(t, CallClose)])).
    { unfold Single.step, Single.advance. rewrite Hpc.
      cbn [fst snd Single.elapse Single.react]. rewrite Z.max_r by exact Hnow.
      eexists. reflexivity. }
    destruct Hst as [st ->].
    destruct (single_wait cfg _ ins T
                {| Single.now := t;
                   Single.at_pc :=
                     Single.AtRetry (timer_when t (Single.RetryDelay cfg));
                   Single.stale := st |} t eq_refl eq_refl Hq HT) as [Ho Hp].
    destruct (Single.run cfg _ (ins ++ [(T, Tick)])) as [s2 out2].
    cbn [fst snd] in *. rewrite Ho, <- app_assoc. auto.
  - intros cfg dtf s t e ins T Hpc Hnow Hq HT. cbn [Multi.run].
    assert (Hst : ∃ st, Multi.step cfg dtf s (t, RetNewWatcher (Some e))
              = ({| Multi.now := t;
                    Multi.at_pc :=
                      Multi.AtRetryNew (timer_when t (Multi.RetryDelay cfg));
                    Multi.stale := st; Multi.session := Multi.session s |},
                 call_if (Multi.OnError cfg) t (CallOnError e))).
    { unfold Multi.step, Multi.advance. rewrite Hpc.
      cbn [fst snd Multi.elapse Multi.react]. rewrite Z.max_r by exact Hnow.
      eexists. reflexivity. }
    destruct Hst as [st ->].
    destruct (multi_wait cfg dtf _ ins T
                {| Multi.now := t;
                   Multi.at_pc :=
                     Multi.AtRetryNew (timer_when t (Multi.RetryDelay cfg));
                   Multi.stale := st; Multi.session := Multi.session s |}
                t eq_refl eq_refl Hq HT) as [Ho Hp].
    destruct (Multi.run cfg dtf _ (ins ++ [(T, Tick)])) as [s2 out2].
    cbn [fst snd] in *. rewrite Ho. auto.
Qed.


Lemma multi_retry_add_quiet cfg dtf w rest ins : ∀ s,
  Multi.at_pc s = Multi.AtRetryAdd w rest →
  Multi.now s < w →
  Forall (λ j : timed input, j.1 < w ∧ ∀ c, j.2 ≠ CtxDone c) ins →
  (Multi.run cfg dtf s ins).2 = []
  ∧ Multi.at_pc (Multi.run cfg dtf s ins).1 = Multi.AtRetryAdd w rest
  ∧ Multi.now (Multi.run cfg dtf s ins).1 < w.
Proof.
  induction ins as [|[t i] ins IH]; intros s Hpc Hnow Hq; cbn [Multi.run].
  - auto.
  - apply Forall_cons in Hq as [[Ht Hi] Hq]. cbn [fst snd] in Ht, Hi.
    assert (Hst : ∃ st, Multi.step cfg dtf s (t, i)
                        = ({| Multi.now := Z.max (Multi.now s) t;
                              Multi.at_pc := Multi.AtRetryAdd w rest;
                              Multi.stale := st;
                              Multi.session := Multi.session s |}, [])).
    { unfold Multi.step, Multi.advance. rewrite Hpc. cbn [fst snd Multi.elapse].
      rewrite due_before by lia.
      destruct i as [[r|]|[r|]|c|ev|[r|]|]; cbn [Multi.react];
        try (eexists; reflexivity).
      destruct (Hi c eq_refl). }
    destruct Hst as [st ->].
    specialize (IH {| Multi.now := Z.max (Multi.now s) t;
                      Multi.at_pc := Multi.AtRetryAdd w rest; Multi.stale := st;
                      Multi.session := Multi.session s |}
                  eq_refl ltac:(simpl; lia) Hq).
    destruct (Multi.run _ _ _ ins) as [s2 out2]. exact IH.
Qed.

(** X12.  A failed registration in [WatchMultiple], as the code has it.  When
    [w.Add] fails at instant [t] the error callback is invoked and the
    watcher closed, and nothing is done while the retry delay is waited
    for; when it ends no watcher is created: the range loop goes on with
    the next directory, on the watcher that was closed, or, after the last
    directory, the event loop is entered. *)
Theorem failed_registration_goes_on_with_the_next_directory
    cfg dirToFiles s dir rest t e ins T :
  Multi.at_pc s = Multi.AtAdd dir rest →
  Multi.now s ≤ t →
  Forall (λ j : timed input,
            t ≤ j.1 < timer_when t (Multi.RetryDelay cfg)
            ∧ ∀ c, j.2 ≠ CtxDone c) ins →
  timer_when t (Multi.RetryDelay cfg) ≤ T →
  (Multi.run cfg dirToFiles s ((t, RetAdd (Some e)) :: ins ++ [(T, Tick)])).2
  = call_if (Multi.OnError cfg) t
      (CallOnError (fmt_Errorf_w "failed to watch directory %s: %w" dir e))
      ++ (t, CallClose)
      :: match rest with
         | next :: _ => [(timer_when t (Multi.RetryDelay cfg), CallAdd next)]
         | [] => []
         end
  ∧ Multi.at_pc (Multi.run cfg dirToFiles s
        ((t, RetAdd (Some e)) :: ins ++ [(T, Tick)])).1
    = match rest with
      | next :: rest' => Multi.AtAdd next rest'
      | [] => Multi.AtSelect ∅
      end.
Proof.
  intros Hpc Hnow Hq HT. cbn [Multi.run].
  set (w := timer_when t (Multi.RetryDelay cfg)) in *.
  assert (Hst : ∃ st, Multi.step cfg dirToFiles s (t, RetAdd (Some e))
            = ({| Multi.now := t; Multi.at_pc := Multi.AtRetryAdd w rest;
                  Multi.stale := st; Multi.session := Multi.session s |},
               call_if (Multi.OnError cfg) t
                 (CallOnError
                    (fmt_Errorf_w "failed to watch directory %s: %w" dir e))
                 ++ [(t, CallClose)])).
  { unfold Multi.step, Multi.advance. rewrite Hpc.
    cbn [fst snd Multi.elapse Multi.react]. rewrite Z.max_r by exact Hnow.
    eexists. reflexivity. }
  destruct Hst as [st ->]. rewrite multi_run_app. cbn [fst snd].
  set (s1 := {| Multi.now := t; Multi.at_pc := Multi.AtRetryAdd w rest;
                Multi.stale := st; Multi.session := Multi.session s |}).
  assert (Hrun : (Multi.run cfg dirToFiles s1 ins).2 = []
                 ∧ Multi.at_pc (Multi.run cfg dirToFiles s1 ins).1
                   = Multi.AtRetryAdd w rest).
  { destruct ins as [|j ins]; [auto|].
    destruct (multi_retry_add_quiet cfg dirToFiles w rest (j :: ins) s1 eq_refl)
      as (Ho & Hp & _).
    - apply Forall_cons in Hq as [[Hj _] _]. simpl. lia.
    - eapply Forall_impl; [exact Hq|]. intros j' [Hj' Hc]. split; [lia|exact Hc].
    - auto. }
  destruct Hrun as [-> Hp1]. cbn [Multi.run app].
  assert (Hover : (Multi.step cfg dirToFiles
                     (Multi.run cfg dirToFiles s1 ins).1 (T, Tick)).2
                  = (Multi.range_next w rest).2
                  ∧ Multi.at_pc (Multi.step cfg dirToFiles
                       (Multi.run cfg dirToFiles s1 ins).1 (T, Tick)).1
                    = (Multi.range_next w rest).1).
  { unfold Multi.step, Multi.advance. rewrite Hp1.
    cbn [fst snd Multi.elapse is_tick].
    assert (Hd : due true
                   (Z.max (Multi.now (Multi.run cfg dirToFiles s1 ins).1) T) w
                 = true) by (simpl; lia).
    rewrite Hd. destruct rest as [|next rest']; cbn [Multi.range_next].
    - cbn [Multi.react fst snd Multi.at_pc]. split; reflexivity.
    - cbn [Multi.react fst snd Multi.at_pc]. split; reflexivity. }
  destruct Hover as [Ho Hp].
  destruct (Multi.step cfg dirToFiles _ (T, Tick)) as [s2 out2].
  cbn [fst snd] in *. rewrite Ho, Hp, app_nil_r, <- app_assoc.
  destruct rest as [|next rest']; auto.
Qed.

(** ** The earlier Watch *)

Lemma kills_app out1 out2 : kills (out1 ++ out2) = kills out1 ++ kills out2.
Proof. apply omap_app. Qed.

Lemma kills_call_if b t a : not_kill a → kills (Legacy.call_if b t a) = [].
Proof. intros Ha. destruct b; [|reflexivity]. destruct a; simpl in *; tauto. Qed.

Lemma kills_cons_other t a out : not_kill a → kills ((t, a) :: out) = kills out.
Proof. intros Ha. destruct a; simpl in *; tauto. Qed.

Lemma legacy_view_run cfg ins : ∀ s,
  (iterate (legacy_view cfg) s ins).2 = kills (Legacy.run cfg s ins).2.
Proof.
  induction ins as [|i ins IH]; intros s; cbn [iterate Legacy.run];
    [reflexivity|].
  assert (Hv : legacy_view cfg s i
               = ((Legacy.step cfg s i).1, kills (Legacy.step cfg s i).2))
    by reflexivity.
  rewrite Hv. destruct (Legacy.step cfg s i) as [s1 out1]. cbn [fst snd].
  specialize (IH s1).
  destruct (iterate (legacy_view cfg) s1 ins) as [s2 v2].
  destruct (Legacy.run cfg s1 ins) as [s2' out2]. cbn [fst snd] in *.
  rewrite kills_app, IH. reflexivity.
Qed.

Lemma legacy_elapse_select cfg incl t db :
  ∃ out, Legacy.elapse cfg incl t (Legacy.AtSelect db)
         = (Legacy.AtSelect (remaining true incl t db), out)
         ∧ kills out = fired true incl t db.
Proof.
  destruct db as [w|]; simpl; [|eexists; split; reflexivity].
  destruct (due incl t w); eexists; (split; [reflexivity|]); [|reflexivity].
  rewrite kills_app, kills_call_if by exact I. reflexivity.
Qed.

Lemma legacy_step_spec cfg s i :
  (∀ e, Legacy.at_pc s ≠ Legacy.Returned e) →
  Legacy.now (Legacy.step cfg s i).1 = Z.max (Legacy.now s) i.1
  ∧ kills (Legacy.step cfg s i).2
    = fired true (is_tick i.2) (Z.max (Legacy.now s) i.1)
        (legacy_timer (Legacy.at_pc s))
  ∧ legacy_timer (Legacy.at_pc (Legacy.step cfg s i).1)
    = (if legacy_select (Legacy.at_pc s)
       then if legacy_touches cfg i.2
            then Some (timer_when (Z.max (Legacy.now s) i.1) (Legacy.Debounce cfg))
            else if ends_session i.2 then None
            else remaining true (is_tick i.2) (Z.max (Legacy.now s) i.1)
                   (legacy_timer (Legacy.at_pc s))
       else None)
  ∧ legacy_select (Legacy.at_pc (Legacy.step cfg s i).1)
    = (legacy_select (Legacy.at_pc s) && negb (ends_session i.2)
       || match Legacy.at_pc s, i.2 with
          | Legacy.AtAdd, RetAdd None => true
          | _, _ => false
          end).
Proof.
  intros Hrun. unfold Legacy.step, Legacy.advance.
  set (t := Z.max (Legacy.now s) i.1).
  destruct (Legacy.at_pc s) as [| |w|w|db|e]; [| | | | |destruct (Hrun e eq_refl)].
  - destruct i as [ti [[r|]|[r|]|c|ev|[r|]|]]; simpl;
      rewrite ?kills_app, ?kills_call_if by exact I; auto.
  - destruct i as [ti [[r|]|[r|]|c|ev|[r|]|]]; simpl;
      rewrite ?kills_app, ?kills_call_if by exact I; auto.
  - cbn [Legacy.elapse]. destruct (due (is_tick i.2) t w);
      destruct i as [ti [[r|]|[r|]|c|ev|[r|]|]]; simpl;
      rewrite ?kills_cons_other by exact I;
      rewrite ?kills_app, ?kills_call_if by exact I; auto.
  - cbn [Legacy.elapse]. destruct (due (is_tick i.2) t w);
      destruct i as [ti [[r|]|[r|]|c|ev|[r|]|]]; simpl;
      rewrite ?kills_cons_other by exact I;
      rewrite ?kills_app, ?kills_call_if by exact I; auto.
  - destruct (legacy_elapse_select cfg (is_tick i.2) t db) as (out1 & -> & Ho1).
    cbn [legacy_timer legacy_select].
    destruct i as [ti [[r|]|[r|]|c|ev|[r|]|]]; cbn [fst snd is_tick] in *;
      cbn [Legacy.react legacy_touches ends_session];
      try destruct (Legacy.relevant cfg ev); cbn [fst snd];
      cbn [Legacy.now Legacy.at_pc legacy_timer legacy_select];
      rewrite ?kills_app, ?kills_call_if, ?app_nil_r by exact I;
      rewrite ?Ho1; auto.
Qed.

Lemma legacy_touches_not_tick cfg i : legacy_touches cfg i = true → is_tick i = false.
Proof. destruct i; simpl; intros; (reflexivity || discriminate). Qed.

Lemma legacy_select_running p :
  legacy_select p = true → ∀ e, p ≠ Legacy.Returned e.
Proof. destruct p; simpl; intros; (discriminate || congruence). Qed.

Lemma legacy_view_watching cfg s i :
  legacy_select (Legacy.at_pc s) = true →
  ends_session i.2 = false →
  legacy_select (Legacy.at_pc (legacy_view cfg s i).1) = true
  ∧ Legacy.now (legacy_view cfg s i).1 = Z.max (Legacy.now s) i.1
  ∧ (legacy_view cfg s i).2
    = fired true (is_tick i.2) (Z.max (Legacy.now s) i.1)
        (legacy_timer (Legacy.at_pc s))
  ∧ legacy_timer (Legacy.at_pc (legacy_view cfg s i).1)
    = if legacy_touches cfg i.2
      then Some (timer_when (Z.max (Legacy.now s) i.1) (Legacy.Debounce cfg))
      else remaining true (is_tick i.2) (Z.max (Legacy.now s) i.1)
             (legacy_timer (Legacy.at_pc s)).
Proof.
  intros Hsel Hend. unfold legacy_view. cbn [fst snd].
  destruct (legacy_step_spec cfg s i (legacy_select_running _ Hsel))
    as (Hn & Hk & Ht & Hs).
  rewrite Hsel, Hend in Hs, Ht. auto.
Qed.

Lemma legacy_running_or_returned p :
  (∀ e, p ≠ Legacy.Returned e) ∨ ∃ e, p = Legacy.Returned e.
Proof. destruct p; eauto; left; discriminate. Qed.

Lemma legacy_view_account cfg s i :
  (Legacy.now (legacy_view cfg s i).1 = Legacy.now s
   ∨ Legacy.now (legacy_view cfg s i).1 = Z.max (Legacy.now s) i.1)
  ∧ ((legacy_view cfg s i).2 = []
     ∨ ∃ w, legacy_timer (Legacy.at_pc s) = Some w
            ∧ (legacy_view cfg s i).2 = [w] ∧ w ≤ Z.max (Legacy.now s) i.1)
  ∧ (legacy_timer (Legacy.at_pc (legacy_view cfg s i).1) = None
     ∨ (legacy_touches cfg i.2 = false ∧ (legacy_view cfg s i).2 = []
        ∧ legacy_timer (Legacy.at_pc (legacy_view cfg s i).1)
          = legacy_timer (Legacy.at_pc s))
     ∨ (legacy_touches cfg i.2 = true
        ∧ legacy_timer (Legacy.at_pc (legacy_view cfg s i).1)
          = Some (timer_when (Z.max (Legacy.now s) i.1) (Legacy.Debounce cfg)))).
Proof.
  unfold legacy_view. cbn [fst snd].
  destruct (legacy_running_or_returned (Legacy.at_pc s)) as [Hr|[e He]].
  - destruct (legacy_step_spec cfg s i Hr) as (Hn & Hc & Ht & _).
    split; [right; exact Hn|].
    exact (account_of_spec _ _ _ _ _ _ _ _ _ _ Hc Ht).
  - unfold Legacy.step. rewrite He. cbn [fst snd]. rewrite He.
    split; [left; reflexivity|]. split; left; reflexivity.
Qed.

Lemma legacy_defaults_fields cfg :
  Legacy.TargetFile (Legacy.with_defaults cfg) = Legacy.TargetFile cfg
  ∧ Legacy.Signal (Legacy.with_defaults cfg) = Legacy.Signal cfg
  ∧ Legacy.OnError (Legacy.with_defaults cfg) = Legacy.OnError cfg.
Proof. unfold Legacy.with_defaults. repeat case_match; auto. Qed.

Lemma legacy_touches_defaults cfg i :
  legacy_touches (Legacy.with_defaults cfg) i = legacy_touches cfg i.
Proof.
  destruct i; try reflexivity. unfold legacy_touches, Legacy.relevant.
  destruct (legacy_defaults_fields cfg) as (-> & _). reflexivity.
Qed.

Lemma legacy_step_signal cfg s i :
  Forall (λ x : timed Legacy.action,
            ∀ sig, x.2 = Legacy.CallKill sig → sig = Legacy.Signal cfg)
    (Legacy.step cfg s i).2.
Proof.
  unfold Legacy.step, Legacy.advance.
  destruct (Legacy.at_pc s) as [| |w|w|[w|]|e]; simpl; [| | | | | |constructor];
    try destruct (due _ _ w); simpl;
    destruct i as [t [[r|]|[r|]|c|ev|[r|]|]]; simpl;
    try destruct (Legacy.relevant cfg ev); simpl;
    destruct (Legacy.OnEvent cfg), (Legacy.OnError cfg); simpl;
    repeat constructor; simpl; congruence.
Qed.

Lemma legacy_run_signal cfg ins : ∀ s,
  Forall (λ x : timed Legacy.action,
            ∀ sig, x.2 = Legacy.CallKill sig → sig = Legacy.Signal cfg)
    (Legacy.run cfg s ins).2.
Proof.
  induction ins as [|i ins IH]; intros s; cbn [Legacy.run]; [constructor|].
  pose proof (legacy_step_signal cfg s i) as Hst.
  destruct (Legacy.step cfg s i) as [s1 out1]. specialize (IH s1).
  destruct (Legacy.run cfg s1 ins) as [s2 out2]. cbn [fst snd] in *.
  apply Forall_app. split; assumption.
Qed.

(** X13.  The law of debouncing holds for the earlier [Watch] and its signal:
    in a session that is in its event loop and stays open, the instants at
    which the process is signalled are determined by the timer pending at
    the start and the instants of the relevant events. *)
Theorem earlier_watch_debounces_its_signal cfg s db ins T :
  Legacy.at_pc s = Legacy.AtSelect db →
  stays_open ins →
  ascending (Legacy.now s) (ins.*1 ++ [T]) →
  no_tie (Legacy.Debounce cfg) db (times_of (legacy_touches cfg) ins) →
  kills (Legacy.run cfg s (ins ++ [(T, Tick)])).2
  = debounced (Legacy.Debounce cfg) db (times_of (legacy_touches cfg) ins) T.
Proof.
  intros Hpc Hopen Hasc Hnt. rewrite <- legacy_view_run.
  rewrite (debounce_law (legacy_view cfg) Legacy.now
             (λ s, legacy_timer (Legacy.at_pc s))
             (λ s, legacy_select (Legacy.at_pc s) = true)
             (legacy_touches cfg) (Legacy.Debounce cfg) T
             (legacy_touches_not_tick cfg) (legacy_view_watching cfg) ins s).
  - rewrite Hpc. reflexivity.
  - rewrite Hpc. reflexivity.
  - exact Hopen.
  - exact Hasc.
  - rewrite Hpc. exact Hnt.
Qed.

(** X14.  What the earlier [Watch] sends, in any run: only the configured
    signal; only the settle delay after a relevant event of the target,
    with no relevant event in between; and at most once for each relevant
    event received. *)
Theorem earlier_watch_signals_only_after_a_quiet_settle_delay cfg ins :
  (∀ t sig, (t, Legacy.CallKill sig) ∈ (Legacy.Watch cfg ins).2 →
            sig = Legacy.Signal cfg)
  ∧ (ascending 0 ins.*1 →
     ∀ x, x ∈ kills (Legacy.Watch cfg ins).2 →
          ∃ t, t ∈ times_of (legacy_touches cfg) ins
               ∧ x = timer_when t (Legacy.Debounce (Legacy.with_defaults cfg))
               ∧ ∀ t', t' ∈ times_of (legacy_touches cfg) ins → t < t' → x ≤ t')
  ∧ (length (kills (Legacy.Watch cfg ins).2)
     ≤ length (times_of (legacy_touches cfg) ins))%nat.
Proof.
  unfold Legacy.Watch.
  pose proof (legacy_view_run (Legacy.with_defaults cfg) ins
                {| Legacy.now := 0; Legacy.at_pc := Legacy.AtNewWatcher |}) as Hv.
  pose proof (legacy_run_signal (Legacy.with_defaults cfg) ins
                {| Legacy.now := 0; Legacy.at_pc := Legacy.AtNewWatcher |}) as Hs.
  destruct (Legacy.run _ _ ins) as [s out]. cbn [fst snd] in *.
  rewrite kills_cons_other by exact I. rewrite <- Hv.
  rewrite <- (times_of_ext _ _ ins (legacy_touches_defaults cfg)).
  split; [|split].
  - intros t sig Hin. apply elem_of_cons in Hin as [Heq|Hin]; [discriminate|].
    rewrite Forall_forall in Hs.
    destruct (legacy_defaults_fields cfg) as (_ & <- & _).
    apply (Hs (t, Legacy.CallKill sig) Hin). reflexivity.
  - intros Hasc x Hx.
    destruct (account_quiet _ _ _ _ _
                (legacy_view_account (Legacy.with_defaults cfg)) ins
                {| Legacy.now := 0; Legacy.at_pc := Legacy.AtNewWatcher |}
                0 x (Z.le_refl 0) Hasc Hx)
      as [[Hno _]|Hyes]; [discriminate | exact Hyes].
  - apply (account_count _ _ _ _ _
             (legacy_view_account (Legacy.with_defaults cfg))).
Qed.

Lemma legacy_step_returned cfg s i e :
  (∀ e', Legacy.at_pc s ≠ Legacy.Returned e') →
  Legacy.at_pc (Legacy.step cfg s i).1 = Legacy.Returned e →
  ∃ c, i.2 = CtxDone c ∧ e = ctx_Err c.
Proof.
  intros Hrun. unfold Legacy.step, Legacy.advance.
  destruct (Legacy.at_pc s) as [| |w|w|[w|]|e0]; simpl;
    [| | | | | |destruct (Hrun e0 eq_refl)];
    try destruct (due _ _ w); simpl;
    destruct i as [t [[r|]|[r|]|c|ev|[r|]|]]; simpl;
    try destruct (Legacy.relevant cfg ev); simpl;
    intros Hret; try discriminate; inversion Hret; eauto.
Qed.

Lemma legacy_run_returned cfg ins : ∀ s e,
  (∀ e', Legacy.at_pc s ≠ Legacy.Returned e') →
  Legacy.at_pc (Legacy.run cfg s ins).1 = Legacy.Returned e →
  ∃ t c, (t, CtxDone c) ∈ ins ∧ e = ctx_Err c.
Proof.
  induction ins as [|[t i] ins IH]; intros s e Hp; cbn [Legacy.run].
  - intros Hs. destruct (Hp e Hs).
  - pose proof (legacy_step_returned cfg s (t, i)) as Hsr.
    destruct (Legacy.step cfg s (t, i)) as [s1 out1]. cbn [fst snd] in Hsr.
    specialize (IH s1 e).
    destruct (Legacy.at_pc s1) as [| |w|w|db|e1] eqn:Hp1.
    6: {
      destruct (Hsr e1 Hp eq_refl) as (c & Hi & He). cbn [snd] in Hi. subst i.
      assert (Hstay : Legacy.run cfg s1 ins = (s1, [])).
      { clear -Hp1. induction ins as [|j ins IH]; [reflexivity|].
        cbn [Legacy.run]. unfold Legacy.step. rewrite Hp1, IH. reflexivity. }
      rewrite Hstay. cbn [fst]. rewrite Hp1. intros Hret.
      exists t, c. split; [left | congruence]. }
    all: destruct (Legacy.run cfg s1 ins) as [s2 out2]; cbn [fst snd] in *;
      intros Hret; destruct (IH ltac:(discriminate) Hret) as (t' & c & Hin & He);
      exists t', c; (split; [right; exact Hin | exact He]).
Qed.

(** X15.  The earlier [Watch] validates nothing: whatever the configuration, it
    returns only [ctx.Err()], for a cancellation that one of its selects
    observed. *)
Theorem earlier_watch_returns_only_on_cancellation cfg ins e :
  Legacy.at_pc (Legacy.Watch cfg ins).1 = Legacy.Returned e →
  ∃ t c, (t, CtxDone c) ∈ ins ∧ e = ctx_Err c.
Proof.
  unfold Legacy.Watch.
  pose proof (legacy_run_returned (Legacy.with_defaults cfg) ins
                {| Legacy.now := 0; Legacy.at_pc := Legacy.AtNewWatcher |} e) as Hr.
  destruct (Legacy.run _ _ ins) as [s out]. cbn [fst snd] in *.
  apply Hr. simpl. discriminate.
Qed.

Lemma legacy_sleep_quiet cfg w ins : ∀ s,
  Legacy.at_pc s = Legacy.AtSleep w →
  Legacy.now s < w →
  Forall (λ j : timed input, j.1 < w) ins →
  (Legacy.run cfg s ins).2 = []
  ∧ Legacy.at_pc (Legacy.run cfg s ins).1 = Legacy.AtSleep w
  ∧ Legacy.now (Legacy.run cfg s ins).1 < w.
Proof.
  induction ins as [|[t i] ins IH]; intros s Hpc Hnow Hq; cbn [Legacy.run].
  - auto.
  - apply Forall_cons in Hq as [Ht Hq]. cbn [fst] in Ht.
    assert (Hst : Legacy.step cfg s (t, i)
                  = ({| Legacy.now := Z.max (Legacy.now s) t;
                        Legacy.at_pc := Legacy.AtSleep w |}, [])).
    { unfold Legacy.step, Legacy.advance. rewrite Hpc.
      cbn [fst snd Legacy.elapse]. rewrite due_before by lia.
      destruct i as [[r|]|[r|]|c|ev|[r|]|]; reflexivity. }
    rewrite Hst.
    specialize (IH {| Legacy.now := Z.max (Legacy.now s) t;
                      Legacy.at_pc := Legacy.AtSleep w |}
                  eq_refl ltac:(simpl; lia) Hq).
    destruct (Legacy.run _ _ ins) as [s2 out2]. exact IH.
Qed.

Lemma legacy_run_app cfg ins1 ins2 s :
  Legacy.run cfg s (ins1 ++ ins2)
  = ((Legacy.run cfg (Legacy.run cfg s ins1).1 ins2).1,
     (Legacy.run cfg s ins1).2 ++ (Legacy.run cfg (Legacy.run cfg s ins1).1 ins2).2).
Proof.
  revert s. induction ins1 as [|i ins1 IH]; intros s; cbn [app Legacy.run].
  - cbn [fst snd app]. destruct (Legacy.run cfg s ins2). reflexivity.
  - destruct (Legacy.step cfg s i) as [s1 out1]. rewrite IH.
    destruct (Legacy.run cfg s1 ins1) as [s2 out2]. cbn [fst snd].
    destruct (Legacy.run cfg s2 ins2) as [s3 out3]. cbn [fst snd].
    rewrite app_assoc. reflexivity.
Qed.

(** X16.  After a failed registration the earlier [Watch] sleeps: until the
    retry delay has passed it does nothing and cannot return, whatever is
    received, a cancellation included; the next watcher is created when
    the delay ends. *)
Theorem earlier_watch_sleeps_through_cancellation cfg s t e ins T :
  Legacy.at_pc s = Legacy.AtAdd →
  Legacy.now s ≤ t →
  Forall (λ j : timed input, t ≤ j.1 < timer_when t (Legacy.RetryDelay cfg)) ins →
  timer_when t (Legacy.RetryDelay cfg) ≤ T →
  (Legacy.run cfg s ((t, RetAdd (Some e)) :: ins ++ [(T, Tick)])).2
  = Legacy.call_if (Legacy.OnError cfg) t (Legacy.CallOnError e)
      ++ [(t, Legacy.CallClose);
          (timer_when t (Legacy.RetryDelay cfg), Legacy.CallNewWatcher)]
  ∧ Legacy.at_pc (Legacy.run cfg s
        ((t, RetAdd (Some e)) :: ins ++ [(T, Tick)])).1
    = Legacy.AtNewWatcher.
Proof.
  intros Hpc Hnow Hq HT. cbn [Legacy.run].
  set (w := timer_when t (Legacy.RetryDelay cfg)) in *.
  assert (Hst : Legacy.step cfg s (t, RetAdd (Some e))
            = ({| Legacy.now := t; Legacy.at_pc := Legacy.AtSleep w |},
               Legacy.call_if (Legacy.OnError cfg) t (Legacy.CallOnError e)
                 ++ [(t, Legacy.CallClose)])).
  { unfold Legacy.step, Legacy.advance. rewrite Hpc.
    cbn [fst snd Legacy.elapse Legacy.react]. rewrite Z.max_r by exact Hnow.
    reflexivity. }
  rewrite Hst. rewrite legacy_run_app. cbn [fst snd].
  set (s1 := {| Legacy.now := t; Legacy.at_pc := Legacy.AtSleep w |}).
  assert (Hrun : (Legacy.run cfg s1 ins).2 = []
                 ∧ Legacy.at_pc (Legacy.run cfg s1 ins).1 = Legacy.AtSleep w).
  { destruct ins as [|j ins]; [auto|].
    destruct (legacy_sleep_quiet cfg w (j :: ins) s1 eq_refl) as (Ho & Hp & _).
    - apply Forall_cons in Hq as [Hj _]. simpl. lia.
    - eapply Forall_impl; [exact Hq|]. intros j' Hj'. simpl in Hj'. lia.
    - auto. }
  destruct Hrun as [-> Hp1]. cbn [Legacy.run app].
  assert (Hover : Legacy.step cfg (Legacy.run cfg s1 ins).1 (T, Tick)
                  = ({| Legacy.now := Z.max (Legacy.now (Legacy.run cfg s1 ins).1) T;
                        Legacy.at_pc := Legacy.AtNewWatcher |},
                     [(w, Legacy.CallNewWatcher)])).
  { unfold Legacy.step, Legacy.advance. rewrite Hp1.
    cbn [fst snd Legacy.elapse is_tick].
    assert (Hd : due true (Z.max (Legacy.now (Legacy.run cfg s1 ins).1) T) w = true)
      by (simpl; lia).
    rewrite Hd. reflexivity. }
  rewrite Hover. cbn [fst snd Legacy.at_pc]. rewrite app_nil_r, <- app_assoc.
  auto.
Qed.

End more_properties.

(** ** The further properties at concrete inputs *)

Lemma watch_closes_its_watchers_witness :
  watchers false
    (Single.Watch Demo.single_cfg
       (Demo.single_opens ++ [(5, CtxDone Canceled)])).2
  = Some false.
Proof.
  apply (proj2 (@watch_closes_its_watchers Demo.externals Demo.single_cfg
                  (Demo.single_opens ++ [(5, CtxDone Canceled)]))
           (ctx_Err Canceled)).
  vm_compute. reflexivity.
Defined.

Lemma watch_multiple_closes_its_watchers_witness :
  ∃ open,
    watchers false
      (Multi.WatchMultiple Demo.multi_cfg
         (Demo.multi_opens ++ [(5, CtxDone Canceled)])).2
    = Some open
    ∧ open = false.
Proof.
  destruct (@watch_multiple_closes_its_watchers Demo.externals Demo.multi_cfg
              (Demo.multi_opens ++ [(5, CtxDone Canceled)]))
    as (open & Hw & Hret).
  exists open. split; [exact Hw|].
  apply (Hret (ctx_Err Canceled)). vm_compute. reflexivity.
Defined.

Lemma debounce_in_an_open_session_witness :
  changes (Single.run Demo.single_cfg Demo.single_watching
             ([(0, RecvEvent (Demo.write "/srv/app"));
               (10, RecvEvent (Demo.write "/srv/app"));
               (100, RecvEvent (Demo.write "/srv/app"))] ++ [(200, Tick)])).2
  = [60; 150]
  ∧ changes_of "/etc/a.conf"
      (Multi.run Demo.multi_cfg
         (Multi.group_by_dir (Multi.TargetFiles Demo.multi_cfg))
         Demo.multi_watching
         ([(0, RecvEvent (Demo.write "/etc/a.conf"));
           (5, RecvEvent (Demo.write "/etc/b.conf"));
           (100, RecvEvent (Demo.write "/etc/a.conf"))] ++ [(200, Tick)])).2
    = [50; 150].
Proof.
  destruct (@debounce_in_an_open_session Demo.externals) as [Hsingle Hmulti].
  split.
  - etransitivity;
      [apply (Hsingle Demo.single_cfg Demo.single_watching None
                [(0, RecvEvent (Demo.write "/srv/app"));
                 (10, RecvEvent (Demo.write "/srv/app"));
                 (100, RecvEvent (Demo.write "/srv/app"))] 200)
      | vm_compute; reflexivity].
    + reflexivity.
    + repeat constructor.
    + simpl. lia.
    + vm_compute. repeat split; discriminate.
  - etransitivity;
      [apply (Hmulti Demo.multi_cfg _ Demo.multi_watching ∅ "/etc/a.conf"
                [(0, RecvEvent (Demo.write "/etc/a.conf"));
                 (5, RecvEvent (Demo.write "/etc/b.conf"));
                 (100, RecvEvent (Demo.write "/etc/a.conf"))] 200)
      | vm_compute; reflexivity].
    + reflexivity.
    + discriminate.
    + repeat constructor.
    + simpl. lia.
    + vm_compute. repeat split; discriminate.
Defined.

Lemma events_apart_are_notified_one_by_one_witness :
  changes (Single.run Demo.single_cfg Demo.single_watching
             ([(0, RecvEvent (Demo.write "/srv/app"));
               (10, RecvEvent (Demo.chmod "/srv/app"));
               (100, RecvEvent (Demo.write "/srv/app"))] ++ [(200, Tick)])).2
  = [50; 150]
  ∧ changes_of "/etc/a.conf"
      (Multi.run Demo.multi_cfg
         (Multi.group_by_dir (Multi.TargetFiles Demo.multi_cfg))
         Demo.multi_watching
         ([(0, RecvEvent (Demo.write "/etc/a.conf"));
           (5, RecvEvent (Demo.write "/etc/b.conf"));
           (100, RecvEvent (Demo.write "/etc/a.conf"))] ++ [(200, Tick)])).2
    = [50; 150].
Proof.
  destruct (@events_apart_are_notified_one_by_one Demo.externals)
    as [Hsingle Hmulti].
  split.
  - etransitivity;
      [apply (Hsingle Demo.single_cfg Demo.single_watching
                [(0, RecvEvent (Demo.write "/srv/app"));
                 (10, RecvEvent (Demo.chmod "/srv/app"));
                 (100, RecvEvent (Demo.write "/srv/app"))] 200)
      | vm_compute; reflexivity].
    + reflexivity.
    + reflexivity.
    + repeat constructor.
    + simpl. lia.
    + vm_compute. repeat split; reflexivity.
    + vm_compute. intros tN HtN. inversion HtN. discriminate.
  - etransitivity;
      [apply (Hmulti Demo.multi_cfg _ Demo.multi_watching ∅ "/etc/a.conf"
                [(0, RecvEvent (Demo.write "/etc/a.conf"));
                 (5, RecvEvent (Demo.write "/etc/b.conf"));
                 (100, RecvEvent (Demo.write "/etc/a.conf"))] 200)
      | vm_compute; reflexivity].
    + reflexivity.
    + reflexivity.
    + reflexivity.
    + repeat constructor.
    + simpl. lia.
    + vm_compute. repeat split; reflexivity.
    + vm_compute. intros tN HtN. inversion HtN. discriminate.
Defined.

Lemma watch_notifies_only_after_a_quiet_settle_delay_witness :
  ∃ t, t ∈ target_event_times Demo.single_cfg
             (Demo.single_opens
                ++ [(5, RecvEvent (Demo.write "/srv/app")); (100, Tick)])
       ∧ 55 = timer_when t
                (Single.Debounce (Single.with_defaults Demo.single_cfg))
       ∧ ∀ t', t' ∈ target_event_times Demo.single_cfg
                      (Demo.single_opens
                         ++ [(5, RecvEvent (Demo.write "/srv/app")); (100, Tick)]) →
               t < t' → 55 ≤ t'.
Proof.
  apply (proj1 (@watch_notifies_only_after_a_quiet_settle_delay Demo.externals
                  Demo.single_cfg
                  (Demo.single_opens
                     ++ [(5, RecvEvent (Demo.write "/srv/app")); (100, Tick)]))).
  - simpl. lia.
  - vm_compute. left.
Defined.

Lemma watch_multiple_notifies_only_after_a_quiet_settle_delay_witness :
  (∃ t, t ∈ event_times Demo.multi_cfg "/etc/a.conf"
              (Demo.multi_opens
                 ++ [(5, RecvEvent (Demo.write "/etc/a.conf"));
                     (30, RecvEvent (Demo.write "/etc/a.conf")); (100, Tick)])
        ∧ 80 = timer_when t
                 (Multi.Debounce (Multi.with_defaults Demo.multi_cfg))
        ∧ ∀ t', t' ∈ event_times Demo.multi_cfg "/etc/a.conf"
                       (Demo.multi_opens
                          ++ [(5, RecvEvent (Demo.write "/etc/a.conf"));
                              (30, RecvEvent (Demo.write "/etc/a.conf"));
                              (100, Tick)]) →
                t < t' → 80 ≤ t')
  ∧ changes_of "/etc/c.conf"
      (Multi.WatchMultiple Demo.multi_cfg
         (Demo.multi_opens
            ++ [(5, RecvEvent (Demo.write "/etc/c.conf")); (100, Tick)])).2
    = [].
Proof.
  split.
  - apply (proj1 (@watch_multiple_notifies_only_after_a_quiet_settle_delay
                    Demo.externals Demo.multi_cfg
                    (Demo.multi_opens
                       ++ [(5, RecvEvent (Demo.write "/etc/a.conf"));
                           (30, RecvEvent (Demo.write "/etc/a.conf"));
                           (100, Tick)])
                    "/etc/a.conf")).
    + simpl. lia.
    + vm_compute. repeat split. discriminate.
    + vm_compute. left.
  - apply (proj2 (proj2
             (@watch_multiple_notifies_only_after_a_quiet_settle_delay
                Demo.externals Demo.multi_cfg
                (Demo.multi_opens
                   ++ [(5, RecvEvent (Demo.write "/etc/c.conf")); (100, Tick)])
                "/etc/c.conf"))).
    vm_compute. intros Hin.
    repeat (apply elem_of_cons in Hin as [Hin|Hin]; [discriminate|]).
    apply elem_of_nil in Hin. exact Hin.
Defined.

Lemma only_the_directories_of_the_targets_are_registered_witness :
  "/srv" = @filepath_Dir Demo.externals (Single.TargetFile Demo.single_cfg)
  ∧ ∃ file, file ∈ Multi.TargetFiles Demo.multi_cfg
            ∧ "/etc" = @filepath_Dir Demo.externals file.
Proof.
  destruct (@only_the_directories_of_the_targets_are_registered Demo.externals)
    as [Hsingle Hmulti].
  split.
  - apply (Hsingle Demo.single_cfg Demo.single_opens "/srv").
    vm_compute. left.
  - apply (Hmulti Demo.multi_cfg Demo.multi_opens "/etc").
    vm_compute. right. left.
Defined.

Lemma self_monitor_watches_the_executable_witness :
  Self.OnReload Demo2.self_cfg = true
  ∧ ∃ t ev,
      (t, RecvEvent ev)
        ∈ Demo.single_opens
            ++ [(5, RecvEvent (Demo.write "/srv/app")); (100, Tick)]
      ∧ Name ev = "/srv/app" ∧ op_relevant (Op ev) = true.
Proof.
  pose proof (@self_monitor_watches_the_executable Demo.externals
                (inr "/srv/app") Demo2.self_cfg
                (Demo.single_opens
                   ++ [(5, RecvEvent (Demo.write "/srv/app")); (100, Tick)]))
    as Hs.
  cbn [Self.SelfMonitor] in Hs.
  destruct Hs as (executable & Heq & _ & Hch & _).
  inversion Heq; subst executable. apply Hch. vm_compute. discriminate.
Defined.

Lemma retry_delay_is_waited_after_a_failed_attempt_witness :
  (Single.run Demo.single_cfg Demo.single_start
     ((0, RetNewWatcher (Some (watcher_error 7)))
        :: [(5, Tick)] ++ [(10, Tick)])).2
  = [(0, CallOnError (watcher_error 7)); (10, CallNewWatcher)]
  ∧ (Multi.run Demo.multi_cfg
       (Multi.group_by_dir (Multi.TargetFiles Demo.multi_cfg)) Demo.multi_start
       ((0, RetNewWatcher (Some (watcher_error 7)))
          :: [(5, Tick)] ++ [(10, Tick)])).2
    = [(0, CallOnError (watcher_error 7)); (10, CallNewWatcher)].
Proof.
  destruct (@retry_delay_is_waited_after_a_failed_attempt Demo.externals)
    as (Hnew & Hadd & Hmulti).
  split.
  - apply (Hnew Demo.single_cfg Demo.single_start 0 (watcher_error 7)
             [(5, Tick)] 10).
    + reflexivity.
    + simpl. lia.
    + repeat constructor; simpl; try lia; discriminate.
    + vm_compute. discriminate.
  - apply (Hmulti Demo.multi_cfg _ Demo.multi_start 0 (watcher_error 7)
             [(5, Tick)] 10).
    + reflexivity.
    + simpl. lia.
    + repeat constructor; simpl; try lia; discriminate.
    + vm_compute. discriminate.
Defined.

Lemma failed_registration_goes_on_with_the_next_directory_witness :
  (Multi.run Demo.multi_cfg
     (Multi.group_by_dir (Multi.TargetFiles Demo.multi_cfg))
     {| Multi.now := 0; Multi.at_pc := Multi.AtAdd "/srv" ["/etc"];
        Multi.stale := []; Multi.session := 1 |}
     ((0, RetAdd (Some (watcher_error 7))) :: [(5, Tick)] ++ [(10, Tick)])).2
  = [(0, CallOnError (fmt_Errorf_w "failed to watch directory %s: %w" "/srv"
                        (watcher_error 7)));
     (0, CallClose);
     (10, CallAdd "/etc")].
Proof.
  apply (@failed_registration_goes_on_with_the_next_directory Demo.externals
           Demo.multi_cfg _
           {| Multi.now := 0; Multi.at_pc := Multi.AtAdd "/srv" ["/etc"];
              Multi.stale := []; Multi.session := 1 |}
           "/srv" ["/etc"] 0 (watcher_error 7) [(5, Tick)] 10).
  - reflexivity.
  - simpl. lia.
  - repeat constructor; simpl; try lia; discriminate.
  - vm_compute. discriminate.
Defined.

Lemma earlier_watch_debounces_its_signal_witness :
  kills (Legacy.run Demo2.legacy_cfg Demo2.legacy_watching
           ([(0, RecvEvent (Demo.write "/srv/app"));
             (10, RecvEvent (Demo.write "/srv/app"));
             (100, RecvEvent (Demo.write "/srv/app"))] ++ [(200, Tick)])).2
  = [60; 150].
Proof.
  etransitivity;
    [apply (@earlier_watch_debounces_its_signal Demo.externals
              Demo2.legacy_cfg Demo2.legacy_watching None
              [(0, RecvEvent (Demo.write "/srv/app"));
               (10, RecvEvent (Demo.write "/srv/app"));
               (100, RecvEvent (Demo.write "/srv/app"))] 200)
    | vm_compute; reflexivity].
  - reflexivity.
  - repeat constructor.
  - simpl. lia.
  - vm_compute. repeat split; discriminate.
Defined.

Lemma earlier_watch_signals_only_after_a_quiet_settle_delay_witness :
  1 = Legacy.Signal Demo2.legacy_cfg
  ∧ ∃ t, t ∈ times_of (legacy_touches Demo2.legacy_cfg)
               (Demo.single_opens
                  ++ [(5, RecvEvent (Demo.write "/srv/app")); (100, Tick)])
         ∧ 55 = timer_when t
                  (Legacy.Debounce (Legacy.with_defaults Demo2.legacy_cfg))
         ∧ ∀ t', t' ∈ times_of (legacy_touches Demo2.legacy_cfg)
                        (Demo.single_opens
                           ++ [(5, RecvEvent (Demo.write "/srv/app"));
                               (100, Tick)]) →
                 t < t' → 55 ≤ t'.
Proof.
  destruct (@earlier_watch_signals_only_after_a_quiet_settle_delay
              Demo.externals Demo2.legacy_cfg
              (Demo.single_opens
                 ++ [(5, RecvEvent (Demo.write "/srv/app")); (100, Tick)]))
    as (Hsig & Hquiet & _).
  split.
  - apply (Hsig 55 1). vm_compute. do 5 right. left.
  - apply Hquiet.
    + simpl. lia.
    + vm_compute. left.
Defined.

Lemma earlier_watch_returns_only_on_cancellation_witness :
  ∃ t c, (t, CtxDone c) ∈ Demo.single_opens ++ [(5, CtxDone Canceled)]
         ∧ ctx_Err Canceled = ctx_Err c.
Proof.
  apply (@earlier_watch_returns_only_on_cancellation Demo.externals
           Demo2.legacy_cfg (Demo.single_opens ++ [(5, CtxDone Canceled)])
           (ctx_Err Canceled)).
  vm_compute. reflexivity.
Defined.

Lemma earlier_watch_sleeps_through_cancellation_witness :
  (Legacy.run Demo2.legacy_cfg Demo2.legacy_adding
     ((0, RetAdd (Some (watcher_error 7)))
        :: [(5, CtxDone Canceled)] ++ [(10, Tick)])).2
  = [(0, Legacy.CallOnError (watcher_error 7)); (0, Legacy.CallClose);
     (10, Legacy.CallNewWatcher)]
  ∧ Legacy.at_pc
      (Legacy.run Demo2.legacy_cfg Demo2.legacy_adding
         ((0, RetAdd (Some (watcher_error 7)))
            :: [(5, CtxDone Canceled)] ++ [(10, Tick)])).1
    = Legacy.AtNewWatcher.
Proof.
  apply (@earlier_watch_sleeps_through_cancellation Demo.externals
           Demo2.legacy_cfg Demo2.legacy_adding 0 (watcher_error 7)
           [(5, CtxDone Canceled)] 10).
  - reflexivity.
  - simpl. lia.
  - repeat constructor; simpl; lia.
  - vm_compute. discriminate.
Defined.

(** A burst that a watcher error cuts in two: the event at 0 arms the
    timer of the first session, which is lost with it at 10; the event at
    20 is handled by the next session and arms its timer, and the callback
    is invoked at 70. *)
Example burst_cut_by_a_watcher_error :
  changes (Single.Watch Demo.single_cfg
             (Demo.single_opens
                ++ [(0, RecvEvent (Demo.write "/srv/app"));
                    (10, RecvError (Some (watcher_error 1)));
                    (10, RetNewWatcher None); (10, RetAdd None);
                    (20, RecvEvent (Demo.write "/srv/app"));
                    (1000, Tick)])).2 = [70]
  ∧ changes_of "/etc/a.conf"
      (Multi.WatchMultiple Demo.multi_cfg
         (Demo.multi_opens
            ++ [(0, RecvEvent (Demo.write "/etc/a.conf"));
                (10, RecvError (Some (watcher_error 1)));
                (10, RetNewWatcher None); (10, RetAdd None); (10, RetAdd None);
                (20, RecvEvent (Demo.write "/etc/a.conf"));
                (1000, Tick)])).2 = [70].
Proof. split; vm_compute; reflexivity. Qed.
